(** * memfs tree builder (fs/memfs/tree.go)

    A shallow embedding of the line parsers [Unix] and [Tab] and of the
    builder [CustomTree.Tree], together with the properties of the
    specification that concern them.

    Go values are modelled as follows.
    - [[]byte] and [string] are [list byte]; a nil slice and an empty slice
      are both [[]] (the code only ever looks at their length).
    - [int] is [Z]; the one place where the builder does arithmetic on
      values supplied by a caller-defined parser wraps at 64 bits.
    - [Directory] is a Go map, hence a reference: directories live in a
      heap and are named by their location, so that inserting into a
      directory that was stored in its parent earlier is visible from the
      root.
    - a run-time panic (slice index out of range) is an outcome of its own. *)

From Stdlib Require Import List ZArith Lia Bool Arith.
From Stdlib Require Import Strings.Byte.
From Stdlib Require Strings.String.
Import String.StringSyntax.
Delimit Scope string_scope with string.
Import ListNotations.
Local Open Scope Z_scope.

(** ** Package [bytes] *)

Module Bytes.

Definition bytes := list byte.

(** [bytes.HasPrefix]. *)
Fixpoint HasPrefix (s prefix : bytes) : bool :=
  match prefix, s with
  | [], _ => true
  | _ :: _, [] => false
  | b :: prefix', a :: s' => Byte.eqb a b && HasPrefix s' prefix'
  end.

(** [bytes.HasSuffix]. *)
Definition HasSuffix (s suffix : bytes) : bool :=
  HasPrefix (rev s) (rev suffix).

(** [bytes.Count] for a non-empty separator: the number of
    non-overlapping instances, scanning from the left.  After a match the
    scan resumes [len(sep)] bytes further; [skip] is the number of bytes
    still to be stepped over. *)
Fixpoint count_skip (sep : bytes) (skip : nat) (s : bytes) : Z :=
  match s with
  | [] => 0
  | _ :: s' =>
      match skip with
      | S k => count_skip sep k s'
      | O => if HasPrefix s sep
             then 1 + count_skip sep (length sep - 1) s'
             else count_skip sep 0 s'
      end
  end.

Definition Count (s sep : bytes) : Z := count_skip sep 0 s.

(** [bytes.Index]: index of the first instance, or -1. *)
Fixpoint Index (s sep : bytes) : Z :=
  if HasPrefix s sep then 0
  else match s with
       | [] => -1
       | _ :: s' => let i := Index s' sep in
                    if i =? -1 then -1 else i + 1
       end.

(** [bytes.LastIndex]: index of the last instance, or -1. *)
Fixpoint LastIndex (s sep : bytes) : Z :=
  match s with
  | [] => if HasPrefix s sep then 0 else -1
  | _ :: s' => let i := LastIndex s' sep in
               if i =? -1
               then (if HasPrefix s sep then 0 else -1)
               else i + 1
  end.

(** The slice expression [s[n:]]; the callers below only use it with
    [0 <= n <= len(s)] (lemmas [Count_bounds], [LastIndex_bounds],
    [Index_bounds]), where Go does not panic. *)
Definition from (n : Z) (s : bytes) : bytes := skipn (Z.to_nat n) s.

(** Number of positions of [s] at which [sep] occurs (overlapping or
    not): the reference notion [Count] is compared with. *)
Fixpoint occurrences (s sep : bytes) : nat :=
  match s with
  | [] => 0%nat
  | _ :: s' => ((if HasPrefix s sep then 1 else 0) + occurrences s' sep)%nat
  end.

(** ** White space, as [unicode.IsSpace] sees it through UTF-8.

    [bytes.TrimSpace] and [bytes.TrimRightFunc(_, unicode.IsSpace)]
    decode runes; a rune is white space exactly when it is one of the
    code points below, and Go accepts only the shortest encoding of a
    code point, so trimming white-space runes is trimming these byte
    sequences. *)
Definition spaceSeqs : list bytes :=
  [ [x09]; [x0a]; [x0b]; [x0c]; [x0d]; [x20];      (* \t \n \v \f \r SP *)
    [xc2; x85]; [xc2; xa0];                          (* U+0085 U+00A0 *)
    [xe1; x9a; x80];                                 (* U+1680 *)
    [xe2; x80; x80]; [xe2; x80; x81]; [xe2; x80; x82]; [xe2; x80; x83];
    [xe2; x80; x84]; [xe2; x80; x85]; [xe2; x80; x86]; [xe2; x80; x87];
    [xe2; x80; x88]; [xe2; x80; x89]; [xe2; x80; x8a]; (* U+2000..200A *)
    [xe2; x80; xa8]; [xe2; x80; xa9]; [xe2; x80; xaf]; (* U+2028 2029 202F *)
    [xe2; x81; x9f];                                 (* U+205F *)
    [xe3; x80; x80] ].                               (* U+3000 *)

(** Width of the white-space rune [s] starts with, if any. *)
Definition spacePrefix (s : bytes) : option nat :=
  option_map (@length byte) (find (HasPrefix s) spaceSeqs).

(** [bytes.TrimLeftFunc(s, unicode.IsSpace)]. *)
Fixpoint trimLeft_fuel (fuel : nat) (s : bytes) : bytes :=
  match fuel with
  | O => s
  | S fuel' => match spacePrefix s with
               | Some w => trimLeft_fuel fuel' (skipn w s)
               | None => s
               end
  end.

Definition TrimLeftSpace (s : bytes) : bytes := trimLeft_fuel (length s) s.

(** [bytes.TrimRightFunc(s, unicode.IsSpace)]: the same from the end; a
    white-space rune ends [s] exactly when its reversed encoding starts
    the reversed [s]. *)
Definition spaceSuffix (r : bytes) : option nat :=
  option_map (@length byte) (find (fun q => HasPrefix r (rev q)) spaceSeqs).

Fixpoint trimRev_fuel (fuel : nat) (r : bytes) : bytes :=
  match fuel with
  | O => r
  | S fuel' => match spaceSuffix r with
               | Some w => trimRev_fuel fuel' (skipn w r)
               | None => r
               end
  end.

Definition TrimRightSpace (s : bytes) : bytes :=
  rev (trimRev_fuel (length s) (rev s)).

(** [bytes.TrimSpace]. *)
Definition TrimSpace (s : bytes) : bytes := TrimRightSpace (TrimLeftSpace s).

(** [bytes.TrimRight(s, "/")]: all trailing slashes go. *)
Fixpoint dropSlashes (r : bytes) : bytes :=
  match r with
  | x2f :: r' => dropSlashes r'
  | _ => r
  end.

Definition TrimRightSlash (s : bytes) : bytes := rev (dropSlashes (rev s)).

(** Go source literals. *)
Definition lit (s : String.string) : bytes := String.list_byte_of_string s.
Arguments lit s%_string.

End Bytes.

Import Bytes.

(** ** Errors and line parsers *)

(** The [error] values the builder can see.  [ErrSyntax p] is
    [fmt.Errorf("invalid syntax: %q", p)]; [ErrPath] is an [*os.PathError]
    of the file-system collaborator; [ErrRead] is any failure of the
    underlying stream other than [io.EOF]. *)
Inductive error : Type :=
| EOF
| ErrUnexpectedEOF
| ErrSyntax (line : bytes)
| ErrPath (path : bytes)
| ErrRead (code : nat).

Definition is_EOF (e : option error) : bool :=
  match e with Some EOF => true | _ => false end.

(** Box drawing symbols. *)
Definition boxVerticalRight : bytes := [xe2; x94; x9c].
Definition boxHorizontal : bytes := [xe2; x94; x80].
Definition boxVertical : bytes := [xe2; x94; x82].
Definition boxUpRight : bytes := [xe2; x94; x94].
Definition boxSpace : bytes := [x20].
Definition boxHardSpace : bytes := [xa0].

Definition max (i j : Z) : Z := if i >? j then i else j.

(** [type CustomTree func(line []byte) (depth int, name []byte, err error)] *)
Definition CustomTree : Type := bytes -> Z * bytes * option error.

(** The named results [depth], [name], [err] are returned as they stand at
    each [return]: [depth] is set before either failure, [name] before the
    second. *)
Definition Unix : CustomTree := fun p =>
  let depth := Z.quot (Count p boxSpace + Count p boxHardSpace
                       + Count p boxVertical) 4 in
  let n := LastIndex p boxHorizontal in
  if n =? -1 then (depth, [], Some (ErrSyntax p))
  else
    let name := from n p in
    let n := Index name boxSpace in
    if n =? -1 then (depth, name, Some (ErrSyntax p))
    else (depth, from (n + 1) name, None).

Definition Tab : CustomTree := fun p =>
  let depth := Count p [x09] in
  (depth, from depth p, None).

(** ** The input stream *)

(** An [io.Reader] behind a [bufio.Reader]: the bytes it still delivers
    and the error it reports once they are exhausted ([EOF] for a stream
    that ends cleanly). *)
Record Reader : Type := mkReader { data : bytes; fail : error }.

(** [bytes.NewReader(p)]. *)
Definition NewReader (p : bytes) : Reader := mkReader p EOF.

(** The first line of [s], delimiter included, and what follows it. *)
Fixpoint splitLine (s : bytes) : option (bytes * bytes) :=
  match s with
  | [] => None
  | b :: s' =>
      if Byte.eqb b x0a then Some ([b], s')
      else match splitLine s' with
           | Some (l, rest) => Some (b :: l, rest)
           | None => None
           end
  end.

(** [buf.ReadBytes('\n')]: the line up to and including the delimiter; if
    the stream fails first, what was read together with the failure. *)
Definition ReadBytes (r : Reader) : bytes * option error * Reader :=
  match splitLine (data r) with
  | Some (l, rest) => (l, None, mkReader rest (fail r))
  | None => (data r, Some (fail r), mkReader [] (fail r))
  end.

(** [io.Copy(ioutil.Discard, buf)]. *)
Definition discard (r : Reader) : Reader := mkReader [] (fail r).

(** ** Directories *)

(** A [Directory] is a reference to a map from names to nodes; [File{}]
    carries nothing. *)
Definition Directory : Type := nat.

Inductive Value : Type :=
| File
| Dir (d : Directory).

Definition Entries : Type := list (bytes * Value).
Definition Heap : Type := list Entries.

Fixpoint bytes_eqb (a b : bytes) : bool :=
  match a, b with
  | [], [] => true
  | x :: a', y :: b' => Byte.eqb x y && bytes_eqb a' b'
  | _, _ => false
  end.

(** [m[k]] and [m[k] = v] on the contents of one map. *)
Fixpoint get (m : Entries) (k : bytes) : option Value :=
  match m with
  | [] => None
  | (k', v) :: m' => if bytes_eqb k' k then Some v else get m' k
  end.

Fixpoint set (m : Entries) (k : bytes) (v : Value) : Entries :=
  match m with
  | [] => [(k, v)]
  | (k', v') :: m' => if bytes_eqb k' k then (k, v) :: m'
                      else (k', v') :: set m' k v
  end.

(** [Directory{}]: a fresh empty map. *)
Definition alloc (h : Heap) : Directory * Heap := (length h, h ++ [[]]).

Definition entries (h : Heap) (d : Directory) : Entries := nth d h [].

Fixpoint update (h : Heap) (d : Directory) (f : Entries -> Entries) : Heap :=
  match h, d with
  | [], _ => []
  | m :: h', O => f m :: h'
  | m :: h', S d' => m :: update h' d' f
  end.

(** [dir[name] = value]. *)
Definition store (h : Heap) (dir : Directory) (name : bytes) (value : Value)
  : Heap := update h dir (fun m => set m name value).

(** The tree below a node, read off the heap ([fuel] bounds the depth). *)
#[local] Set Warnings "-register-all".
Inductive Shape : Type :=
| SFile
| SDir (children : list (bytes * Shape)).

Fixpoint shape (fuel : nat) (h : Heap) (v : Value) : Shape :=
  match v with
  | File => SFile
  | Dir d =>
      match fuel with
      | O => SDir []
      | S fuel' =>
          SDir (map (fun kv => (fst kv, shape fuel' h (snd kv))) (entries h d))
      end
  end.

(** ** The file-system collaborator

    [FS.MkdirAll] and [FS.lookup] belong to the package but not to
    tree.go; the builder is parametrised by them.  Both receive the heap
    and the top-level directory [fs.Tree]. *)
Record Collab : Type := mkCollab {
  MkdirAll : Heap -> Directory -> bytes -> Heap * option error;
  lookup : Heap -> Directory -> bytes -> Directory * option error
}.

(** [filepath.FromSlash] where the separator is a slash. *)
Definition FromSlash (p : bytes) : bytes := p.

(** ** The builder *)

(** Go's [int] is 64 bits wide; sums and differences wrap. *)
Definition wrap (z : Z) : Z := (z + 2 ^ 63) mod 2 ^ 64 - 2 ^ 63.

(** What one call returns: the result [fs] (its field [Tree] is a
    directory of the heap), the error, and the stream as it was left.
    [OutOfFuel] is an artefact of the recursion bound of [loop];
    [Tree_terminates] shows that [Tree] never yields it. *)
Inductive Outcome : Type :=
| Panic
| OutOfFuel
| Return (h : Heap) (fs : Directory) (err : option error) (rest : Reader).

(** The variables of [Tree] that live across iterations. *)
Record Frame : Type := mkFrame {
  heap : Heap;
  dir : Directory;
  glob : list Directory;
  name : bytes;
  prevName : bytes;
  depth : Z;
  prevDepth : Z
}.

(** Lines 115-123: the key and the value of the node of the previous
    iteration.  [Directory{}] allocates. *)
Definition classify (h : Heap) (prevName : bytes) : bytes * Value * Heap :=
  if HasSuffix prevName [x2f]
  then let '(d, h') := alloc h in (TrimRightSlash prevName, Dir d, h')
  else (prevName, File, h).

(** Lines 124-133.  In a tuple assignment the index operands on the left
    and all operands on the right are evaluated before anything is
    assigned, so [glob[n]] may panic before the map is written.  [None]
    is that panic. *)
Definition transition (h : Heap) (dir : Directory) (glob : list Directory)
    (depth prevDepth : Z) (name : bytes) (value : Value)
  : option (Heap * Directory * list Directory) :=
  if depth >? prevDepth then
    let '(d, h') := alloc h in
    Some (store h' dir name (Dir d), d, glob ++ [dir])
  else if depth =? prevDepth then
    Some (store h dir name value, dir, glob)
  else
    let n := max (wrap (wrap (Z.of_nat (length glob) + depth) - prevDepth)) 0 in
    match nth_error glob (Z.to_nat n) with
    | Some g => Some (store h dir name value, g, firstn (Z.to_nat n) glob)
    | None => None
    end.

(** Lines 112-134: insert the node of the previous iteration. *)
Definition insertPrev (f : Frame) : option Frame :=
  if (length (prevName f) =? 0)%nat then Some f
  else
    let '(key, value, h) := classify (heap f) (prevName f) in
    match transition h (dir f) (glob f) (depth f) (prevDepth f) key value with
    | Some (h', dir', glob') =>
        Some (mkFrame h' dir' glob' (name f) (prevName f) (depth f) (prevDepth f))
    | None => None
    end.

(** Lines 104-110: read a line and parse it.  Returns the frame with
    [depth] and [name] updated, and the local [line] and [err]. *)
Definition readLine (ct : CustomTree) (f : Frame) (r : Reader)
  : Frame * bytes * option error * Reader :=
  let '(line, _, r1) := ReadBytes r in
  if (length (TrimSpace line) =? 0)%nat
  then (f, [], Some EOF, discard r1)
  else
    let '(depth', name', err) := ct (TrimRightSpace line) in
    (mkFrame (heap f) (dir f) (glob f) name' (prevName f) depth' (prevDepth f),
     line, err, r1).

(** One pass through the body of the [for] loop (lines 104-143): it
    panics, returns, or goes round again with [prevDepth, prevName =
    depth, name]. *)
Inductive Step : Type :=
| StepPanic
| StepReturn (f : Frame) (err : option error) (r : Reader)
| StepNext (f : Frame) (r : Reader).

Definition advance (f : Frame) : Frame :=
  mkFrame (heap f) (dir f) (glob f) (name f) (name f) (depth f) (depth f).

Definition iteration (ct : CustomTree) (f : Frame) (r : Reader) : Step :=
  let '(f1, line, err, r1) := readLine ct f r in
  match insertPrev f1 with
  | None => StepPanic
  | Some f2 =>
      if (length line =? 0)%nat
      then StepReturn f2 (if is_EOF err then None else err) r1
      else StepNext (advance f2) r1
  end.

(** Lines 103-144: the [for] loop; [fs] is the result variable. *)
Fixpoint loop (fuel : nat) (ct : CustomTree) (fs : Directory)
    (f : Frame) (r : Reader) : Outcome :=
  match fuel with
  | O => OutOfFuel
  | S fuel' =>
      match iteration ct f r with
      | StepPanic => Panic
      | StepReturn f2 err r1 => Return (heap f2) fs err r1
      | StepNext f' r1 => loop fuel' ct fs f' r1
      end
  end.

(** The frames the loop goes through: the one at the head of each
    iteration, and the one it returns with. *)
Fixpoint frames (fuel : nat) (ct : CustomTree) (f : Frame) (r : Reader)
  : list Frame :=
  f :: match fuel with
       | O => []
       | S fuel' =>
           match iteration ct f r with
           | StepPanic => []
           | StepReturn f2 _ _ => [f2]
           | StepNext f' r1 => frames fuel' ct f' r1
           end
       end.

(** Lines 90-101: the root.  [Some] of an outcome is an early return. *)
Definition root (c : Collab) (h : Heap) (fs : Directory) (line : bytes)
    (r : Reader) : Outcome + Heap * Directory :=
  if negb (length line =? 1)%nat || negb (Byte.eqb (nth 0 line x00) x2e)
  then
    let p := FromSlash (TrimSpace line) in
    match MkdirAll c h fs p with
    | (h1, Some e) => inl (Return h1 fs (Some e) r)
    | (h1, None) =>
        match lookup c h1 fs p with
        | (_, Some e) => inl (Return h1 fs (Some e) r)
        | (d, None) => inr (h1, d)
        end
    end
  else inr (h, fs).

(** The frame the loop starts from: line 102 has pushed the root. *)
Definition start (h : Heap) (d : Directory) : Frame :=
  mkFrame h d [d] [] [] 0 0.

(** [func (ct CustomTree) Tree(r io.Reader) (fs FS, err error)]. *)
Definition Tree (c : Collab) (ct : CustomTree) (r : Reader) : Outcome :=
  let '(fs, h) := alloc [] in
  let '(line, err, r1) := ReadBytes r in
  if (length line =? 0)%nat || is_EOF err
  then Return h fs (Some ErrUnexpectedEOF) r1
  else
    match err with
    | Some e => Return h fs (Some e) r1
    | None =>
        match root c h fs line r1 with
        | inl out => out
        | inr (h1, d) => loop (S (length (data r1))) ct fs (start h1 d) r1
        end
    end.

(** ** A collaborator from its description *)

Module Memfs.

(** The non-empty components of a slash-separated path. *)
Fixpoint segments (cur : bytes) (p : bytes) : list bytes :=
  let flush := match cur with [] => [] | _ => [rev cur] end in
  match p with
  | [] => flush
  | b :: p' => if Byte.eqb b x2f then flush ++ segments [] p'
               else segments (b :: cur) p'
  end.

Fixpoint mkdirs (h : Heap) (d : Directory) (segs : list bytes)
  : Heap * option error :=
  match segs with
  | [] => (h, None)
  | s :: segs' =>
      match get (entries h d) s with
      | Some (Dir d') => mkdirs h d' segs'
      | Some File => (h, Some (ErrPath s))
      | None => let '(d', h') := alloc h in
                mkdirs (store h' d s (Dir d')) d' segs'
      end
  end.

Fixpoint walk (h : Heap) (d : Directory) (segs : list bytes)
  : Directory * option error :=
  match segs with
  | [] => (d, None)
  | s :: segs' =>
      match get (entries h d) s with
      | Some (Dir d') => walk h d' segs'
      | _ => (d, Some (ErrPath s))
      end
  end.

(** Modelled from the spec: the methods [FS.MkdirAll] and [FS.lookup] of
    the package, which tree.go calls but which are defined in another
    file.  [MkdirAll]: create a directory and all missing ancestors,
    no-op if it exists.  [lookup]: resolve a path to its directory,
    failing if any segment is missing or is not a directory.  A path is
    its slash-separated segments, each of them a name; empty segments
    are skipped. *)
Definition fs : Collab :=
  mkCollab (fun h top p => mkdirs h top (segments [] p))
           (fun h top p => walk h top (segments [] p)).

(** Modelled from the spec: the same two methods under the other
    reading of a path, the one of the documentation of [UnixTree] and
    [TabTree] (lines 149-177), where the root line [.] gives the
    top-level directory: a segment [.] stands for the directory it is
    resolved in and is skipped like an empty one. *)
Definition named (s : bytes) : bool := negb (bytes_eqb s [x2e]).

Definition dotfs : Collab :=
  mkCollab (fun h top p => mkdirs h top (filter named (segments [] p)))
           (fun h top p => walk h top (filter named (segments [] p))).

End Memfs.

(** [UnixTree] and [TabTree], over the collaborator [c]. *)
Definition UnixTree (c : Collab) (p : bytes) : Outcome := Tree c Unix (NewReader p).
Definition TabTree (c : Collab) (p : bytes) : Outcome := Tree c Tab (NewReader p).

(** The tree a call returned, for reading examples. *)
Definition result (o : Outcome) : option (Shape * option error) :=
  match o with
  | Return h fs err _ => Some (shape (length h) h (Dir fs), err)
  | _ => None
  end.

(** ** Notions the properties are stated with *)

(** [sep] cannot overlap a shifted copy of itself. *)
Definition unbordered (sep : bytes) : Prop :=
  forall s j, HasPrefix s sep = true -> (0 < j < length sep)%nat ->
              HasPrefix (skipn j s) sep = false.

(** [sep] occurs in [s] at offset [i]; it occurs there for the last time. *)
Definition occurs_at (sep s : bytes) (i : nat) : Prop :=
  HasPrefix (skipn i s) sep = true.

Definition last_at (sep s : bytes) (i : nat) : Prop :=
  occurs_at sep s i /\ forall j, (i < j)%nat -> ~ occurs_at sep s j.

(** The indentation glyphs of a line, wherever they stand in it: the
    bytes 0x20 and 0xA0 and the instances of the vertical box glyph. *)
Definition glyphs (p : bytes) : nat :=
  (occurrences p boxSpace + occurrences p boxHardSpace
   + occurrences p boxVertical)%nat.

(** The indentation of a line is what stands before its first non-box
    character (the box characters are the six glyphs above);
    [indentGlyphs] counts the ordinary spaces, hard spaces and vertical
    box glyphs of it.  This is the count the comment of line 47 asks
    for. *)
Fixpoint indent_fuel (fuel : nat) (p : bytes) : nat :=
  match fuel with
  | O => 0%nat
  | S fuel' =>
      if HasPrefix p boxSpace
      then S (indent_fuel fuel' (skipn (length boxSpace) p))
      else if HasPrefix p boxHardSpace
      then S (indent_fuel fuel' (skipn (length boxHardSpace) p))
      else if HasPrefix p boxVertical
      then S (indent_fuel fuel' (skipn (length boxVertical) p))
      else if HasPrefix p boxHorizontal
      then indent_fuel fuel' (skipn (length boxHorizontal) p)
      else if HasPrefix p boxVerticalRight
      then indent_fuel fuel' (skipn (length boxVerticalRight) p)
      else if HasPrefix p boxUpRight
      then indent_fuel fuel' (skipn (length boxUpRight) p)
      else 0%nat
  end.

Definition indentGlyphs (p : bytes) : nat := indent_fuel (length p) p.

(** The number of tab characters a line starts with. *)
Fixpoint leadingTabs (p : bytes) : nat :=
  match p with
  | x09 :: p' => S (leadingTabs p')
  | _ => 0%nat
  end.

(** The steps of the loop at which a node may be inserted: the frame
    [insertPrev] is applied to (line read, [depth] and [name] set) and
    what it yields. *)
Fixpoint inserts (fuel : nat) (ct : CustomTree) (f : Frame) (r : Reader)
  : list (Frame * option Frame) :=
  match fuel with
  | O => []
  | S fuel' =>
      let '(f1, _, _, _) := readLine ct f r in
      (f1, insertPrev f1)
        :: match iteration ct f r with
           | StepNext f' r1 => inserts fuel' ct f' r1
           | _ => []
           end
  end.

(** The values of Go's [int]. *)
Definition int (z : Z) : Prop := - 2 ^ 63 <= z < 2 ^ 63.

(** The collaborator takes the path [.] for the top-level directory:
    creating it changes nothing and looking it up gives that directory. *)
Definition resolves_dot (c : Collab) : Prop :=
  forall h top,
    MkdirAll c h top [x2e] = (h, None) /\ lookup c h top [x2e] = (top, None).

(** The top of the ancestor stack. *)
Definition top (glob : list Directory) : option Directory :=
  nth_error glob (length glob - 1).

(** What holds of the ancestor stack throughout a build with root
    [root]: the root is at its bottom, or the stack is empty and the
    root is the current directory. *)
Definition stack_ok (root : Directory) (f : Frame) : Prop :=
  (glob f = [] /\ dir f = root) \/ (exists tl, glob f = root :: tl).

(** At the head of an iteration [depth] and [name] are those of the
    previous line. *)
Definition at_head (f : Frame) : Prop :=
  depth f = prevDepth f /\ name f = prevName f.

(** The loop with the fuel [Tree] gives it. *)
Definition run (ct : CustomTree) (fs : Directory) (f : Frame) (r : Reader)
  : Outcome := loop (S (length (data r))) ct fs f r.

(** The stream that delivers the lines [ls], each followed by a newline. *)
Definition unlines (ls : list bytes) : bytes :=
  concat (map (fun l => l ++ [x0a]) ls).

(** A step on regularly indented input: the line is not negative in
    depth and at most one level deeper than the line before it; and
    when no name is buffered (at the first line, where the previous
    depth is 0, and after a line the parser returned no name for, as
    [Unix] does for a line it fails on) the line is at the previous
    depth, since nothing is inserted then while the depth is still
    recorded.  The previous depth is below the largest [int]. *)
Definition regular_step (f1 : Frame) : Prop :=
  (prevName f1 = [] -> depth f1 = prevDepth f1)
  /\ 0 <= depth f1 <= prevDepth f1 + 1
  /\ int (prevDepth f1 + 1).

(** The stack holds one entry per level down to the previous line. *)
Definition full_stack (f : Frame) : Prop :=
  Z.of_nat (length (glob f)) = prevDepth f + 1 /\ 0 <= prevDepth f.

(** [d] is stored in the directory [p], which was created before it. *)
Definition child (h : Heap) (p d : Directory) : Prop :=
  (p < d)%nat /\ exists k, get (entries h p) k = Some (Dir d).

(** Each directory of the list is a child of the one before it. *)
Fixpoint chain (h : Heap) (ds : list Directory) : Prop :=
  match ds with
  | [] => True
  | p :: tl => match tl with
               | [] => True
               | d :: _ => child h p d
               end /\ chain h tl
  end.

(** The stack of a build on regular input: the root, and then the
    directories from the root down to the parent of the current one. *)
Definition ancestry (root : Directory) (f : Frame) : Prop :=
  exists tl,
    glob f = root :: tl
    /\ hd_error (tl ++ [dir f]) = Some root
    /\ chain (heap f) (tl ++ [dir f])
    /\ Forall (fun d => (d < length (heap f))%nat) (tl ++ [dir f]).

(** The top of the stack and the directory being populated: both are
    the root at depth 0; below, the top is the parent of that
    directory. *)
Definition top_parent (root : Directory) (f : Frame) : Prop :=
  exists p,
    top (glob f) = Some p
    /\ ((depth f = 0 /\ p = root /\ dir f = root)
        \/ (0 < depth f /\ child (heap f) p (dir f))).

(** A byte string made of white-space runes only. *)
Inductive allspace : bytes -> Prop :=
| allspace_nil : allspace []
| allspace_cons (q s : bytes) :
    In q spaceSeqs -> allspace s -> allspace (q ++ s).

(** The heap after the names [ns] have been stored as files in the
    directory [d], one after the other. *)
Definition store_files (h : Heap) (d : Directory) (ns : list bytes) : Heap :=
  fold_left (fun h' n => store h' d n File) ns h.

(** A line of a flat listing: not blank, parsed at depth 0, with a name
    that is not empty and has no trailing slash. *)
Definition flat_line (ct : CustomTree) (l n : bytes) : Prop :=
  ~ In x0a l
  /\ TrimSpace (l ++ [x0a]) <> []
  /\ fst (ct (TrimRightSpace (l ++ [x0a]))) = (0, n)
  /\ n <> []
  /\ HasSuffix n [x2f] = false.

(** One parsed line of the body: its depth and its name. *)
Definition Item : Type := (Z * bytes)%type.

(** A line of the stream that is not blank and that the parser reads as
    the item [it] (whatever error it reports beside). *)
Definition parsed_line (ct : CustomTree) (l : bytes) (it : Item) : Prop :=
  ~ In x0a l
  /\ TrimSpace (l ++ [x0a]) <> []
  /\ fst (ct (TrimRightSpace (l ++ [x0a]))) = it.

(** The body of the loop on a parsed line (lines 109-134 and 143), and
    on a sequence of them. *)
Definition feed (f : Frame) (it : Item) : option Frame :=
  match insertPrev (mkFrame (heap f) (dir f) (glob f) (snd it) (prevName f)
                            (fst it) (prevDepth f)) with
  | Some f2 => Some (advance f2)
  | None => None
  end.

Fixpoint feed_all (f : Frame) (its : list Item) : option Frame :=
  match its with
  | [] => Some f
  | it :: its' =>
      match feed f it with
      | Some f' => feed_all f' its'
      | None => None
      end
  end.

(** The items [its], and then either one more item or the end of the
    stream, where the buffered node is inserted (lines 105-107). *)
Definition feed_seq (f : Frame) (its : list Item) (next : option Item)
  : option Frame :=
  match feed_all f its with
  | Some f1 =>
      match next with
      | Some it => feed f1 it
      | None => insertPrev f1
      end
  | None => None
  end.

(** The listing of a tree: a file is a line with its name, an empty
    directory a line with its name and a slash, any other directory a
    line with its name followed by the listings of its children one
    level deeper. *)
Fixpoint tree_items (k : Z) (n : bytes) (T : Shape) {struct T} : list Item :=
  match T with
  | SFile => [(k, n)]
  | SDir cs =>
      match cs with
      | [] => [(k, n ++ [x2f])]
      | _ :: _ =>
          (k, n) :: flat_map (fun c => let '(m, C) := c in
                                       tree_items (k + 1) m C) cs
      end
  end.

Definition forest_items (k : Z) (F : list (bytes * Shape)) : list Item :=
  flat_map (fun c => let '(m, C) := c in tree_items k m C) F.

(** The names a listing can carry: not empty, without a trailing slash,
    and different from those of the siblings. *)
Fixpoint wellnamed (T : Shape) : Prop :=
  match T with
  | SFile => True
  | SDir cs =>
      NoDup (map fst cs)
      /\ (fix all (cs : list (bytes * Shape)) : Prop :=
            match cs with
            | [] => True
            | (m, C) :: cs' =>
                m <> [] /\ HasSuffix m [x2f] = false /\ wellnamed C /\ all cs'
            end) cs
  end.

Fixpoint height (T : Shape) : nat :=
  match T with
  | SFile => 0%nat
  | SDir cs => S (fold_right (fun c m => Nat.max (height (snd c)) m) 0%nat cs)
  end.

(** The heap holds the tree [T] at the value [v], in directories
    numbered from [lo] to below [hi]. *)
Fixpoint rep (lo hi : nat) (h : Heap) (v : Value) (T : Shape) {struct T}
  : Prop :=
  match T, v with
  | SFile, File => True
  | SDir cs, Dir d =>
      (lo <= d < hi)%nat
      /\ (fix all (cs : list (bytes * Shape)) (es : Entries) {struct cs}
            : Prop :=
            match cs, es with
            | [], [] => True
            | (k', C) :: cs', (k, v') :: es' =>
                k = k' /\ rep lo hi h v' C /\ all cs' es'
            | _, _ => False
            end) cs (entries h d)
  | _, _ => False
  end.

(** The frame at the head of an iteration: heap, stack, current
    directory, and the depth and name of the line read last. *)
Definition head (h : Heap) (gl : list Directory) (D : Directory) (k : Z)
    (n : bytes) : Frame := mkFrame h D gl n n k k.

(** Stack and current directory after a move from a line at the depth
    of the full stack [gl] to a line at depth [nd], not deeper. *)
Definition cut (gl : list Directory) (D : Directory) (nd : Z)
  : list Directory * Directory :=
  (firstn (Z.to_nat nd + 1) gl, nth (Z.to_nat nd + 1) (gl ++ [D]) D).

(** The entries [es] hold the forest [cs]: name by name, in order. *)
Definition rep_forest (lo hi : nat) (h : Heap) (cs : list (bytes * Shape))
    (es : Entries) : Prop :=
  Forall2 (fun c e => fst e = fst c /\ rep lo hi h (snd e) (snd c)) cs es.

Definition wellnamed_forest (cs : list (bytes * Shape)) : Prop :=
  NoDup (map fst cs)
  /\ Forall (fun c => fst c <> [] /\ HasSuffix (fst c) [x2f] = false
                      /\ wellnamed (snd c)) cs.

(** The name a tree is listed under, and its children. *)
Definition pname (n : bytes) (T : Shape) : bytes :=
  match T with
  | SDir [] => n ++ [x2f]
  | _ => n
  end.

Definition children (T : Shape) : list (bytes * Shape) :=
  match T with
  | SFile => []
  | SDir cs => cs
  end.

(** The heap [h'] is [h] with the tree [T] added under the new name [n]
    of the directory [D], in fresh directories, and nothing else
    changed. *)
Definition built (h : Heap) (D : Directory) (n : bytes) (T : Shape)
    (h' : Heap) : Prop :=
  (length h <= length h')%nat
  /\ (forall d, (d < length h)%nat -> d <> D -> entries h' d = entries h d)
  /\ exists v, entries h' D = entries h D ++ [(n, v)]
               /\ rep (length h) (length h') h' v T.

Definition built_forest (h : Heap) (D : Directory)
    (F : list (bytes * Shape)) (h' : Heap) : Prop :=
  (length h <= length h')%nat
  /\ (forall d, (d < length h)%nat -> d <> D -> entries h' d = entries h d)
  /\ exists es, entries h' D = entries h D ++ es
                /\ rep_forest (length h) (length h') h' F es.

(** Where the loop stands after the item [next], if there is one. *)
Definition arrives (f' : Frame) (gl : list Directory) (D : Directory)
    (next : option Item) : Prop :=
  match next with
  | Some (nd, nn) =>
      f' = head (heap f') (fst (cut gl D nd)) (snd (cut gl D nd)) nd nn
  | None => True
  end.

Definition next_ok (k : Z) (next : option Item) : Prop :=
  match next with
  | Some (nd, _) => 0 <= nd <= k
  | None => True
  end.

(** What the loop does with the listing of the tree [T], named [n], at
    depth [k]: once its line is read, the rest of its listing and the
    item after it (or the end of the stream) add [T] under [n] to the
    current directory, and leave the loop where the next item belongs. *)
Definition builds (T : Shape) : Prop :=
  forall (k : Z) (n : bytes) (h : Heap) (gl : list Directory)
         (D : Directory) (next : option Item),
    wellnamed T -> n <> [] -> HasSuffix n [x2f] = false ->
    Z.of_nat (length gl) = k + 1 -> 0 <= k ->
    int (k + Z.of_nat (height T) + 1) ->
    (D < length h)%nat -> get (entries h D) n = None ->
    next_ok k next ->
    exists f',
      feed_seq (head h gl D k (pname n T))
               (forest_items (k + 1) (children T)) next = Some f'
      /\ built h D n T (heap f')
      /\ arrives f' gl D next.

(** The byte [b] ends the encoding of some white-space rune. *)
Definition space_final (b : byte) : bool :=
  existsb (fun q => Byte.eqb b (last q x00)) spaceSeqs.

(** A name that a tab listing can carry as it is: no newline, no tab,
    not empty, and a last byte that ends no white-space rune. *)
Definition plain (n : bytes) : Prop :=
  ~ In x0a n /\ ~ In x09 n /\ n <> [] /\ space_final (last n x00) = false.

(** The tab listing of a forest: every item as a line, its name behind
    as many tabs as it is deep. *)
Definition tab_line (it : Item) : bytes :=
  repeat x09 (Z.to_nat (fst it)) ++ snd it.

Definition tab_lines (F : list (bytes * Shape)) : list bytes :=
  map tab_line (forest_items 0 F).

(** The indentation units of the output of [tree], four glyphs each
    (a vertical bar or a space, then two spaces or two non-breaking
    spaces, then a space), and its two connectors. *)
Definition unix_units : list bytes :=
  [ boxVertical ++ [x20; x20; x20];
    [x20; x20; x20; x20];
    boxVertical ++ [xc2; xa0; xc2; xa0; x20] ].

Definition unix_connectors : list bytes :=
  [ boxVerticalRight ++ boxHorizontal ++ boxHorizontal ++ [x20];
    boxUpRight ++ boxHorizontal ++ boxHorizontal ++ [x20] ].

(** A line of [tree] output for the item [it]: one unit per level, a
    connector, the name. *)
Definition unix_line (l : bytes) (it : Item) : Prop :=
  exists units conn,
    Forall (fun u => In u unix_units) units
    /\ Z.of_nat (length units) = fst it
    /\ In conn unix_connectors
    /\ l = concat units ++ conn ++ snd it.

(** A name [Unix] reads back from such a line: not empty, no newline,
    not ending in white space, at most two glyph bytes of its own, and
    no horizontal box glyph. *)
Definition unix_plain (n : bytes) : Prop :=
  ~ In x0a n /\ n <> [] /\ space_final (last n x00) = false
  /\ (glyphs n <= 2)%nat
  /\ forall j, ~ occurs_at boxHorizontal n j.

(** The heap is a forest: every directory stored in a directory was
    created after it, exists, and is stored nowhere else. *)
Definition linked (h : Heap) : Prop :=
  (forall d k r, get (entries h d) k = Some (Dir r) ->
                 (d < r < length h)%nat)
  /\ (forall d1 k1 d2 k2 r,
         get (entries h d1) k1 = Some (Dir r) ->
         get (entries h d2) k2 = Some (Dir r) ->
         d1 = d2 /\ k1 = k2).

(** The current directory and the directories of the stack exist. *)
Definition live (f : Frame) : Prop :=
  (dir f < length (heap f))%nat
  /\ Forall (fun g => (g < length (heap f))%nat) (glob f).

(** * Properties *)

(** ** Byte strings *)

Section BytesFacts.

Lemma byte_eqb_eq (a b : byte) : Byte.eqb a b = true <-> a = b.
Proof.
  split; [apply Byte.byte_dec_bl | apply Byte.byte_dec_lb].
Qed.

Lemma byte_eqb_neq (a b : byte) : Byte.eqb a b = false <-> a <> b.
Proof.
  split.
  - intros H E. apply byte_eqb_eq in E. congruence.
  - intros H. destruct (Byte.eqb a b) eqn:E; [|reflexivity].
    apply byte_eqb_eq in E. contradiction.
Qed.

Lemma HasPrefix_iff (s p : bytes) :
  HasPrefix s p = true <-> exists t, s = p ++ t.
Proof.
  revert s. induction p as [|b p IH]; intros s; simpl.
  - split; [intros _; now exists s | intros _; now destruct s].
  - destruct s as [|a s].
    + split; [discriminate | intros [t Ht]; discriminate].
    + cbn [HasPrefix]. rewrite andb_true_iff, byte_eqb_eq, IH. split.
      * intros [-> [t ->]]. now exists t.
      * intros [t Ht]. injection Ht as -> ->. split; [reflexivity | now exists t].
Qed.

Lemma HasPrefix_nil (s : bytes) : HasPrefix s [] = true.
Proof. now destruct s. Qed.

Lemma bytes_eqb_eq (a b : bytes) : bytes_eqb a b = true <-> a = b.
Proof.
  revert b. induction a as [|x a IH]; intros [|y b]; simpl;
    try (split; [discriminate | intros H; discriminate]);
    try (split; reflexivity).
  rewrite andb_true_iff, byte_eqb_eq, IH. split.
  - now intros [-> ->].
  - intros H. injection H as -> ->. now split.
Qed.

Lemma bytes_eqb_refl (a : bytes) : bytes_eqb a a = true.
Proof. now apply bytes_eqb_eq. Qed.

Lemma count_skip_occurrences (sep : bytes) (Hsep : unbordered sep) :
  forall s k,
    (forall j, (j < k)%nat -> HasPrefix (skipn j s) sep = false) ->
    count_skip sep k s = Z.of_nat (occurrences s sep).
Proof.
  induction s as [|a s IH]; intros k Hk; [reflexivity|].
  cbn [count_skip occurrences]. destruct k as [|k].
  - destruct (HasPrefix (a :: s) sep) eqn:E.
    + rewrite IH; [lia|]. intros j Hj.
      apply (Hsep (a :: s) (S j) E). lia.
    + rewrite IH; [lia|]. intros j Hj. lia.
  - assert (H0 : HasPrefix (a :: s) sep = false) by (apply (Hk 0%nat); lia).
    rewrite H0, IH; [lia|].
    intros j Hj. apply (Hk (S j)). lia.
Qed.

Lemma Count_occurrences (sep s : bytes) :
  unbordered sep -> Count s sep = Z.of_nat (occurrences s sep).
Proof.
  intros H. apply count_skip_occurrences; [exact H|]. intros j Hj. lia.
Qed.

Lemma unbordered_single (b : byte) : unbordered [b].
Proof. intros s j _ Hj. simpl in Hj. lia. Qed.

Lemma unbordered_boxVertical : unbordered boxVertical.
Proof.
  intros s j H Hj. apply HasPrefix_iff in H as [t ->].
  simpl in Hj.
  destruct j as [|[|[|j]]]; try lia; reflexivity.
Qed.

Lemma occurrences_le (s sep : bytes) : (occurrences s sep <= length s)%nat.
Proof.
  induction s as [|a s IH]; simpl; [lia|].
  destruct (match sep with [] => true | b :: p => Byte.eqb a b && HasPrefix s p end);
    lia.
Qed.

Lemma occurrences_single (b : byte) (s : bytes) :
  occurrences s [b] = count_occ Byte.byte_eq_dec s b.
Proof.
  induction s as [|a s IH]; [reflexivity|].
  cbn [occurrences HasPrefix]. rewrite HasPrefix_nil, andb_true_r, IH.
  simpl. destruct (Byte.byte_eq_dec a b) as [->|N].
  - now rewrite (proj2 (byte_eqb_eq b b) eq_refl).
  - now rewrite (proj2 (byte_eqb_neq a b) N).
Qed.

End BytesFacts.

(** ** Searching *)

Section Search.

Variable sep : bytes.

Lemma LastIndex_bounds (s : bytes) :
  -1 <= LastIndex s sep <= Z.of_nat (length s).
Proof.
  induction s as [|a s IH].
  - cbn [LastIndex length]. destruct (HasPrefix [] sep); lia.
  - cbn [LastIndex length]. destruct (LastIndex s sep =? -1) eqn:E.
    + destruct (HasPrefix (a :: s) sep); lia.
    + apply Z.eqb_neq in E. lia.
Qed.

Lemma LastIndex_none (s : bytes) :
  LastIndex s sep = -1 <-> forall i, ~ occurs_at sep s i.
Proof.
  unfold occurs_at. induction s as [|a s IH].
  - cbn [LastIndex]. destruct (HasPrefix [] sep) eqn:E; split; intros H; try lia.
    + exfalso. apply (H 0%nat). exact E.
    + intros i. rewrite skipn_nil. congruence.
  - cbn [LastIndex]. pose proof (LastIndex_bounds s) as B.
    destruct (LastIndex s sep =? -1) eqn:E.
    + apply Z.eqb_eq in E. destruct (HasPrefix (a :: s) sep) eqn:P; split; intros H; try lia.
      * exfalso. apply (H 0%nat). exact P.
      * intros [|i]; cbn [skipn]; [congruence | now apply IH].
    + apply Z.eqb_neq in E. split; intros H; [lia|].
      exfalso. apply E, IH. intros i. apply (H (S i)).
Qed.

Lemma LastIndex_found (s : bytes) (n : Z) :
  sep <> [] -> LastIndex s sep = n -> 0 <= n ->
  last_at sep s (Z.to_nat n).
Proof.
  intros Hsep. unfold last_at, occurs_at. revert n.
  induction s as [|a s IH]; intros n Hn Hpos.
  - cbn [LastIndex] in Hn. destruct (HasPrefix [] sep) eqn:E; [|lia].
    apply HasPrefix_iff in E as [t Ht]. symmetry in Ht.
    apply app_eq_nil in Ht as [Ht _]. contradiction.
  - cbn [LastIndex] in Hn. pose proof (LastIndex_bounds s) as B.
    destruct (LastIndex s sep =? -1) eqn:E.
    + apply Z.eqb_eq in E. destruct (HasPrefix (a :: s) sep) eqn:P; [|lia].
      subst n. split; [exact P|]. intros [|j] Hj; [simpl in Hj; lia|].
      cbn [skipn]. now apply LastIndex_none.
    + apply Z.eqb_neq in E.
      destruct (IH (LastIndex s sep) eq_refl ltac:(lia)) as [H1 H2].
      subst n. replace (Z.to_nat (LastIndex s sep + 1))
        with (S (Z.to_nat (LastIndex s sep))) by lia.
      split; [exact H1|]. intros [|j] Hj; [lia|].
      cbn [skipn]. apply H2. lia.
Qed.

Lemma last_at_unique (s : bytes) (i j : nat) :
  last_at sep s i -> last_at sep s j -> i = j.
Proof.
  intros [Hi Li] [Hj Lj].
  destruct (Nat.lt_trichotomy i j) as [H|[H|H]]; [|exact H|].
  - exfalso. exact (Li j H Hj).
  - exfalso. exact (Lj i H Hi).
Qed.

Lemma Index_bounds (s : bytes) : -1 <= Index s sep <= Z.of_nat (length s).
Proof.
  induction s as [|a s IH].
  - cbn [Index length]. destruct (HasPrefix [] sep); lia.
  - cbn [Index length]. destruct (HasPrefix (a :: s) sep); [lia|].
    destruct (Index s sep =? -1) eqn:E; [lia|].
    apply Z.eqb_neq in E. lia.
Qed.

End Search.

Lemma Index_single_none (b : byte) (s : bytes) :
  Index s [b] = -1 <-> ~ In b s.
Proof.
  induction s as [|a s IH]; [simpl; split; [tauto | reflexivity]|].
  cbn [Index HasPrefix]. rewrite HasPrefix_nil, andb_true_r.
  pose proof (Index_bounds [b] s) as B.
  destruct (Byte.eqb a b) eqn:E.
  - apply byte_eqb_eq in E. subst a. split; [lia | simpl; tauto].
  - apply byte_eqb_neq in E. destruct (Index s [b] =? -1) eqn:I.
    + apply Z.eqb_eq in I. split; [|reflexivity].
      intros _ [H|H]; [contradiction | now apply IH].
    + apply Z.eqb_neq in I. split; [lia|].
      intros H. exfalso. apply I, IH. intros H'. apply H. now right.
Qed.

Lemma Index_single_found (b : byte) (s : bytes) (n : Z) :
  Index s [b] = n -> 0 <= n ->
  exists pre post, s = pre ++ b :: post /\ length pre = Z.to_nat n /\ ~ In b pre
                   /\ from (n + 1) s = post.
Proof.
  revert n. induction s as [|a s IH]; intros n Hn Hpos; [simpl in Hn; lia|].
  cbn [Index HasPrefix] in Hn. rewrite HasPrefix_nil, andb_true_r in Hn.
  pose proof (Index_bounds [b] s) as B.
  destruct (Byte.eqb a b) eqn:E.
  - apply byte_eqb_eq in E. subst a n. exists [], s. simpl. tauto.
  - apply byte_eqb_neq in E. destruct (Index s [b] =? -1) eqn:I; [lia|].
    apply Z.eqb_neq in I.
    destruct (IH (Index s [b]) eq_refl ltac:(lia)) as (pre & post & -> & L & N & F).
    subst n. exists (a :: pre), post. unfold from in *.
    replace (Z.to_nat (Index (pre ++ b :: post) [b] + 1 + 1))
      with (S (Z.to_nat (Index (pre ++ b :: post) [b] + 1))) by lia.
    repeat split.
    + simpl. lia.
    + intros [H|H]; [congruence | contradiction].
    + simpl. exact F.
Qed.

Lemma Count_bounds (s sep : bytes) (k : nat) :
  0 <= count_skip sep k s <= Z.of_nat (length s).
Proof.
  revert k. induction s as [|a s IH]; intros k; cbn [count_skip length]; [lia|].
  destruct k as [|k].
  - destruct (HasPrefix (a :: s) sep).
    + specialize (IH (length sep - 1)%nat). lia.
    + specialize (IH 0%nat). lia.
  - specialize (IH k). lia.
Qed.

(** ** The line parsers *)

Lemma Unix_depth (p : bytes) :
  fst (fst (Unix p)) = Z.quot (Z.of_nat (glyphs p)) 4.
Proof.
  assert (D : Count p boxSpace + Count p boxHardSpace + Count p boxVertical
              = Z.of_nat (glyphs p)).
  { unfold glyphs, boxSpace, boxHardSpace.
    rewrite !Count_occurrences
      by (apply unbordered_single || apply unbordered_boxVertical).
    lia. }
  unfold Unix. rewrite D.
  destruct (LastIndex p boxHorizontal =? -1); [reflexivity|].
  destruct (Index (from (LastIndex p boxHorizontal) p) boxSpace =? -1);
    reflexivity.
Qed.

Lemma boxHorizontal_nonempty : boxHorizontal <> [].
Proof. discriminate. Qed.

(** A successful [Unix] cuts the line at the last connector glyph and
    then at the first space after it. *)
Lemma Unix_success (p : bytes) (d : Z) (nm : bytes) :
  Unix p = (d, nm, None) ->
  exists pre mid,
    p = pre ++ boxHorizontal ++ mid ++ x20 :: nm
    /\ last_at boxHorizontal p (length pre)
    /\ ~ In x20 mid.
Proof.
  unfold Unix. pose proof (LastIndex_bounds boxHorizontal p) as B.
  destruct (LastIndex p boxHorizontal =? -1) eqn:E; [discriminate|].
  apply Z.eqb_neq in E.
  set (n := LastIndex p boxHorizontal) in *.
  pose proof (Index_bounds boxSpace (from n p)) as B'.
  destruct (Index (from n p) boxSpace =? -1) eqn:I; [discriminate|].
  apply Z.eqb_neq in I. intros H. injection H as _ Hnm.
  destruct (LastIndex_found boxHorizontal p n boxHorizontal_nonempty eq_refl
              ltac:(lia)) as [Hocc Hlast].
  destruct (Index_single_found x20 (from n p) _ eq_refl ltac:(unfold boxSpace in *; lia))
    as (pre' & post & Hsplit & _ & Hno & Hpost).
  fold boxSpace in Hpost. rewrite Hpost in Hnm. subst post.
  pose proof Hocc as Hocc'. unfold occurs_at in Hocc'.
  apply HasPrefix_iff in Hocc' as [t Ht]. unfold from in Hsplit.
  rewrite Ht in Hsplit.
  assert (Hpre : exists mid, pre' = boxHorizontal ++ mid).
  { unfold boxHorizontal in Hsplit |- *.
    destruct pre' as [|a [|b [|c mid]]]; simpl in Hsplit; try discriminate.
    injection Hsplit as <- <- <- _. now exists mid. }
  destruct Hpre as [mid ->].
  exists (firstn (Z.to_nat n) p), mid.
  assert (L : length (firstn (Z.to_nat n) p) = Z.to_nat n)
    by (apply firstn_length_le; lia).
  repeat split.
  - rewrite <- (firstn_skipn (Z.to_nat n) p) at 1. f_equal.
    rewrite Ht, Hsplit. now rewrite <- !app_assoc.
  - rewrite L. exact Hocc.
  - rewrite L. exact Hlast.
  - intros H. apply Hno. apply in_or_app. now right.
Qed.

(** What [Unix] computes.  For every line [p], [Unix] returns as depth
    the number of glyph bytes of the whole of [p] (bytes 0x20 and 0xA0,
    vertical box glyphs), the name included, divided by 4; it fails, with a syntax error about [p], exactly when
    [p] has no horizontal box glyph or has no space from the last one on;
    and when it succeeds the name is what follows the first space after
    the last horizontal box glyph. *)
Theorem Unix_spec (p : bytes) :
  let '(depth, name, err) := Unix p in
  depth = Z.quot (Z.of_nat (glyphs p)) 4
  /\ (err <> None <->
      (forall i, ~ occurs_at boxHorizontal p i)
      \/ (exists n, last_at boxHorizontal p n /\ ~ In x20 (skipn n p)))
  /\ (err <> None -> err = Some (ErrSyntax p))
  /\ (err = None ->
      exists pre mid,
        p = pre ++ boxHorizontal ++ mid ++ x20 :: name
        /\ last_at boxHorizontal p (length pre)
        /\ ~ In x20 mid).
Proof.
  pose proof (Unix_depth p) as D. pose proof (Unix_success p) as S.
  destruct (Unix p) as [[depth name] err] eqn:U. simpl in D.
  split; [exact D|]. split; [|split].
  - unfold Unix in U. pose proof (LastIndex_bounds boxHorizontal p) as B.
    destruct (LastIndex p boxHorizontal =? -1) eqn:E.
    + apply Z.eqb_eq in E. injection U as _ _ <-. split; [|discriminate].
      intros _. left. now apply LastIndex_none.
    + apply Z.eqb_neq in E.
      pose proof (LastIndex_found boxHorizontal p _ boxHorizontal_nonempty
                    eq_refl ltac:(lia)) as Hlast.
      destruct (Index (from (LastIndex p boxHorizontal) p) boxSpace =? -1) eqn:I.
      * apply Z.eqb_eq in I. injection U as _ _ <-. split; [|discriminate].
        intros _. right. eexists. split; [exact Hlast|].
        now apply Index_single_none.
      * apply Z.eqb_neq in I. injection U as _ _ <-. split; [congruence|].
        intros [H|[n [Hn Hno]]]; exfalso.
        -- now apply E, LastIndex_none.
        -- rewrite (last_at_unique _ _ _ _ Hn Hlast) in Hno.
           now apply I, Index_single_none.
  - unfold Unix in U.
    destruct (LastIndex p boxHorizontal =? -1);
      [injection U as _ _ <-; reflexivity|].
    destruct (Index (from (LastIndex p boxHorizontal) p) boxSpace =? -1);
      injection U as _ _ <-; [reflexivity | congruence].
  - intros ->. now apply (S depth name).
Qed.

(** C6.  [Unix] does not return the number of indentation glyphs
    divided by 4: its count runs over the whole line and takes in the
    spaces (and bytes 0xA0) of the name.  The line [connector a b c d]
    has one indentation glyph, the space of the connector, which makes
    depth 0; [Unix] counts four and returns depth 1.  So it does for
    the name made of four Cyrillic letters whose second byte is 0xA0. *)
Theorem Unix_counts_name_glyphs :
  let p := boxUpRight ++ boxHorizontal ++ boxHorizontal ++ lit " a b c d" in
  let q := boxUpRight ++ boxHorizontal ++ boxHorizontal
           ++ [x20; xd0; xa0; xd0; xa0; xd0; xa0; xd0; xa0] in
  (indentGlyphs p = 1%nat
   /\ Z.quot (Z.of_nat (indentGlyphs p)) 4 = 0
   /\ Unix p = (1, lit "a b c d", None))
  /\ (indentGlyphs q = 1%nat
      /\ Z.quot (Z.of_nat (indentGlyphs q)) 4 = 0
      /\ Unix q = (1, [xd0; xa0; xd0; xa0; xd0; xa0; xd0; xa0], None)).
Proof. repeat split; vm_compute; reflexivity. Qed.

Lemma Tab_never_fails (p : bytes) : snd (Tab p) = None.
Proof. reflexivity. Qed.

Lemma Tab_depth_bounds (p : bytes) :
  0 <= fst (fst (Tab p)) <= Z.of_nat (length p).
Proof. apply Count_bounds. Qed.

Lemma occurrences_absent (b : byte) (s : bytes) :
  ~ In b s -> occurrences s [b] = 0%nat.
Proof.
  rewrite occurrences_single. apply count_occ_not_In.
Qed.

(** X5.  When all the tabs of a line are in front, [Tab] counts and
    strips exactly them: the depth is the number of leading tabs and
    the name is the rest of the line. *)
Lemma Tab_leading (p : bytes) :
  ~ In x09 (skipn (leadingTabs p) p) ->
  Tab p = (Z.of_nat (leadingTabs p), skipn (leadingTabs p) p, None).
Proof.
  intros H. unfold Tab, from.
  assert (C : Count p [x09] = Z.of_nat (leadingTabs p)).
  { rewrite Count_occurrences by apply unbordered_single. f_equal.
    induction p as [|a p IH]; [reflexivity|].
    destruct (Byte.byte_eq_dec a x09) as [->|N].
    - cbn [leadingTabs skipn] in H |- *. cbn [occurrences HasPrefix].
      rewrite HasPrefix_nil. simpl. f_equal. apply IH, H.
    - assert (L : leadingTabs (a :: p) = 0%nat) 
        by (destruct a; try reflexivity; exfalso; apply N; reflexivity).
      rewrite L in H |- *. simpl in H. now apply occurrences_absent. }
  rewrite C, Nat2Z.id. reflexivity.
Qed.

(** C7.  On the line [a<TAB>b], which starts with no tab, [Tab] returns
    depth 1 and the name [<TAB>b]: it counts the tabs of the whole line
    and strips that many bytes from the front. *)
Theorem Tab_interior_tab :
  leadingTabs (lit "a" ++ [x09] ++ lit "b") = 0%nat
  /\ Tab (lit "a" ++ [x09] ++ lit "b") = (1, [x09] ++ lit "b", None).
Proof. split; reflexivity. Qed.

(** ** Reading lines *)

Lemma splitLine_some (s l rest : bytes) :
  splitLine s = Some (l, rest) ->
  s = l ++ rest /\ exists l0, l = l0 ++ [x0a] /\ ~ In x0a l0.
Proof.
  revert l rest. induction s as [|b s IH]; intros l rest H; [discriminate|].
  cbn [splitLine] in H. destruct (Byte.eqb b x0a) eqn:E.
  - apply byte_eqb_eq in E. injection H as <- <-. subst b.
    split; [reflexivity|]. exists []. split; [reflexivity | intros []].
  - apply byte_eqb_neq in E. destruct (splitLine s) as [[l' rest']|]; [|discriminate].
    injection H as <- <-. destruct (IH l' rest' eq_refl) as [-> [l0 [-> N]]].
    split; [reflexivity|]. exists (b :: l0). split; [reflexivity|].
    intros [H|H]; [congruence | contradiction].
Qed.

Lemma splitLine_none (s : bytes) : splitLine s = None <-> ~ In x0a s.
Proof.
  induction s as [|b s IH]; [simpl; tauto|].
  cbn [splitLine]. destruct (Byte.eqb b x0a) eqn:E.
  - apply byte_eqb_eq in E. subst b. split; [discriminate | simpl; tauto].
  - apply byte_eqb_neq in E. destruct (splitLine s) as [[l rest]|].
    + split; [discriminate|]. intros H. exfalso.
      assert (N : ~ In x0a s) by (intros H'; apply H; now right).
      apply IH in N. discriminate.
    + split; [|reflexivity]. intros _ [H|H]; [congruence|].
      now apply (proj1 IH eq_refl).
Qed.

(** A line followed by more input is read as that line. *)
Lemma splitLine_app (l0 rest : bytes) :
  ~ In x0a l0 -> splitLine (l0 ++ x0a :: rest) = Some (l0 ++ [x0a], rest).
Proof.
  induction l0 as [|b l0 IH]; intros N; [reflexivity|].
  cbn [app splitLine].
  rewrite (proj2 (byte_eqb_neq b x0a)) by (intros ->; apply N; now left).
  rewrite IH by (intros H; apply N; now right). reflexivity.
Qed.

Lemma ReadBytes_length (r : Reader) :
  let '(line, _, r1) := ReadBytes r in
  (length line + length (data r1) = length (data r))%nat.
Proof.
  unfold ReadBytes. destruct (splitLine (data r)) as [[l rest]|] eqn:E.
  - apply splitLine_some in E as [-> _]. simpl. now rewrite length_app.
  - simpl. lia.
Qed.

Lemma ReadBytes_fail (r : Reader) : fail (snd (ReadBytes r)) = fail r.
Proof.
  unfold ReadBytes. now destruct (splitLine (data r)) as [[l rest]|].
Qed.

(** ** The loop *)

Section Loop.

Variable ct : CustomTree.

Lemma nonblank_nonempty (line : bytes) :
  (length (TrimSpace line) =? 0)%nat = false -> (length line =? 0)%nat = false.
Proof. destruct line; [discriminate | reflexivity]. Qed.

(** What [readLine] leaves of a frame: only [depth] and [name] change. *)
Lemma readLine_keeps (f f1 : Frame) (r r1 : Reader) line err :
  readLine ct f r = (f1, line, err, r1) ->
  heap f1 = heap f /\ dir f1 = dir f /\ glob f1 = glob f
  /\ prevName f1 = prevName f /\ prevDepth f1 = prevDepth f.
Proof.
  unfold readLine. destruct (ReadBytes r) as [[l e] r'].
  destruct (length (TrimSpace l) =? 0)%nat.
  - intros H. injection H as <- _ _ _. tauto.
  - destruct (ct (TrimRightSpace l)) as [[d n] e'].
    intros H. injection H as <- _ _ _. simpl. tauto.
Qed.

(** Either the line was blank, and then [readLine] reports [io.EOF]
    with the rest of the stream discarded, or it was not, and the stream
    got shorter. *)
Lemma readLine_cases (f f1 : Frame) (r r1 : Reader) line err :
  readLine ct f r = (f1, line, err, r1) ->
  (line = [] /\ err = Some EOF /\ f1 = f /\ data r1 = [])
  \/ ((length line =? 0)%nat = false
      /\ (length (data r1) < length (data r))%nat).
Proof.
  unfold readLine. pose proof (ReadBytes_length r) as L.
  destruct (ReadBytes r) as [[l e] r'].
  destruct (length (TrimSpace l) =? 0)%nat eqn:B.
  - intros H. injection H as <- <- <- <-. left. tauto.
  - destruct (ct (TrimRightSpace l)) as [[d n] e'].
    intros H. injection H as _ <- _ <-. right.
    apply nonblank_nonempty in B. split; [exact B|].
    apply Nat.eqb_neq in B. lia.
Qed.

Lemma iteration_next (f f' : Frame) (r r' : Reader) :
  iteration ct f r = StepNext f' r' ->
  (length (data r') < length (data r))%nat.
Proof.
  unfold iteration. destruct (readLine ct f r) as [[[f1 line] err] r1] eqn:R.
  destruct (insertPrev f1) as [f2|]; [|discriminate].
  destruct (readLine_cases _ _ _ _ _ _ R) as [(-> & _)|[B L]].
  - discriminate.
  - rewrite B. intros H. now injection H as _ <-.
Qed.

(** The loop only returns on a blank line or at the end of the stream,
    and then without an error and with the stream drained. *)
Lemma iteration_return (f f2 : Frame) (r r' : Reader) err :
  iteration ct f r = StepReturn f2 err r' ->
  err = None /\ data r' = [].
Proof.
  unfold iteration. destruct (readLine ct f r) as [[[f1 line] e] r1] eqn:R.
  destruct (insertPrev f1) as [f3|]; [|discriminate].
  destruct (readLine_cases _ _ _ _ _ _ R) as [(-> & -> & _ & D)|[B L]].
  - simpl. intros H. injection H as _ <- <-. now split.
  - rewrite B. discriminate.
Qed.

Lemma loop_enough_fuel (fs : Directory) :
  forall fuel f r, (length (data r) < fuel)%nat ->
                   loop fuel ct fs f r <> OutOfFuel.
Proof.
  induction fuel as [|fuel IH]; intros f r Hlt; [lia|].
  cbn [loop]. destruct (iteration ct f r) as [|f2 err r1|f' r1] eqn:I;
    try discriminate.
  apply IH. apply iteration_next in I. lia.
Qed.

Lemma loop_more_fuel (fs : Directory) :
  forall fuel fuel' f r,
    (fuel <= fuel')%nat -> loop fuel ct fs f r <> OutOfFuel ->
    loop fuel' ct fs f r = loop fuel ct fs f r.
Proof.
  induction fuel as [|fuel IH]; intros fuel' f r Hle H; [now elim H|].
  destruct fuel' as [|fuel']; [lia|]. cbn [loop] in H |- *.
  destruct (iteration ct f r) as [|f2 err r1|f' r1]; try reflexivity.
  apply IH; [lia | exact H].
Qed.

(** Whatever the parser or the stream reported on the way, a return of
    the loop carries no error. *)
Lemma loop_returns_nil (fs : Directory) :
  forall fuel f r h fs' err rest,
    loop fuel ct fs f r = Return h fs' err rest ->
    err = None /\ fs' = fs /\ data rest = [].
Proof.
  induction fuel as [|fuel IH]; intros f r h fs' err rest H; [discriminate|].
  cbn [loop] in H. destruct (iteration ct f r) as [|f2 e r1|f' r1] eqn:I;
    try discriminate.
  - injection H as _ <- <- <-. apply iteration_return in I as [-> D].
    now repeat split.
  - now apply IH in H.
Qed.

Lemma iteration_fail (f : Frame) (r : Reader) :
  match iteration ct f r with
  | StepPanic => True
  | StepReturn _ _ r' | StepNext _ r' => fail r' = fail r
  end.
Proof.
  unfold iteration, readLine. pose proof (ReadBytes_fail r) as F.
  destruct (ReadBytes r) as [[l e] r1]. simpl in F.
  destruct (length (TrimSpace l) =? 0)%nat.
  - destruct (insertPrev f); [|exact I]. simpl. exact F.
  - destruct (ct (TrimRightSpace l)) as [[d n] e'].
    destruct (insertPrev _); [|exact I].
    destruct (length l =? 0)%nat; exact F.
Qed.

Lemma loop_fail (fs : Directory) :
  forall fuel f r h fs' err rest,
    loop fuel ct fs f r = Return h fs' err rest -> fail rest = fail r.
Proof.
  induction fuel as [|fuel IH]; intros f r h fs' err rest H; [discriminate|].
  cbn [loop] in H. pose proof (iteration_fail f r) as F.
  destruct (iteration ct f r) as [|f2 e r1|f' r1]; try discriminate.
  - now injection H as _ _ _ <-.
  - rewrite <- F. now apply IH in H.
Qed.

End Loop.

(** X13.  [Tree] always comes back, with a result or a panic: every
    iteration that goes round again has consumed at least one byte of
    the stream, so the [for] loop cannot run forever. *)
Theorem Tree_terminates (c : Collab) (ct : CustomTree) (r : Reader) :
  Tree c ct r <> OutOfFuel.
Proof.
  unfold Tree. cbn [alloc]. destruct (ReadBytes r) as [[line err] r1].
  destruct ((length line =? 0)%nat || is_EOF err); [discriminate|].
  destruct err; [discriminate|].
  destruct (root c _ _ line r1) as [out|[h1 d]] eqn:R.
  - unfold root in R.
    destruct (negb (length line =? 1)%nat || negb (Byte.eqb (nth 0 line x00) x2e));
      [|discriminate].
    destruct (MkdirAll c _ _ _) as [h1 [e|]]; [injection R as <-; discriminate|].
    destruct (lookup c h1 _ _) as [d [e|]]; [injection R as <-; discriminate|].
    discriminate.
  - apply loop_enough_fuel. lia.
Qed.

(** ** The first line *)

(** C8.  When the stream is empty, or when its first read ends in
    [io.EOF], [Tree] returns [io.ErrUnexpectedEOF]: it does not panic and
    it does not succeed (the result beside the error is the top-level
    directory as it was created, empty). *)
Theorem Tree_unexpected_EOF (c : Collab) (ct : CustomTree) (r : Reader) :
  data r = [] \/ snd (fst (ReadBytes r)) = Some EOF ->
  Tree c ct r
  = Return [[]] 0%nat (Some ErrUnexpectedEOF) (mkReader [] (fail r)).
Proof.
  intros H. unfold Tree, ReadBytes in *. cbn [alloc length app].
  destruct (splitLine (data r)) as [[l rest]|] eqn:E.
  - destruct H as [H|H]; [rewrite H in E; discriminate | discriminate].
  - cbn [fst snd] in H. destruct H as [H|H].
    + rewrite H. reflexivity.
    + injection H as ->. cbn [is_EOF]. now rewrite orb_true_r.
Qed.

Lemma Tree_unexpected_EOF_witness :
  Tree Memfs.fs Unix (NewReader [])
  = Return [[]] 0%nat (Some ErrUnexpectedEOF) (mkReader [] EOF).
Proof.
  apply (Tree_unexpected_EOF Memfs.fs Unix (NewReader [])).
  left. reflexivity.
Defined.

(** C10.  On a buffer without any newline, [Tree] returns
    [io.ErrUnexpectedEOF], also when the buffer is a well-formed root
    line such as a single dot: the first read then delivers the bytes
    together with [io.EOF], which line 83 treats like an empty read. *)
Theorem Tree_no_newline (c : Collab) (ct : CustomTree) (p : bytes) :
  ~ In x0a p ->
  Tree c ct (NewReader p)
  = Return [[]] 0%nat (Some ErrUnexpectedEOF) (mkReader [] EOF).
Proof.
  intros H. apply splitLine_none in H.
  unfold Tree, ReadBytes, NewReader. cbn [alloc length app data fail].
  rewrite H. cbn [is_EOF]. now rewrite orb_true_r.
Qed.

Lemma Tree_no_newline_witness :
  ~ In x0a (lit ".")
  /\ UnixTree Memfs.fs (lit ".")
     = Return [[]] 0%nat (Some ErrUnexpectedEOF) (mkReader [] EOF).
Proof.
  assert (N : ~ In x0a (lit ".")) by (intros [H|[]]; discriminate).
  split; [exact N|]. exact (Tree_no_newline Memfs.fs Unix (lit ".") N).
Defined.

(** A line that [ReadBytes] delivered without an error ends in a newline,
    so the test of line 90 for the one-byte line [.] never fails: every
    root line takes the path branch. *)
Lemma root_guard (r r1 : Reader) (line : bytes) :
  ReadBytes r = (line, None, r1) ->
  negb (length line =? 1)%nat || negb (Byte.eqb (nth 0 line x00) x2e) = true.
Proof.
  unfold ReadBytes. destruct (splitLine (data r)) as [[l rest]|] eqn:E;
    [|discriminate].
  intros H. injection H as <- _. apply splitLine_some in E as [_ [l0 [-> N]]].
  destruct l0 as [|a [|b l0]]; reflexivity.
Qed.

(** The root, for any collaborator: the trimmed first line goes through
    [MkdirAll] and [lookup]; an error of either is returned at once;
    otherwise the loop starts from the directory [lookup] gave. *)
Lemma Tree_root (c : Collab) (ct : CustomTree) (r r1 : Reader) (line : bytes) :
  ReadBytes r = (line, None, r1) ->
  let p := TrimSpace line in
  let top := 0%nat in
  match MkdirAll c [[]] top p with
  | (h1, Some e) => Tree c ct r = Return h1 top (Some e) r1
  | (h1, None) =>
      match lookup c h1 top p with
      | (_, Some e) => Tree c ct r = Return h1 top (Some e) r1
      | (d, None) =>
          Tree c ct r = loop (S (length (data r1))) ct top (start h1 d) r1
      end
  end.
Proof.
  intros R. pose proof (root_guard r r1 line R) as G.
  assert (L : (length line =? 0)%nat = false).
  { unfold ReadBytes in R. destruct (splitLine (data r)) as [[l rest]|] eqn:E;
      [|discriminate].
    injection R as <- _. apply splitLine_some in E as [_ [l0 [-> _]]].
    rewrite length_app. simpl. apply Nat.eqb_neq. lia. }
  unfold Tree. cbn [alloc length app]. rewrite R, L. cbn [orb is_EOF].
  unfold root. rewrite G. unfold FromSlash.
  destruct (MkdirAll c [[]] 0%nat (TrimSpace line)) as [h1 [e|]]; [reflexivity|].
  destruct (lookup c h1 0%nat (TrimSpace line)) as [d [e|]]; reflexivity.
Qed.

(** C4.  The first line determines the root.  Its trimmed text is
    handed as a path to [MkdirAll], on the empty tree, and then to
    [lookup]; an error of either ends the build with that error, and
    otherwise the loop starts in the directory [lookup] returned.  A
    first line that is a dot takes the same way (the test of line 90
    never fails), so its root is the directory the collaborator gives
    for the path [.]; with a collaborator that takes [.] for the
    top-level directory, the root is the top-level directory of the
    tree, still empty. *)
Theorem Tree_first_line (c : Collab) (ct : CustomTree) (r r1 : Reader)
    (line : bytes) :
  ReadBytes r = (line, None, r1) ->
  (TrimSpace line = [x2e] -> resolves_dot c ->
   Tree c ct r = run ct 0%nat (start [[]] 0%nat) r1)
  /\ match MkdirAll c [[]] 0%nat (FromSlash (TrimSpace line)) with
     | (h1, Some e) => Tree c ct r = Return h1 0%nat (Some e) r1
     | (h1, None) =>
         match lookup c h1 0%nat (FromSlash (TrimSpace line)) with
         | (_, Some e) => Tree c ct r = Return h1 0%nat (Some e) r1
         | (d, None) => Tree c ct r = run ct 0%nat (start h1 d) r1
         end
     end.
Proof.
  intros R. pose proof (Tree_root c ct r r1 line R) as T. cbv zeta in T.
  unfold FromSlash, run. split; [|exact T].
  intros Hdot Hc. rewrite Hdot in T.
  destruct (Hc [[]] 0%nat) as [M K]. now rewrite M, K in T.
Qed.

Lemma Tree_first_line_witness :
  resolves_dot Memfs.dotfs
  /\ Tree Memfs.dotfs Tab (NewReader (lit "." ++ [x0a] ++ lit "file" ++ [x0a]))
     = run Tab 0%nat (start [[]] 0%nat) (mkReader (lit "file" ++ [x0a]) EOF)
  /\ result (TabTree Memfs.dotfs (lit "." ++ [x0a] ++ lit "file" ++ [x0a]))
     = Some (SDir [(lit "file", SFile)], None).
Proof.
  assert (Hc : resolves_dot Memfs.dotfs) by (intros h top; split; reflexivity).
  split; [exact Hc|]. split; [|vm_compute; reflexivity].
  exact (proj1 (Tree_first_line Memfs.dotfs Tab
                  (NewReader (lit "." ++ [x0a] ++ lit "file" ++ [x0a]))
                  (mkReader (lit "file" ++ [x0a]) EOF)
                  (lit "." ++ [x0a]) eq_refl)
               eq_refl Hc).
Defined.

(** No error of the body of the input reaches the caller: once the root
    is set up, [Tree] panics or returns [nil]. *)
Lemma Tree_body_never_fails (c : Collab) (ct : CustomTree) (r r1 : Reader)
    (line : bytes) (h1 : Heap) (d : Directory) :
  ReadBytes r = (line, None, r1) ->
  MkdirAll c [[]] 0%nat (TrimSpace line) = (h1, None) ->
  lookup c h1 0%nat (TrimSpace line) = (d, None) ->
  Tree c ct r = Panic
  \/ exists h, Tree c ct r = Return h 0%nat None (mkReader [] (fail r)).
Proof.
  intros R M K. pose proof (Tree_root c ct r r1 line R) as T.
  cbv zeta in T. rewrite M, K in T. rewrite T.
  pose proof (loop_enough_fuel ct 0%nat (S (length (data r1))) (start h1 d) r1
                ltac:(lia)) as F.
  destruct (loop _ ct 0%nat (start h1 d) r1) as [| |h fs err rest] eqn:E.
  - now left.
  - now elim F.
  - right. pose proof (loop_fail ct 0%nat _ _ _ _ _ _ _ E) as Hf.
    apply loop_returns_nil in E as (-> & -> & D).
    exists h. f_equal. destruct rest as [dt fl]. simpl in *. subst.
    f_equal. rewrite <- (ReadBytes_fail r), R. reflexivity.
Qed.

(** C2.  A syntax error of the line parser and a failure of the stream in
    the body of the input are both lost: the loop goes on after them and
    [Tree] returns a tree and no error. *)
Theorem Tree_swallows_errors :
  (snd (Unix (lit "   weird line")) = Some (ErrSyntax (lit "   weird line"))
   /\ result (UnixTree Memfs.fs
                (lit "." ++ [x0a] ++ lit "   weird line" ++ [x0a]))
      = Some (SDir [(lit ".", SDir [])], None))
  /\ result (Tree Memfs.fs Tab
               (mkReader (lit "." ++ [x0a] ++ lit "a") (ErrRead 5)))
     = Some (SDir [(lit ".", SDir [(lit "a", SFile)])], None).
Proof. repeat split; vm_compute; reflexivity. Qed.

(** ** Directories in the heap *)

Section HeapFacts.

Lemma get_set_same (m : Entries) (k : bytes) (v : Value) :
  get (set m k v) k = Some v.
Proof.
  induction m as [|[k' v'] m IH]; cbn [set get].
  - now rewrite bytes_eqb_refl.
  - destruct (bytes_eqb k' k) eqn:E; cbn [get].
    + now rewrite bytes_eqb_refl.
    + now rewrite E.
Qed.

Lemma get_set_other (m : Entries) (k k' : bytes) (v : Value) :
  k <> k' -> get (set m k v) k' = get m k'.
Proof.
  intros N. induction m as [|[k0 v0] m IH]; cbn [set get].
  - destruct (bytes_eqb k k') eqn:E; [|reflexivity].
    apply bytes_eqb_eq in E. contradiction.
  - destruct (bytes_eqb k0 k) eqn:E; cbn [get].
    + apply bytes_eqb_eq in E. subst k0.
      destruct (bytes_eqb k k') eqn:E'; [|reflexivity].
      apply bytes_eqb_eq in E'. contradiction.
    + now rewrite IH.
Qed.

Lemma length_update (h : Heap) (d : Directory) f :
  length (update h d f) = length h.
Proof.
  revert d. induction h as [|m h IH]; intros [|d]; simpl; auto.
Qed.

Lemma entries_update_same (h : Heap) (d : Directory) f :
  (d < length h)%nat -> entries (update h d f) d = f (entries h d).
Proof.
  unfold entries. revert d.
  induction h as [|m h IH]; intros [|d] H; simpl in *; try lia; auto.
  apply IH. lia.
Qed.

Lemma entries_update_other (h : Heap) (d d' : Directory) f :
  d <> d' -> entries (update h d f) d' = entries h d'.
Proof.
  unfold entries. revert d d'.
  induction h as [|m h IH]; intros [|d] [|d'] H; simpl; auto; try congruence.
Qed.

Lemma entries_alloc_old (h : Heap) (d : Directory) :
  (d < length h)%nat -> entries (snd (alloc h)) d = entries h d.
Proof. intros H. unfold entries, alloc. simpl. now apply app_nth1. Qed.

Lemma entries_alloc_new (h : Heap) :
  entries (snd (alloc h)) (fst (alloc h)) = [].
Proof.
  unfold entries, alloc. simpl. rewrite app_nth2 by lia.
  now rewrite Nat.sub_diag.
Qed.

(** After [dir[name] = value], in a live directory. *)
Lemma store_get (h : Heap) (dir : Directory) (k : bytes) (v : Value) :
  (dir < length h)%nat -> get (entries (store h dir k v) dir) k = Some v.
Proof.
  intros H. unfold store. rewrite entries_update_same by exact H.
  apply get_set_same.
Qed.

End HeapFacts.

(** ** Trailing slashes *)

Lemma dropSlashes_spec (r : bytes) :
  exists k, r = repeat x2f k ++ dropSlashes r
            /\ HasPrefix (dropSlashes r) [x2f] = false.
Proof.
  induction r as [|a r IH]; [now exists 0%nat|].
  destruct (Byte.byte_eq_dec a x2f) as [->|N].
  - destruct IH as [k [E P]]. exists (S k). cbn [dropSlashes repeat app].
    split; [now rewrite <- E | exact P].
  - exists 0%nat.
    assert (D : dropSlashes (a :: r) = a :: r)
      by (destruct a; try reflexivity; exfalso; apply N; reflexivity).
    rewrite D. split; [reflexivity|].
    cbn [HasPrefix]. now rewrite (proj2 (byte_eqb_neq a x2f) N).
Qed.

Lemma rev_repeat (b : byte) (k : nat) : rev (repeat b k) = repeat b k.
Proof.
  induction k as [|k IH]; [reflexivity|].
  cbn [repeat rev]. rewrite IH. symmetry. apply repeat_cons.
Qed.

(** [bytes.TrimRight(s, "/")] removes the whole run of slashes [s] ends
    with, and nothing else. *)
Lemma TrimRightSlash_spec (s : bytes) :
  exists k, s = TrimRightSlash s ++ repeat x2f k
            /\ HasSuffix (TrimRightSlash s) [x2f] = false
            /\ (HasSuffix s [x2f] = true -> (0 < k)%nat).
Proof.
  destruct (dropSlashes_spec (rev s)) as [k [E P]].
  exists k. unfold TrimRightSlash, HasSuffix. rewrite rev_involutive.
  repeat split.
  - rewrite <- (rev_involutive s) at 1. rewrite E at 1.
    now rewrite rev_app_distr, rev_repeat.
  - exact P.
  - intros H. destruct k; [|lia]. simpl in E. rewrite <- E in P.
    simpl in H. congruence.
Qed.

(** ** Inserting the previous node *)

(** The map write of lines 124-133: under a deeper line a fresh
    directory is stored, otherwise the classified value. *)
Lemma transition_heap (h h' : Heap) (dir dir' : Directory)
    (glob glob' : list Directory) (depth prevDepth : Z) (key : bytes)
    (value : Value) :
  transition h dir glob depth prevDepth key value = Some (h', dir', glob') ->
  h' = if depth >? prevDepth
       then store (snd (alloc h)) dir key (Dir (fst (alloc h)))
       else store h dir key value.
Proof.
  unfold transition. destruct (depth >? prevDepth).
  - cbn [alloc fst snd]. intros H. now injection H as <- _ _.
  - destruct (depth =? prevDepth).
    + intros H. now injection H as <- _ _.
    + destruct (nth_error glob _); [|discriminate].
      intros H. now injection H as <- _ _.
Qed.

Lemma fresh_directory (h : Heap) (dir : Directory) (key : bytes) :
  (dir < length h)%nat ->
  let d := fst (alloc h) in
  let h' := store (snd (alloc h)) dir key (Dir d) in
  get (entries h' dir) key = Some (Dir d)
  /\ entries h' d = [] /\ (length h <= d)%nat.
Proof.
  intros H d h'. subst d h'. cbn [alloc fst snd]. repeat split.
  - apply store_get. rewrite length_app. simpl. lia.
  - unfold store. rewrite entries_update_other by lia.
    apply (entries_alloc_new h).
  - lia.
Qed.

(** C5.  When the buffered node is inserted (its name is not empty and
    the step does not panic): a name ending in a slash is stored, with
    its trailing slashes removed, as a fresh empty directory; any other
    name is stored as a file, unless the line that follows is deeper,
    in which case it is stored as a fresh empty directory. *)
Theorem insertPrev_classifies (f f' : Frame) :
  prevName f <> [] ->
  (dir f < length (heap f))%nat ->
  insertPrev f = Some f' ->
  (HasSuffix (prevName f) [x2f] = true ->
   exists key k d,
     (0 < k)%nat /\ prevName f = key ++ repeat x2f k
     /\ HasSuffix key [x2f] = false
     /\ get (entries (heap f') (dir f)) key = Some (Dir d)
     /\ entries (heap f') d = [] /\ (length (heap f) <= d)%nat)
  /\ (HasSuffix (prevName f) [x2f] = false ->
      if depth f >? prevDepth f
      then exists d,
          get (entries (heap f') (dir f)) (prevName f) = Some (Dir d)
          /\ entries (heap f') d = [] /\ (length (heap f) <= d)%nat
      else get (entries (heap f') (dir f)) (prevName f) = Some File).
Proof.
  intros Hname Hdir. unfold insertPrev.
  destruct (length (prevName f) =? 0)%nat eqn:L.
  { apply Nat.eqb_eq in L. destruct (prevName f); [contradiction | discriminate]. }
  unfold classify. destruct (HasSuffix (prevName f) [x2f]) eqn:Sl.
  - cbn [alloc].
    destruct (transition _ (dir f) (glob f) (depth f) (prevDepth f) _ _)
      as [[[h' dir'] glob']|] eqn:T; [|discriminate].
    intros H. injection H as <-. cbn [heap]. apply transition_heap in T.
    split; [|discriminate]. intros _.
    destruct (TrimRightSlash_spec (prevName f)) as [k (E & P & K)].
    specialize (K Sl).
    assert (Hdir' : (dir f < length (heap f ++ [[]]))%nat)
      by (rewrite length_app; simpl; lia).
    destruct (depth f >? prevDepth f).
    + destruct (fresh_directory (heap f ++ [[]]) (dir f)
                  (TrimRightSlash (prevName f)) Hdir') as (G & En & Le).
      rewrite <- T in G, En. rewrite length_app in Le. simpl in Le.
      exists (TrimRightSlash (prevName f)), k, (fst (alloc (heap f ++ [[]]))).
      split; [exact K|]. split; [exact E|]. split; [exact P|].
      split; [exact G|]. split; [exact En|]. simpl. rewrite length_app.
      simpl. lia.
    + exists (TrimRightSlash (prevName f)), k, (length (heap f)).
      subst h'. split; [exact K|]. split; [exact E|]. split; [exact P|].
      split; [now apply store_get|]. split; [|lia].
      unfold store. rewrite entries_update_other by lia.
      apply (entries_alloc_new (heap f)).
  - destruct (transition _ (dir f) (glob f) (depth f) (prevDepth f) _ _)
      as [[[h' dir'] glob']|] eqn:T; [|discriminate].
    intros H. injection H as <-. cbn [heap]. apply transition_heap in T.
    split; [discriminate|]. intros _.
    destruct (depth f >? prevDepth f).
    + destruct (fresh_directory (heap f) (dir f) (prevName f) Hdir)
        as (G & En & Le).
      rewrite <- T in G, En. eexists. repeat split; eauto.
    + subst h'. now apply store_get.
Qed.

Lemma insertPrev_classifies_witness :
  exists key k d,
    (0 < k)%nat /\ lit "sub/" = key ++ repeat x2f k
    /\ get (entries [[(lit "sub", Dir 1%nat)]; []] 0%nat) key = Some (Dir d).
Proof.
  destruct (insertPrev_classifies
              (mkFrame [[]] 0%nat [0%nat] (lit "b") (lit "sub/") 0 0)
              (mkFrame [[(lit "sub", Dir 1%nat)]; []] 0%nat [0%nat]
                       (lit "b") (lit "sub/") 0 0)
              ltac:(discriminate) ltac:(simpl; lia) eq_refl) as [H _].
  destruct (H eq_refl) as (key & k & d & Hk & E & _ & G & _).
  exists key, k, d. repeat split; assumption.
Defined.

(** ** The depth-delta fold *)

Lemma max_Zmax (i j : Z) : max i j = Z.max i j.
Proof. unfold max. destruct (i >? j) eqn:E; lia. Qed.

Lemma wrap_small (z : Z) : int z -> wrap z = z.
Proof.
  unfold int, wrap. intros H. rewrite Z.mod_small; lia.
Qed.

Lemma wrap_sub (a c : Z) : wrap (wrap a - c) = wrap (a - c).
Proof.
  unfold wrap. f_equal.
  replace ((a + 2 ^ 63) mod 2 ^ 64 - 2 ^ 63 - c + 2 ^ 63)
    with ((a + 2 ^ 63) mod 2 ^ 64 - c) by lia.
  rewrite Zminus_mod_idemp_l. f_equal. lia.
Qed.

Lemma nth_error_cut {A : Type} (l : list A) (n : nat) (g : A) :
  nth_error l n = Some g ->
  l = firstn n l ++ g :: skipn (S n) l /\ length (firstn n l) = n.
Proof.
  revert n. induction l as [|a l IH]; intros [|n] H; try discriminate.
  - injection H as ->. now split.
  - cbn [nth_error] in H. destruct (IH n H) as [E L].
    split.
    + change (skipn (S (S n)) (a :: l)) with (skipn (S n) l).
      cbn [firstn app]. f_equal. exact E.
    + cbn [firstn length]. now rewrite L.
Qed.

(** The index the ascent computes, when nothing overflows. *)
Lemma ascent_index (len depth prevDepth : Z) :
  0 <= depth < prevDepth -> int prevDepth -> 0 <= len -> int len ->
  max (wrap (wrap (len + depth) - prevDepth)) 0
  = Z.max (len - (prevDepth - depth)) 0.
Proof.
  unfold int. intros D P L0 L. rewrite max_Zmax, wrap_sub, wrap_small.
  - f_equal. lia.
  - unfold int. lia.
Qed.

(** C1, as the code has it.  With a buffered node, the classified key
    and value, and depths that are non-negative [int]s:
    - a deeper line stores a fresh empty directory under the key in the
      current directory, pushes the current directory and makes the
      fresh directory current;
    - a line of the same depth stores the value, stack and current
      directory unchanged;
    - a shallower line, on a stack that is not empty, stores the value,
      cuts the stack down to its first
      [n = max (len - (prevDepth - depth)) 0] entries and makes the entry
      that stood at index [n], the lowest one popped, the current
      directory. *)
Theorem insertPrev_fold (f : Frame) :
  prevName f <> [] ->
  let '(key, value, h) := classify (heap f) (prevName f) in
  let keep h' dir' glob' :=
    mkFrame h' dir' glob' (name f) (prevName f) (depth f) (prevDepth f) in
  (prevDepth f < depth f ->
   let d := fst (alloc h) in
   entries (snd (alloc h)) d = []
   /\ insertPrev f
      = Some (keep (store (snd (alloc h)) (dir f) key (Dir d)) d
                   (glob f ++ [dir f])))
  /\ (depth f = prevDepth f ->
      insertPrev f = Some (keep (store h (dir f) key value) (dir f) (glob f)))
  /\ (0 <= depth f < prevDepth f -> int (prevDepth f) ->
      int (Z.of_nat (length (glob f))) -> glob f <> [] ->
      let n := Z.to_nat
                 (Z.max (Z.of_nat (length (glob f))
                         - (prevDepth f - depth f)) 0) in
      exists g popped,
        glob f = firstn n (glob f) ++ g :: popped
        /\ length (firstn n (glob f)) = n
        /\ insertPrev f
           = Some (keep (store h (dir f) key value) g (firstn n (glob f)))).
Proof.
  intros Hname.
  assert (L : (length (prevName f) =? 0)%nat = false).
  { apply Nat.eqb_neq. destruct (prevName f); [contradiction | discriminate]. }
  unfold insertPrev. rewrite L.
  destruct (classify (heap f) (prevName f)) as [[key value] h].
  cbv zeta. unfold transition. split; [|split].
  - intros H. rewrite (proj2 (Z.gtb_lt _ _) H). cbn [alloc fst snd].
    split; [apply (entries_alloc_new h) | reflexivity].
  - intros H. rewrite H.
    destruct (prevDepth f >? prevDepth f) eqn:E; [lia|].
    now rewrite Z.eqb_refl.
  - intros D P Len Hne.
    destruct (depth f >? prevDepth f) eqn:E; [lia|].
    destruct (depth f =? prevDepth f) eqn:E'; [lia|].
    rewrite ascent_index by (auto; lia).
    set (n := Z.to_nat _).
    assert (Hn : (n < length (glob f))%nat).
    { subst n. destruct (glob f); [contradiction|]. simpl length in *. lia. }
    destruct (nth_error (glob f) n) as [g|] eqn:N.
    + destruct (nth_error_cut _ _ _ N) as [Cut Lf].
      exists g, (skipn (S n) (glob f)). repeat split; auto.
    + apply nth_error_None in N. lia.
Qed.

Lemma insertPrev_fold_witness :
  exists g popped,
    [0; 0; 1]%nat = [0; 0]%nat ++ g :: popped
    /\ insertPrev (mkFrame [[]; []; []] 2%nat [0; 0; 1]%nat
                           (lit "d") (lit "c") 1 2)
       = Some (mkFrame [[]; []; [(lit "c", File)]] g [0; 0]%nat
                       (lit "d") (lit "c") 1 2).
Proof.
  pose proof (insertPrev_fold
                (mkFrame [[]; []; []] 2%nat [0; 0; 1]%nat
                         (lit "d") (lit "c") 1 2)
                ltac:(discriminate)) as H.
  destruct H as (_ & _ & H).
  destruct (H ltac:(simpl; lia) ltac:(unfold int; simpl; lia)
              ltac:(unfold int; simpl; lia) ltac:(discriminate))
    as (g & popped & Cut & _ & I).
  exists g, popped. split; [exact Cut | exact I].
Defined.

(** C1 as the specification words it fails: the input below is
    well-formed, and when its last line ascends from depth 2 to depth 1
    the stack is cut from [0; 0; 1] to [0; 0] while directory 1, the one
    just popped, becomes current; the top of the stack is then the root
    0, not the current directory. *)
Lemma ascent_not_to_top :
  exists f f',
    nth_error
      (inserts 5 Tab (start [[]] 0%nat)
         (NewReader (lit "a" ++ [x0a] ++ [x09] ++ lit "b" ++ [x0a]
                     ++ [x09; x09] ++ lit "c" ++ [x0a]
                     ++ [x09] ++ lit "d" ++ [x0a]))) 3
    = Some (f, Some f')
    /\ depth f < prevDepth f
    /\ glob f = [0; 0; 1]%nat /\ dir f = 2%nat
    /\ glob f' = [0; 0]%nat /\ dir f' = 1%nat
    /\ top (glob f') <> Some (dir f').
Proof.
  remember (nth_error _ 3) as step eqn:E. vm_compute in E. subst step.
  eexists. eexists. split; [reflexivity|].
  repeat split; try reflexivity. discriminate.
Qed.

(** ** The ancestor stack *)

Lemma stack_ok_ext (root : Directory) (f f' : Frame) :
  glob f' = glob f -> dir f' = dir f -> stack_ok root f -> stack_ok root f'.
Proof. unfold stack_ok. intros -> ->. tauto. Qed.

Lemma transition_stack_ok (root : Directory) (h h' : Heap)
    (dir dir' : Directory) (glob glob' : list Directory) (depth prevDepth : Z)
    (key : bytes) (value : Value) :
  (glob = [] /\ dir = root) \/ (exists tl, glob = root :: tl) ->
  transition h dir glob depth prevDepth key value = Some (h', dir', glob') ->
  (glob' = [] /\ dir' = root) \/ (exists tl, glob' = root :: tl).
Proof.
  intros Inv. unfold transition. destruct (depth >? prevDepth).
  - cbn [alloc]. intros H. injection H as _ <- <-. right.
    destruct Inv as [[-> ->]|[tl ->]]; [now exists [] | now exists (tl ++ [dir])].
  - destruct (depth =? prevDepth).
    + intros H. injection H as _ <- <-. exact Inv.
    + destruct (nth_error glob _) as [g|] eqn:N; [|discriminate].
      intros H. injection H as _ <- <-.
      destruct Inv as [[-> _]|[tl ->]].
      * now destruct (Z.to_nat _).
      * destruct (Z.to_nat _) as [|m].
        -- left. injection N as ->. now split.
        -- right. now exists (firstn m tl).
Qed.

Lemma insertPrev_stack_ok (root : Directory) (f f' : Frame) :
  stack_ok root f -> insertPrev f = Some f' -> stack_ok root f'.
Proof.
  intros Inv. unfold insertPrev. destruct (length (prevName f) =? 0)%nat.
  - intros H. now injection H as <-.
  - destruct (classify (heap f) (prevName f)) as [[key value] h].
    destruct (transition h (dir f) (glob f) (depth f) (prevDepth f) key value)
      as [[[h' dir'] glob']|] eqn:T; [|discriminate].
    intros H. injection H as <-.
    exact (transition_stack_ok root _ _ _ _ _ _ _ _ _ _ Inv T).
Qed.

Lemma iteration_stack_ok (ct : CustomTree) (root : Directory) (f : Frame)
    (r : Reader) :
  stack_ok root f ->
  match iteration ct f r with
  | StepPanic => True
  | StepReturn f' _ _ | StepNext f' _ => stack_ok root f'
  end.
Proof.
  intros Inv. unfold iteration.
  destruct (readLine ct f r) as [[[f1 line] err] r1] eqn:R.
  apply readLine_keeps in R as (_ & Hd & Hg & _).
  assert (Inv1 : stack_ok root f1) by exact (stack_ok_ext root f f1 Hg Hd Inv).
  destruct (insertPrev f1) as [f2|] eqn:I; [|exact Logic.I].
  apply (insertPrev_stack_ok root) in I; [|exact Inv1].
  destruct (length line =? 0)%nat; [exact I|].
  exact (stack_ok_ext root f2 (advance f2) eq_refl eq_refl I).
Qed.

Lemma frames_stack_ok (ct : CustomTree) (root : Directory) :
  forall fuel f r, stack_ok root f -> Forall (stack_ok root) (frames fuel ct f r).
Proof.
  induction fuel as [|fuel IH]; intros f r Inv; cbn [frames].
  - constructor; [exact Inv | constructor].
  - constructor; [exact Inv|].
    pose proof (iteration_stack_ok ct root f r Inv) as Step.
    destruct (iteration ct f r) as [|f2 err r1|f' r1].
    + constructor.
    + constructor; [exact Step | constructor].
    + now apply IH.
Qed.

(** On a step that descends by one level at most, from a stack one
    longer than the previous depth, nothing panics and the stack is one
    longer than the new depth: on inputs indented regularly the stack
    never runs empty. *)
Lemma insertPrev_regular (f : Frame) :
  prevName f <> [] ->
  Z.of_nat (length (glob f)) = prevDepth f + 1 ->
  0 <= depth f <= prevDepth f + 1 ->
  int (prevDepth f + 1) ->
  exists f', insertPrev f = Some f'
             /\ Z.of_nat (length (glob f')) = depth f + 1.
Proof.
  intros Hname Hlen Hd Hint. unfold int in Hint.
  assert (L : (length (prevName f) =? 0)%nat = false).
  { apply Nat.eqb_neq. destruct (prevName f); [contradiction | discriminate]. }
  unfold insertPrev. rewrite L.
  destruct (classify (heap f) (prevName f)) as [[key value] h].
  unfold transition.
  destruct (depth f >? prevDepth f) eqn:Gt.
  - cbn [alloc]. eexists. split; [reflexivity|]. cbn [glob].
    rewrite length_app. simpl. lia.
  - destruct (depth f =? prevDepth f) eqn:Eq.
    + eexists. split; [reflexivity|]. cbn [glob]. lia.
    + rewrite ascent_index by (unfold int; lia).
      set (n := Z.to_nat _).
      destruct (nth_error (glob f) n) as [g|] eqn:N.
      * destruct (nth_error_cut _ _ _ N) as [_ Lf].
        eexists. split; [reflexivity|]. cbn [glob]. rewrite Lf. subst n. lia.
      * apply nth_error_None in N. subst n. lia.
Qed.

Lemma insertPrev_keeps (f f' : Frame) :
  insertPrev f = Some f' ->
  name f' = name f /\ prevName f' = prevName f
  /\ depth f' = depth f /\ prevDepth f' = prevDepth f.
Proof.
  unfold insertPrev. destruct (length (prevName f) =? 0)%nat.
  - intros H. injection H as <-. tauto.
  - destruct (classify (heap f) (prevName f)) as [[key value] h].
    destruct (transition _ _ _ _ _ _ _) as [[[h' dir'] glob']|]; [|discriminate].
    intros H. injection H as <-. simpl. tauto.
Qed.

Lemma frames_regular (ct : CustomTree) :
  forall fuel f r,
    full_stack f ->
    Forall (fun s => regular_step (fst s)) (inserts fuel ct f r) ->
    Forall (fun f' => (1 <= length (glob f'))%nat) (frames fuel ct f r)
    /\ Forall (fun s => snd s <> None) (inserts fuel ct f r).
Proof.
  induction fuel as [|fuel IH]; intros f r [J J0] Hreg.
  - cbn [frames inserts]. split; constructor; [lia | constructor].
  - cbn [frames inserts] in Hreg |- *. unfold iteration in Hreg |- *.
    destruct (readLine ct f r) as [[[f1 line] err] r1] eqn:R.
    apply readLine_keeps in R as (_ & _ & Hg & Hn & Hp).
    inversion Hreg as [|? ? (Hskip & Hd & Hint) Hrest]; subst.
    cbn [fst] in Hskip, Hd, Hint.
    assert (I : exists f2, insertPrev f1 = Some f2
                           /\ Z.of_nat (length (glob f2)) = depth f1 + 1).
    { destruct (prevName f1) as [|b p] eqn:P.
      - exists f1. split.
        + unfold insertPrev. now rewrite P.
        + rewrite Hg, (Hskip eq_refl), Hp. exact J.
      - apply insertPrev_regular; try assumption.
        + rewrite P. discriminate.
        + now rewrite Hg, Hp. }
    destruct I as (f2 & I & Lf). rewrite I in Hrest |- *.
    destruct (insertPrev_keeps _ _ I) as (_ & _ & Hd2 & _).
    destruct (length line =? 0)%nat.
    + split.
      * constructor; [lia|]. constructor; [lia | constructor].
      * constructor; [discriminate | constructor].
    + destruct (IH (advance f2) r1) as [F S].
      * split; cbn [advance glob prevDepth]; lia.
      * exact Hrest.
      * split; constructor; try assumption; [lia | discriminate].
Qed.

(** ** The stack and the chain of ancestors *)

Lemma chain_prefix (h : Heap) (l1 l2 : list Directory) :
  chain h (l1 ++ l2) -> chain h l1.
Proof.
  induction l1 as [|p l1 IH]; [constructor|].
  cbn [app chain]. intros [C T]. split; [|now apply IH].
  destruct l1 as [|d l1]; [exact I | exact C].
Qed.

Lemma chain_suffix (h : Heap) (l1 l2 : list Directory) :
  chain h (l1 ++ l2) -> chain h l2.
Proof.
  induction l1 as [|p l1 IH]; [trivial|].
  cbn [app chain]. intros [_ T]. now apply IH.
Qed.

(** Along a chain the directories grow: all are below its last one. *)
Lemma chain_below (h : Heap) (l : list Directory) (D : Directory) :
  chain h (l ++ [D]) -> Forall (fun p => (p < D)%nat) l.
Proof.
  induction l as [|p l IH]; [constructor|].
  cbn [app chain]. intros [C T]. specialize (IH T).
  constructor; [|exact IH].
  destruct l as [|d l]; cbn [app] in C.
  - exact (proj1 C).
  - inversion IH; subst. destruct C as [C _]. lia.
Qed.

(** A chain depends on the contents of all its directories but the
    last. *)
Lemma chain_frame (h h' : Heap) (l : list Directory) (D : Directory) :
  (forall p, In p l -> entries h' p = entries h p) ->
  chain h (l ++ [D]) -> chain h' (l ++ [D]).
Proof.
  induction l as [|p l IH]; intros E; [trivial|].
  cbn [app chain]. intros [C T]. split.
  - destruct (l ++ [D]) as [|d tl]; [exact I|].
    destruct C as [Lt [k G]]. split; [exact Lt|]. exists k.
    rewrite (E p (or_introl eq_refl)). exact G.
  - apply IH; [|exact T]. intros q Hq. apply E. now right.
Qed.

Lemma chain_snoc (h : Heap) (l : list Directory) (D d : Directory) :
  chain h (l ++ [D]) -> child h D d -> chain h ((l ++ [D]) ++ [d]).
Proof.
  intros C Hc. induction l as [|p l IH].
  - cbn [app chain]. repeat split; [exact (proj1 Hc) | exact (proj2 Hc)].
  - cbn [app chain] in C |- *. destruct C as [C T]. split; [|now apply IH].
    destruct l as [|q l]; exact C.
Qed.

(** [dir[name] = value], after allocations, keeps the chain that ends
    in [dir]. *)
Lemma chain_store (h ext : Heap) (l : list Directory) (D : Directory)
    (k : bytes) (v : Value) :
  Forall (fun d => (d < length h)%nat) (l ++ [D]) ->
  chain h (l ++ [D]) -> chain (store (h ++ ext) D k v) (l ++ [D]).
Proof.
  intros B C. apply (chain_frame h); [|exact C].
  intros p Hp. pose proof (chain_below h l D C) as Lt.
  pose proof (proj1 (Forall_forall _ _) Lt p Hp) as LtD. cbn beta in LtD.
  pose proof (proj1 (Forall_forall _ _) B p (in_or_app _ _ _ (or_introl Hp)))
    as Bp. cbn beta in Bp.
  unfold store. rewrite entries_update_other by lia.
  unfold entries. now apply app_nth1.
Qed.

Lemma classify_heap (h h' : Heap) (n key : bytes) (value : Value) :
  classify h n = (key, value, h') -> exists ext, h' = h ++ ext.
Proof.
  unfold classify. destruct (HasSuffix n [x2f]); cbn [alloc]; intros E;
    injection E as _ _ <-; [now exists [[]] | exists []; now rewrite app_nil_r].
Qed.

Lemma hd_error_app {A : Type} (l1 l2 : list A) (a : A) :
  hd_error l1 = Some a -> hd_error (l1 ++ l2) = Some a.
Proof. destruct l1; [discriminate | trivial]. Qed.

(** A regular step keeps the chain of ancestors. *)
Lemma insertPrev_ancestry (root : Directory) (f f' : Frame) :
  insertPrev f = Some f' ->
  prevName f <> [] ->
  Z.of_nat (length (glob f)) = prevDepth f + 1 ->
  0 <= depth f <= prevDepth f + 1 ->
  int (prevDepth f + 1) ->
  ancestry root f -> ancestry root f'.
Proof.
  intros Ins Hname Hlen Hd Hint (tl & Hg & Hhd & Hch & Hb). unfold int in Hint.
  assert (L : (length (prevName f) =? 0)%nat = false).
  { apply Nat.eqb_neq. destruct (prevName f); [contradiction | discriminate]. }
  unfold insertPrev in Ins. rewrite L in Ins.
  destruct (classify (heap f) (prevName f)) as [[key value] h0] eqn:C.
  apply classify_heap in C as [ext ->].
  assert (Hdir : (dir f < length (heap f))%nat).
  { apply (proj1 (Forall_forall _ _) Hb). apply in_or_app. right. now left. }
  assert (Hb' : forall e k v,
             Forall (fun d => (d < length (store ((heap f ++ ext) ++ e)
                                             (dir f) k v))%nat)
                    (tl ++ [dir f])).
  { intros e k v. eapply Forall_impl; [|exact Hb]. intros d Hlt. cbn beta in *.
    unfold store. rewrite length_update, !length_app. lia. }
  unfold transition in Ins. destruct (depth f >? prevDepth f) eqn:Gt.
  - cbn [alloc] in Ins. injection Ins as <-. unfold ancestry. cbn [glob heap dir].
    exists (tl ++ [dir f]). rewrite Hg. split; [reflexivity|].
    split; [now apply hd_error_app|]. split.
    + apply chain_snoc.
      * rewrite <- app_assoc. now apply chain_store.
      * split; [rewrite length_app; lia|]. exists key. apply store_get.
        rewrite !length_app. lia.
    + apply Forall_app. split; [apply Hb'|].
      constructor; [|constructor].
      unfold store. rewrite length_update, !length_app. cbn [length]. lia.
  - destruct (depth f =? prevDepth f) eqn:Eq.
    + injection Ins as <-. unfold ancestry. cbn [glob heap dir].
      exists tl. split; [exact Hg|]. split; [exact Hhd|]. split.
      * now apply chain_store.
      * rewrite <- (app_nil_r (heap f ++ ext)). apply Hb'.
    + rewrite ascent_index in Ins by (unfold int; lia).
      rewrite Z.gtb_ltb in Gt. apply Z.ltb_ge in Gt. apply Z.eqb_neq in Eq.
      set (n := Z.to_nat _) in Ins.
      destruct (nth_error (glob f) n) as [g|] eqn:N; [|discriminate].
      injection Ins as <-. unfold ancestry. cbn [glob heap dir].
      assert (Hn : exists m, n = S m).
      { exists (Nat.pred n). subst n. lia. }
      destruct Hn as [m Hn]. rewrite Hn, Hg in N |- *. cbn [nth_error] in N.
      destruct (nth_error_cut _ _ _ N) as [Split _].
      exists (firstn m tl). cbn [firstn]. split; [reflexivity|].
      assert (P : tl ++ [dir f]
                  = (firstn m tl ++ [g]) ++ skipn (S m) tl ++ [dir f]).
      { rewrite Split at 1. now rewrite <- !app_assoc. }
      split; [|split].
      * rewrite P in Hhd. destruct (firstn m tl); exact Hhd.
      * apply (chain_prefix _ _ (skipn (S m) tl ++ [dir f])).
        rewrite <- P. now apply chain_store.
      * pose proof (Hb' [] key value) as B. rewrite app_nil_r in B.
        rewrite P in B. now apply Forall_app in B as [B _].
Qed.

Lemma ancestry_ext (root : Directory) (f f' : Frame) :
  heap f' = heap f -> dir f' = dir f -> glob f' = glob f ->
  ancestry root f -> ancestry root f'.
Proof.
  intros Hh Hd Hg (tl & G & H1 & H2 & H3). exists tl.
  now rewrite Hh, Hd, Hg.
Qed.

(** With one stack entry per level, the chain of ancestors places the
    top of the stack. *)
Lemma ancestry_top (root : Directory) (f : Frame) :
  Z.of_nat (length (glob f)) = depth f + 1 ->
  ancestry root f -> top_parent root f.
Proof.
  intros Hlen (tl & Hg & Hhd & Hch & _). unfold top_parent, top.
  rewrite Hg in Hlen |- *.
  induction tl as [|p tl' _] using rev_ind.
  - exists root. split; [reflexivity|]. left. cbn in Hhd, Hlen.
    injection Hhd as ->. repeat split. lia.
  - exists p. split.
    + cbn [length]. rewrite Nat.sub_succ, Nat.sub_0_r.
      change (root :: tl' ++ [p]) with ((root :: tl') ++ [p]).
      rewrite length_app. cbn [length].
      rewrite nth_error_app2 by (cbn [length]; lia).
      cbn [length]. replace (_ - _)%nat with 0%nat by lia. reflexivity.
    + right. split.
      * cbn [length] in Hlen. rewrite length_app in Hlen. cbn [length] in Hlen.
        lia.
      * rewrite <- app_assoc in Hch. apply chain_suffix in Hch.
        exact (proj1 Hch).
Qed.

Lemma frames_ancestry (ct : CustomTree) (root : Directory) :
  forall fuel f r,
    full_stack f -> depth f = prevDepth f -> ancestry root f ->
    Forall (fun s => regular_step (fst s)) (inserts fuel ct f r) ->
    Forall (fun f' => Z.of_nat (length (glob f')) = depth f' + 1
                      /\ ancestry root f')
           (frames fuel ct f r).
Proof.
  induction fuel as [|fuel IH]; intros f r [J J0] Hd0 Ha Hreg.
  - cbn [frames]. constructor; [|constructor]. split; [lia | exact Ha].
  - cbn [frames inserts] in Hreg |- *.
    constructor; [split; [lia | exact Ha]|].
    unfold iteration in Hreg |- *.
    destruct (readLine ct f r) as [[[f1 line] err] r1] eqn:R.
    apply readLine_keeps in R as (Hh & Hdir & Hg & Hn & Hp).
    inversion Hreg as [|? ? (Hskip & Hd & Hint) Hrest]; subst.
    cbn [fst] in Hskip, Hd, Hint.
    pose proof (ancestry_ext root f f1 Hh Hdir Hg Ha) as Ha1.
    assert (St : exists f2, insertPrev f1 = Some f2
                            /\ Z.of_nat (length (glob f2)) = depth f2 + 1
                            /\ ancestry root f2).
    { destruct (prevName f1) as [|b p] eqn:P.
      - exists f1. split; [unfold insertPrev; now rewrite P|].
        split; [|exact Ha1]. rewrite Hg, (Hskip eq_refl), Hp. exact J.
      - assert (Nn : prevName f1 <> []) by (rewrite P; discriminate).
        assert (Ln : Z.of_nat (length (glob f1)) = prevDepth f1 + 1)
          by now rewrite Hg, Hp.
        destruct (insertPrev_regular f1 Nn Ln Hd Hint) as (f2 & Ins & Lf).
        exists f2. split; [exact Ins|].
        destruct (insertPrev_keeps _ _ Ins) as (_ & _ & Hd2 & _).
        split; [now rewrite Hd2|].
        exact (insertPrev_ancestry root f1 f2 Ins Nn Ln Hd Hint Ha1). }
    destruct St as (f2 & Ins & Lf & Ha2). rewrite Ins in Hrest |- *.
    destruct (length line =? 0)%nat.
    + constructor; [now split | constructor].
    + apply IH; try exact Hrest.
      * destruct (insertPrev_keeps _ _ Ins) as (_ & _ & Hd2 & _).
        split; cbn [advance glob prevDepth]; lia.
      * reflexivity.
      * exact (ancestry_ext root f2 (advance f2) eq_refl eq_refl eq_refl Ha2).
Qed.

(** C3, as the code has it.  When the root has been pushed the stack is
    just the root, and the root is the current directory.  From then on,
    at the head of every iteration and at the return, the stack has the
    root at its bottom, or it is empty and the root is the current
    directory.  On regularly indented input (every line at a depth from
    0 to one more than the depth of the line before it, and a line that
    follows the start or a line the parser returned no name for at the
    depth of that predecessor) the stack has one entry more than the
    depth of the last line, so at least one; its top equals the
    directory being populated only at depth 0, where both are the root;
    at a greater depth the top is the parent of the directory being
    populated: that directory is stored in it. *)
Theorem stack_invariant (ct : CustomTree) (h : Heap) (root : Directory)
    (r : Reader) (fuel : nat) :
  glob (start h root) = [root]
  /\ top (glob (start h root)) = Some (dir (start h root))
  /\ hd_error (frames fuel ct (start h root) r) = Some (start h root)
  /\ Forall (stack_ok root) (frames fuel ct (start h root) r)
  /\ ((root < length h)%nat ->
      Forall (fun s => regular_step (fst s))
             (inserts fuel ct (start h root) r) ->
      Forall (fun f => (1 <= length (glob f))%nat
                       /\ Z.of_nat (length (glob f)) = depth f + 1
                       /\ top_parent root f)
             (frames fuel ct (start h root) r)).
Proof.
  split; [reflexivity|]. split; [reflexivity|]. split; [|split].
  - now destruct fuel.
  - apply frames_stack_ok. right. now exists [].
  - intros Hroot Hreg.
    assert (A : ancestry root (start h root)).
    { exists []. cbn. repeat split; auto. }
    assert (Fs : full_stack (start h root)) by (split; simpl; lia).
    pose proof (frames_ancestry ct root fuel _ r Fs eq_refl A Hreg) as F.
    destruct (frames_regular ct fuel _ r Fs Hreg) as [G _].
    apply Forall_forall. intros f Hf.
    pose proof (proj1 (Forall_forall _ _) F f Hf) as [Lf Af].
    pose proof (proj1 (Forall_forall _ _) G f Hf) as Gf. cbn beta in Gf.
    split; [exact Gf|]. split; [exact Lf|]. now apply ancestry_top.
Qed.

Lemma stack_invariant_witness :
  Forall (fun f => (1 <= length (glob f))%nat
                   /\ Z.of_nat (length (glob f)) = depth f + 1
                   /\ top_parent 0%nat f)
    (frames 5 Tab (start [[]] 0%nat)
       (NewReader (lit "a" ++ [x0a] ++ [x09] ++ lit "b" ++ [x0a]
                   ++ [x09; x09] ++ lit "c" ++ [x0a]
                   ++ [x09] ++ lit "d" ++ [x0a]))).
Proof.
  apply (stack_invariant Tab [[]] 0%nat
           (NewReader (lit "a" ++ [x0a] ++ [x09] ++ lit "b" ++ [x0a]
                       ++ [x09; x09] ++ lit "c" ++ [x0a]
                       ++ [x09] ++ lit "d" ++ [x0a])) 5).
  - simpl. lia.
  - remember (inserts 5 Tab _ _) as steps eqn:E. vm_compute in E. subst steps.
    repeat (constructor;
            [unfold regular_step, int; cbn [fst prevName depth prevDepth];
             repeat split; try discriminate; lia|]).
    constructor.
Defined.

(** C3 as the specification words it fails twice.  On a well-formed
    input the top of the stack is not the current directory once a
    directory has been entered; and an ascent that skips back to depth
    0 from a line two levels deeper than its predecessor leaves the
    stack empty. *)
Lemma stack_claim_fails :
  (exists f,
      nth_error
        (frames 3 Tab (start [[]] 0%nat)
           (NewReader (lit "a" ++ [x0a] ++ [x09] ++ lit "b" ++ [x0a]))) 2
      = Some f
      /\ glob f = [0; 0]%nat /\ dir f = 1%nat
      /\ top (glob f) <> Some (dir f))
  /\ (exists f,
         nth_error
           (frames 4 Tab (start [[]] 0%nat)
              (NewReader (lit "a" ++ [x0a] ++ [x09; x09] ++ lit "b" ++ [x0a]
                          ++ lit "c" ++ [x0a]))) 3
         = Some f
         /\ ~ (1 <= length (glob f))%nat).
Proof.
  split.
  - remember (nth_error _ 2) as fr eqn:E. vm_compute in E. subst fr.
    eexists. split; [reflexivity|]. repeat split; try reflexivity. discriminate.
  - remember (nth_error _ 3) as fr eqn:E. vm_compute in E. subst fr.
    eexists. split; [reflexivity|]. simpl. lia.
Qed.

(** ** Blank lines *)

Lemma at_head_start (h : Heap) (d : Directory) : at_head (start h d).
Proof. now split. Qed.

Lemma at_head_advance (f : Frame) : at_head (advance f).
Proof. now split. Qed.

(** At a blank line, or at the end of the stream, the buffered node is
    inserted as a sibling and the loop returns [nil]; what the stream
    still held is discarded unread. *)
Lemma iteration_blank (ct : CustomTree) (f : Frame) (r : Reader) :
  at_head f ->
  TrimSpace (fst (fst (ReadBytes r))) = [] ->
  exists f2, insertPrev f = Some f2
             /\ iteration ct f r = StepReturn f2 None (mkReader [] (fail r)).
Proof.
  intros [Hd _] B. unfold iteration, readLine.
  pose proof (ReadBytes_fail r) as Fl.
  destruct (ReadBytes r) as [[l e] r1]. cbn [fst snd] in B, Fl.
  rewrite B. cbn [length Nat.eqb].
  assert (I : exists f2, insertPrev f = Some f2).
  { unfold insertPrev. destruct (length (prevName f) =? 0)%nat; [eauto|].
    destruct (classify (heap f) (prevName f)) as [[key value] h].
    unfold transition. rewrite Hd.
    destruct (prevDepth f >? prevDepth f) eqn:E; [lia|].
    rewrite Z.eqb_refl. eauto. }
  destruct I as [f2 I]. exists f2. rewrite I. split; [reflexivity|].
  unfold discard. now rewrite Fl.
Qed.

(** C9.  The input below has a blank line in its body, yet [Tree] does
    not end there successfully: the third body line ascends to stack
    index 0 and leaves the stack empty, and the next ascent, one line
    before the blank one, indexes the empty stack. *)
Theorem Tree_panics_before_blank (c : Collab) (h1 : Heap) (d : Directory) :
  MkdirAll c [[]] 0%nat (lit ".") = (h1, None) ->
  lookup c h1 0%nat (lit ".") = (d, None) ->
  Tree c Tab
    (NewReader (lit "." ++ [x0a] ++ lit "a" ++ [x0a]
                ++ [x09; x09; x09] ++ lit "b" ++ [x0a]
                ++ [x09] ++ lit "c" ++ [x0a] ++ lit "d" ++ [x0a]
                ++ [x0a] ++ lit "e" ++ [x0a]))
  = Panic.
Proof.
  intros M K.
  pose proof (Tree_root c Tab
                (NewReader (lit "." ++ [x0a] ++ lit "a" ++ [x0a]
                            ++ [x09; x09; x09] ++ lit "b" ++ [x0a]
                            ++ [x09] ++ lit "c" ++ [x0a] ++ lit "d" ++ [x0a]
                            ++ [x0a] ++ lit "e" ++ [x0a]))
                (mkReader (lit "a" ++ [x0a]
                           ++ [x09; x09; x09] ++ lit "b" ++ [x0a]
                           ++ [x09] ++ lit "c" ++ [x0a] ++ lit "d" ++ [x0a]
                           ++ [x0a] ++ lit "e" ++ [x0a]) EOF)
                (lit "." ++ [x0a]) eq_refl) as T.
  cbv zeta in T.
  replace (TrimSpace (lit "." ++ [x0a])) with (lit ".") in T
    by (vm_compute; reflexivity).
  rewrite M, K in T. rewrite T. vm_compute. reflexivity.
Qed.

Lemma Tree_panics_before_blank_witness :
  TabTree Memfs.fs
    (lit "." ++ [x0a] ++ lit "a" ++ [x0a]
     ++ [x09; x09; x09] ++ lit "b" ++ [x0a]
     ++ [x09] ++ lit "c" ++ [x0a] ++ lit "d" ++ [x0a]
     ++ [x0a] ++ lit "e" ++ [x0a])
  = Panic.
Proof.
  exact (Tree_panics_before_blank Memfs.fs _ _ eq_refl eq_refl).
Defined.

(** One iteration looks at the stream only through its first line. *)
Lemma iteration_app (ct : CustomTree) (f : Frame) (l0 rest : bytes)
    (e : error) :
  ~ In x0a l0 ->
  iteration ct f (mkReader (l0 ++ x0a :: rest) e)
  = match iteration ct f (mkReader (l0 ++ [x0a]) e) with
    | StepNext f' _ => StepNext f' (mkReader rest e)
    | s => s
    end.
Proof.
  intros N. unfold iteration, readLine, ReadBytes. cbn [data fail].
  rewrite !splitLine_app by exact N.
  destruct (length (TrimSpace (l0 ++ [x0a])) =? 0)%nat.
  - unfold discard. cbn [fail]. destruct (insertPrev f); reflexivity.
  - destruct (ct (TrimRightSpace (l0 ++ [x0a]))) as [[d n] err].
    destruct (insertPrev _); [|reflexivity].
    assert (L : (length (l0 ++ [x0a]) =? 0)%nat = false).
    { apply Nat.eqb_neq. rewrite length_app. simpl. lia. }
    now rewrite L.
Qed.

Lemma run_loop (ct : CustomTree) (fs : Directory) (f : Frame) (r : Reader)
    (fuel : nat) :
  (length (data r) < fuel)%nat -> loop fuel ct fs f r = run ct fs f r.
Proof.
  intros H. unfold run. apply loop_more_fuel; [lia|].
  apply loop_enough_fuel. lia.
Qed.

Lemma run_step (ct : CustomTree) (fs : Directory) (f : Frame) (r : Reader) :
  run ct fs f r
  = match iteration ct f r with
    | StepPanic => Panic
    | StepReturn f2 err r1 => Return (heap f2) fs err r1
    | StepNext f' r1 => run ct fs f' r1
    end.
Proof.
  unfold run at 1. cbn [loop].
  destruct (iteration ct f r) as [|f2 err r1|f' r1] eqn:I; try reflexivity.
  apply run_loop. apply iteration_next in I. lia.
Qed.

(** X10.  What follows a blank line does not matter: the loop comes to
    the same end, with the same heap, whatever the stream holds after
    it. *)
Lemma run_ignores_rest (ct : CustomTree) (fs : Directory) (e : error)
    (blank rest rest' : bytes) :
  ~ In x0a blank -> TrimSpace (blank ++ [x0a]) = [] ->
  forall ls f,
    Forall (fun l => ~ In x0a l) ls ->
    run ct fs f (mkReader (unlines ls ++ blank ++ x0a :: rest) e)
    = run ct fs f (mkReader (unlines ls ++ blank ++ x0a :: rest') e).
Proof.
  intros Nb B. induction ls as [|l ls IH]; intros f Hls.
  - cbn [unlines map concat app]. rewrite !run_step.
    rewrite (iteration_app ct f blank rest e Nb),
      (iteration_app ct f blank rest' e Nb).
    destruct (iteration ct f (mkReader (blank ++ [x0a]) e)) as [| |f' r1] eqn:I;
      try reflexivity.
    exfalso. revert I. unfold iteration, readLine, ReadBytes. cbn [data fail].
    rewrite (splitLine_app blank [] Nb), B. cbn [length Nat.eqb].
    destruct (insertPrev f); discriminate.
  - inversion Hls as [|? ? Nl Hls']; subst.
    unfold unlines in *. cbn [map concat]. rewrite <- !app_assoc.
    cbn [app]. rewrite !run_step.
    rewrite (iteration_app ct f l (_ ++ blank ++ x0a :: rest) e Nl),
      (iteration_app ct f l (_ ++ blank ++ x0a :: rest') e Nl).
    destruct (iteration ct f (mkReader (l ++ [x0a]) e)) as [| |f' r1];
      try reflexivity.
    apply IH, Hls'.
Qed.

(** ** Examples *)

(** The tree of the documentation of [TabTree], under a named root. *)
Example TabTree_doc :
  result (TabTree Memfs.fs
            (lit "a/b" ++ [x0a] ++ lit "dir" ++ [x0a]
             ++ [x09] ++ lit "file.txt"))
  = Some (SDir [(lit "a",
                 SDir [(lit "b",
                        SDir [(lit "dir",
                               SDir [(lit "file.txt", SFile)])])])],
          None).
Proof. vm_compute. reflexivity. Qed.

(** The tree of the documentation of [UnixTree], under a named root. *)
Example UnixTree_doc :
  result (UnixTree Memfs.fs
            (lit "r" ++ [x0a] ++ boxUpRight ++ boxHorizontal ++ boxHorizontal
             ++ lit " dir" ++ [x0a] ++ lit "    " ++ boxUpRight
             ++ boxHorizontal ++ boxHorizontal ++ lit " file.txt"))
  = Some (SDir [(lit "r",
                 SDir [(lit "dir", SDir [(lit "file.txt", SFile)])])],
          None).
Proof. vm_compute. reflexivity. Qed.

(** A blank line ends the build; what follows it is not parsed. *)
Example TabTree_blank :
  result (TabTree Memfs.fs
            (lit "r" ++ [x0a] ++ lit "a" ++ [x0a] ++ [x20; x09; x0a]
             ++ lit "b" ++ [x0a]))
  = Some (SDir [(lit "r", SDir [(lit "a", SFile)])], None).
Proof. vm_compute. reflexivity. Qed.

(** * Further properties *)

(** ** Trimming white space *)

Lemma spaceSeqs_nonempty : Forall (fun q : bytes => q <> []) spaceSeqs.
Proof. repeat constructor; discriminate. Qed.

Lemma spaceSuffix_some (r : bytes) (w : nat) :
  spaceSuffix r = Some w ->
  exists q, In q spaceSeqs /\ w = length q /\ (0 < w)%nat
            /\ r = rev q ++ skipn w r.
Proof.
  unfold spaceSuffix.
  destruct (find (fun q => HasPrefix r (rev q)) spaceSeqs) as [q|] eqn:F;
    [|discriminate].
  intros H. injection H as <-. apply find_some in F as [Hin Hp].
  apply HasPrefix_iff in Hp as [t ->]. exists q.
  split; [exact Hin|]. split; [reflexivity|]. split.
  - pose proof (proj1 (Forall_forall _ _) spaceSeqs_nonempty q Hin) as N.
    destruct q; [contradiction | simpl; lia].
  - f_equal. rewrite <- (length_rev q) at 1.
    rewrite skipn_app, Nat.sub_diag, skipn_all. reflexivity.
Qed.

Lemma spacePrefix_some (s : bytes) (w : nat) :
  spacePrefix s = Some w ->
  exists q, In q spaceSeqs /\ w = length q /\ (0 < w)%nat
            /\ s = q ++ skipn w s.
Proof.
  unfold spacePrefix.
  destruct (find (HasPrefix s) spaceSeqs) as [q|] eqn:F; [|discriminate].
  intros H. injection H as <-. apply find_some in F as [Hin Hp].
  apply HasPrefix_iff in Hp as [t ->]. exists q.
  split; [exact Hin|]. split; [reflexivity|]. split.
  - pose proof (proj1 (Forall_forall _ _) spaceSeqs_nonempty q Hin) as N.
    destruct q; [contradiction | simpl; lia].
  - f_equal. rewrite skipn_app, Nat.sub_diag, skipn_all. reflexivity.
Qed.

(** With fuel for every byte, trimming from the right stops only where
    no white-space rune ends the string. *)
Lemma trimRev_fixed :
  forall n r, (length r <= n)%nat -> spaceSuffix (trimRev_fuel n r) = None.
Proof.
  induction n as [|n IH]; intros r Hn.
  - destruct r; [reflexivity | simpl in Hn; lia].
  - cbn [trimRev_fuel]. destruct (spaceSuffix r) as [w|] eqn:E; [|exact E].
    apply IH. apply spaceSuffix_some in E as (q & _ & _ & Hw & _).
    rewrite length_skipn. lia.
Qed.

Lemma allspace_snoc (s q : bytes) :
  allspace s -> In q spaceSeqs -> allspace (s ++ q).
Proof.
  intros Hs Hin. induction Hs as [|q' s' Hq' Hs' IH].
  - cbn [app]. rewrite <- (app_nil_r q). constructor; [exact Hin | constructor].
  - rewrite <- app_assoc. now constructor.
Qed.

Lemma trimRev_prefix :
  forall n r, exists cut, r = cut ++ trimRev_fuel n r /\ allspace (rev cut).
Proof.
  induction n as [|n IH]; intros r.
  - exists []. split; [reflexivity | constructor].
  - cbn [trimRev_fuel]. destruct (spaceSuffix r) as [w|] eqn:E.
    + apply spaceSuffix_some in E as (q & Hin & _ & _ & Hr).
      destruct (IH (skipn w r)) as [cut [Hc Ha]].
      exists (rev q ++ cut). split.
      * rewrite <- app_assoc, <- Hc. exact Hr.
      * rewrite rev_app_distr, rev_involutive. now apply allspace_snoc.
    + exists []. split; [reflexivity | constructor].
Qed.

(** What [TrimRightSpace] removes is white space, and what it leaves
    does not end in white space. *)
Lemma TrimRightSpace_split (s : bytes) :
  exists cut, s = TrimRightSpace s ++ cut /\ allspace cut
              /\ spaceSuffix (rev (TrimRightSpace s)) = None.
Proof.
  unfold TrimRightSpace.
  destruct (trimRev_prefix (length s) (rev s)) as [cut [Hc Ha]].
  exists (rev cut). split; [|split].
  - rewrite <- (rev_involutive s) at 1. rewrite Hc at 1.
    now rewrite rev_app_distr.
  - exact Ha.
  - rewrite rev_involutive. apply trimRev_fixed. now rewrite length_rev.
Qed.

(** The list of white-space encodings is prefix-free: a string that
    starts with one of them starts with no other. *)
Lemma spacePrefix_app (q rest : bytes) :
  In q spaceSeqs -> spacePrefix (q ++ rest) = Some (length q).
Proof.
  intros Hin. unfold spaceSeqs in Hin. cbn [In] in Hin.
  unfold spacePrefix.
  repeat (destruct Hin as [<-|Hin];
          [cbn; rewrite ?HasPrefix_nil; reflexivity|]).
  destruct Hin.
Qed.

Lemma trimLeft_allspace (s : bytes) :
  allspace s -> forall n, (length s <= n)%nat -> trimLeft_fuel n s = [].
Proof.
  induction 1 as [|q s Hin Hs IH]; intros n Hn.
  - now destruct n.
  - pose proof (proj1 (Forall_forall _ _) spaceSeqs_nonempty q Hin) as N.
    rewrite length_app in Hn.
    destruct n as [|n]; [destruct q; [contradiction | simpl in Hn; lia]|].
    cbn [trimLeft_fuel]. rewrite (spacePrefix_app q s Hin).
    rewrite skipn_app, Nat.sub_diag, skipn_all. cbn [app skipn].
    apply IH. destruct q; [contradiction | simpl in Hn; lia].
Qed.

(** A line that is not blank is not emptied by trimming it on the right
    only. *)
Lemma nonblank_TrimRightSpace (line : bytes) :
  TrimSpace line <> [] -> TrimRightSpace line <> [].
Proof.
  intros H E. apply H. unfold TrimSpace.
  destruct (TrimRightSpace_split line) as [cut (Hc & Ha & _)].
  rewrite E in Hc. cbn [app] in Hc. subst cut.
  unfold TrimLeftSpace. rewrite (trimLeft_allspace line Ha) by lia.
  reflexivity.
Qed.

Lemma spaceSuffix_tab (r : bytes) : spaceSuffix (x09 :: r) = Some 1%nat.
Proof. unfold spaceSuffix. cbn. now rewrite HasPrefix_nil. Qed.

Lemma spaceSuffix_space (r : bytes) : spaceSuffix (x20 :: r) = Some 1%nat.
Proof. unfold spaceSuffix. cbn. now rewrite HasPrefix_nil. Qed.

(** The line handed to the parser: not empty, a prefix of the line
    read, and not ending in a byte [b] that is white space by itself. *)
Lemma passed_line (line : bytes) :
  TrimSpace line <> [] ->
  exists s b, TrimRightSpace line = s ++ [b]
              /\ spaceSuffix (b :: rev s) = None.
Proof.
  intros H. apply nonblank_TrimRightSpace in H.
  destruct (TrimRightSpace_split line) as [cut (_ & _ & Hfix)].
  destruct (exists_last H) as [s [b E]]. exists s, b.
  split; [exact E|]. rewrite E, rev_app_distr in Hfix. exact Hfix.
Qed.

Lemma occurrences_snoc (s : bytes) (b c : byte) :
  occurrences (s ++ [b]) [c]
  = (occurrences s [c] + if Byte.eqb b c then 1 else 0)%nat.
Proof.
  induction s as [|a s IH].
  - cbn [app occurrences HasPrefix]. now rewrite andb_true_r.
  - cbn [app occurrences HasPrefix]. rewrite !HasPrefix_nil, IH. lia.
Qed.

(** X1.  On every line the builder hands to it, [Tab] returns no error,
    a depth from 0 to below the length of the line, and a name that is
    not empty and is the line without its first [depth] bytes: the
    slice [p[depth:]] never panics, and no line parsed by [Tab] is
    skipped for want of a name. *)
Theorem Tab_on_passed_line (line : bytes) :
  TrimSpace line <> [] ->
  let p := TrimRightSpace line in
  let '(depth, name, err) := Tab p in
  err = None
  /\ 0 <= depth < Z.of_nat (length p)
  /\ name <> []
  /\ p = firstn (Z.to_nat depth) p ++ name.
Proof.
  intros H. destruct (passed_line line H) as (s & b & E & Hfix).
  cbv zeta. rewrite E. unfold Tab, from.
  assert (Hb : Byte.eqb b x09 = false).
  { destruct (Byte.eqb b x09) eqn:Eb; [|reflexivity].
    apply byte_eqb_eq in Eb. subst b.
    rewrite spaceSuffix_tab in Hfix. discriminate. }
  assert (C : Count (s ++ [b]) [x09] = Z.of_nat (occurrences s [x09])).
  { rewrite Count_occurrences by apply unbordered_single.
    rewrite occurrences_snoc, Hb. f_equal. lia. }
  rewrite C, Nat2Z.id. pose proof (occurrences_le s [x09]) as Le.
  split; [reflexivity|]. split; [rewrite length_app; simpl; lia|]. split.
  - intros N. apply (f_equal (@length byte)) in N.
    rewrite length_skipn, length_app in N. simpl in N. lia.
  - symmetry. apply firstn_skipn.
Qed.

Lemma Tab_on_passed_line_witness :
  snd (fst (Tab (TrimRightSpace (lit "  a b" ++ [x20; x0a])))) <> [].
Proof.
  pose proof (Tab_on_passed_line (lit "  a b" ++ [x20; x0a])
                ltac:(vm_compute; discriminate)) as H.
  cbv zeta in H.
  destruct (Tab (TrimRightSpace (lit "  a b" ++ [x20; x0a]))) as [[d n] e].
  cbn [fst snd]. apply H.
Defined.

(** X2.  When [Unix] succeeds on a line the builder hands to it, the
    name is not empty, ends the line, and contains no horizontal box
    glyph: the name of a file whose own name contains that glyph is
    cut after it. *)
Theorem Unix_on_passed_line (line : bytes) (d : Z) (nm : bytes) :
  TrimSpace line <> [] ->
  Unix (TrimRightSpace line) = (d, nm, None) ->
  nm <> []
  /\ (exists pre, TrimRightSpace line = pre ++ nm)
  /\ forall j, ~ occurs_at boxHorizontal nm j.
Proof.
  intros H U. destruct (passed_line line H) as (s & b & E & Hfix).
  destruct (Unix_success _ _ _ U) as (pre & mid & Hp & [_ Hlast] & _).
  assert (Hp' : TrimRightSpace line
                = (pre ++ boxHorizontal ++ mid ++ [x20]) ++ nm).
  { rewrite Hp. now rewrite <- !app_assoc. }
  split; [|split].
  - intros ->. rewrite app_nil_r in Hp'. rewrite E in Hp'.
    rewrite !app_assoc in Hp'. apply app_inj_tail in Hp' as [_ ->].
    rewrite spaceSuffix_space in Hfix. discriminate.
  - eexists. exact Hp'.
  - intros j Hj.
    apply (Hlast (length (pre ++ boxHorizontal ++ mid ++ [x20]) + j)%nat).
    + rewrite !length_app. simpl. lia.
    + unfold occurs_at in *. rewrite Hp', skipn_app.
      rewrite skipn_all2 by lia. cbn [app].
      replace (_ + j - _)%nat with j by lia. exact Hj.
Qed.

Lemma Unix_on_passed_line_witness :
  lit "file.txt" <> []
  /\ exists pre, lit "    " ++ boxUpRight ++ boxHorizontal ++ boxHorizontal
                 ++ lit " file.txt" = pre ++ lit "file.txt".
Proof.
  destruct (Unix_on_passed_line
              (lit "    " ++ boxUpRight ++ boxHorizontal ++ boxHorizontal
               ++ lit " file.txt" ++ [x0a])
              1 (lit "file.txt")
              ltac:(vm_compute; discriminate)
              ltac:(vm_compute; reflexivity)) as (N & [pre Hpre] & _).
  split; [exact N|]. exists pre. rewrite <- Hpre. vm_compute. reflexivity.
Defined.

(** ** The parser and the builder *)

Lemma readLine_ext (ct ct' : CustomTree) (f : Frame) (r : Reader) :
  (forall p, p <> [] -> ct p = ct' p) -> readLine ct f r = readLine ct' f r.
Proof.
  intros H. unfold readLine. destruct (ReadBytes r) as [[l e] r1].
  destruct (length (TrimSpace l) =? 0)%nat eqn:B; [reflexivity|].
  rewrite H; [reflexivity|]. apply nonblank_TrimRightSpace.
  intros E. rewrite E in B. discriminate.
Qed.

Lemma loop_ext (ct ct' : CustomTree) (fs : Directory) :
  (forall p, p <> [] -> ct p = ct' p) ->
  forall fuel f r, loop fuel ct fs f r = loop fuel ct' fs f r.
Proof.
  intros H. induction fuel as [|fuel IH]; intros f r; [reflexivity|].
  cbn [loop]. unfold iteration. rewrite (readLine_ext ct ct' f r H).
  destruct (readLine ct' f r) as [[[f1 line] err] r1].
  destruct (insertPrev f1) as [f2|]; [|reflexivity].
  destruct (length line =? 0)%nat; [reflexivity | apply IH].
Qed.

(** X3.  The builder keeps the promise of the comment on [CustomTree]:
    the parser is never called on an empty line.  Two parsers that agree
    on all non-empty lines give the same result on every stream. *)
Theorem Tree_parser_nonempty (c : Collab) (ct ct' : CustomTree) (r : Reader) :
  (forall p, p <> [] -> ct p = ct' p) -> Tree c ct r = Tree c ct' r.
Proof.
  intros H. unfold Tree. cbn [alloc].
  destruct (ReadBytes r) as [[line err] r1].
  destruct ((length line =? 0)%nat || is_EOF err); [reflexivity|].
  destruct err; [reflexivity|].
  destruct (root c _ _ line r1) as [out|[h1 d]]; [reflexivity|].
  now apply loop_ext.
Qed.

Lemma Tree_parser_nonempty_witness :
  Tree Memfs.fs Tab
    (NewReader (lit "r" ++ [x0a] ++ lit "a" ++ [x0a; x0a]))
  = Tree Memfs.fs
      (fun p => match p with
                | [] => (7, lit "x", Some EOF)
                | _ => Tab p
                end)
      (NewReader (lit "r" ++ [x0a] ++ lit "a" ++ [x0a; x0a])).
Proof.
  apply Tree_parser_nonempty. intros [|b p] H; [contradiction | reflexivity].
Defined.

(** X4.  The errors [Tree] can return all come from the first line:
    [io.ErrUnexpectedEOF] when the first read is empty or ends in
    [io.EOF], the error of the stream when the first read fails
    otherwise, or the error of [MkdirAll] or of [lookup] on the trimmed
    first line. *)
Theorem Tree_error_sources (c : Collab) (ct : CustomTree) (r : Reader)
    (h : Heap) (fs : Directory) (e : error) (rest : Reader) :
  Tree c ct r = Return h fs (Some e) rest ->
  (e = ErrUnexpectedEOF
   /\ (data r = [] \/ snd (fst (ReadBytes r)) = Some EOF))
  \/ (e = fail r /\ e <> EOF /\ ~ In x0a (data r))
  \/ (exists line r1,
         ReadBytes r = (line, None, r1)
         /\ let p := TrimSpace line in
            snd (MkdirAll c [[]] 0%nat p) = Some e
            \/ (snd (MkdirAll c [[]] 0%nat p) = None
                /\ snd (lookup c (fst (MkdirAll c [[]] 0%nat p)) 0%nat p)
                   = Some e)).
Proof.
  unfold Tree. cbn [alloc length app].
  destruct (ReadBytes r) as [[line err] r1] eqn:R.
  destruct ((length line =? 0)%nat || is_EOF err) eqn:G.
  - intros H. injection H as _ _ <- _. left. split; [reflexivity|].
    apply orb_true_iff in G as [G|G].
    + left. apply Nat.eqb_eq in G. unfold ReadBytes in R.
      destruct (splitLine (data r)) as [[l rs]|] eqn:S.
      * injection R as <- _ _. apply splitLine_some in S as [_ [l0 [-> _]]].
        rewrite length_app in G. simpl in G. lia.
      * injection R as <- _ _. now destruct (data r).
    + right. cbn [fst snd]. destruct err as [[]|]; try discriminate.
      reflexivity.
  - apply orb_false_iff in G as [_ G]. destruct err as [e0|].
    + intros H. injection H as _ _ <- _. right. left.
      unfold ReadBytes in R.
      destruct (splitLine (data r)) as [[l rs]|] eqn:S; [discriminate|].
      injection R as _ <- _. split; [reflexivity|]. split.
      * intros E. rewrite E in G. discriminate.
      * now apply splitLine_none.
    + pose proof (root_guard r r1 line R) as Gd. unfold root. rewrite Gd.
      unfold FromSlash.
      destruct (MkdirAll c [[]] 0%nat (TrimSpace line)) as [h1 [e1|]] eqn:M.
      * intros H. injection H as _ _ <- _. right. right.
        exists line, r1. split; [reflexivity|]. cbv zeta. rewrite M. now left.
      * destruct (lookup c h1 0%nat (TrimSpace line)) as [d [e1|]] eqn:K.
        -- intros H. injection H as _ _ <- _. right. right.
           exists line, r1. split; [reflexivity|]. cbv zeta. rewrite M.
           right. cbn [fst snd]. rewrite K. now split.
        -- intros H. apply loop_returns_nil in H as [H _]. discriminate.
Qed.

Lemma Tree_error_sources_witness :
  (ErrRead 3 = ErrUnexpectedEOF
   /\ (lit "r" = [] \/ snd (fst (ReadBytes (mkReader (lit "r") (ErrRead 3))))
                      = Some EOF))
  \/ (ErrRead 3 = ErrRead 3 /\ ErrRead 3 <> EOF /\ ~ In x0a (lit "r"))
  \/ (exists line r1,
         ReadBytes (mkReader (lit "r") (ErrRead 3)) = (line, None, r1)
         /\ let p := TrimSpace line in
            snd (MkdirAll Memfs.fs [[]] 0%nat p) = Some (ErrRead 3)
            \/ (snd (MkdirAll Memfs.fs [[]] 0%nat p) = None
                /\ snd (lookup Memfs.fs (fst (MkdirAll Memfs.fs [[]] 0%nat p))
                          0%nat p) = Some (ErrRead 3))).
Proof.
  exact (Tree_error_sources Memfs.fs Tab (mkReader (lit "r") (ErrRead 3))
           [[]] 0%nat (ErrRead 3) (mkReader [] (ErrRead 3)) eq_refl).
Defined.

Lemma Tab_leading_witness :
  Tab ([x09; x09] ++ lit "file.txt") = (2, lit "file.txt", None).
Proof.
  exact (Tab_leading ([x09; x09] ++ lit "file.txt")
           ltac:(vm_compute; intuition discriminate)).
Defined.

Lemma Index_single_first (b : byte) (pre post : bytes) :
  ~ In b pre -> Index (pre ++ b :: post) [b] = Z.of_nat (length pre).
Proof.
  induction pre as [|a pre IH]; intros N.
  - cbn [app Index HasPrefix]. rewrite (proj2 (byte_eqb_eq b b) eq_refl).
    now rewrite HasPrefix_nil.
  - cbn [app Index HasPrefix].
    rewrite (proj2 (byte_eqb_neq a b)) by (intros ->; apply N; now left).
    cbn [andb]. rewrite IH by (intros H; apply N; now right).
    destruct (Z.of_nat (length pre) =? -1) eqn:E; [lia|].
    cbn [length]. lia.
Qed.

Lemma skipn_past {A : Type} (a : list A) (b : A) (post : list A) :
  skipn (S (length a)) (a ++ b :: post) = post.
Proof. induction a as [|x a IH]; [reflexivity | exact IH]. Qed.

(** X6.  [Unix] succeeds on every line that has a space somewhere after
    its last horizontal box glyph, and the name is then everything after
    the first such space, the depth a quarter of the glyph count. *)
Theorem Unix_complete (pre mid nm : bytes) :
  last_at boxHorizontal (pre ++ boxHorizontal ++ mid ++ x20 :: nm)
          (length pre) ->
  ~ In x20 mid ->
  Unix (pre ++ boxHorizontal ++ mid ++ x20 :: nm)
  = (Z.quot (Z.of_nat (glyphs (pre ++ boxHorizontal ++ mid ++ x20 :: nm))) 4,
     nm, None).
Proof.
  set (p := pre ++ boxHorizontal ++ mid ++ x20 :: nm).
  intros Hlast Hmid. pose proof (Unix_depth p) as D.
  pose proof (LastIndex_bounds boxHorizontal p) as B.
  assert (L : LastIndex p boxHorizontal = Z.of_nat (length pre)).
  { destruct (Z.eq_dec (LastIndex p boxHorizontal) (-1)) as [E|E].
    - exfalso.
      apply (proj1 (LastIndex_none boxHorizontal p) E (length pre)), Hlast.
    - pose proof (LastIndex_found boxHorizontal p _ boxHorizontal_nonempty
                    eq_refl ltac:(lia)) as F.
      pose proof (last_at_unique _ _ _ _ F Hlast) as U. lia. }
  assert (Fr : from (LastIndex p boxHorizontal) p
               = (boxHorizontal ++ mid) ++ x20 :: nm).
  { rewrite L. unfold from, p. rewrite Nat2Z.id, skipn_app, Nat.sub_diag.
    rewrite skipn_all. cbn [app skipn]. reflexivity. }
  assert (N : ~ In x20 (boxHorizontal ++ mid)).
  { intros H. apply in_app_or in H as [H|H]; [|contradiction].
    unfold boxHorizontal in H. simpl in H. intuition discriminate. }
  assert (I : Index ((boxHorizontal ++ mid) ++ x20 :: nm) boxSpace
              = Z.of_nat (length (boxHorizontal ++ mid)))
    by exact (Index_single_first x20 _ nm N).
  unfold Unix in D |- *. rewrite Fr, I in D |- *.
  destruct (LastIndex p boxHorizontal =? -1) eqn:E1; [lia|].
  destruct (Z.of_nat (length (boxHorizontal ++ mid)) =? -1) eqn:E2; [lia|].
  cbn [fst] in D. rewrite D. f_equal. f_equal.
  unfold from.
  replace (Z.to_nat (Z.of_nat (length (boxHorizontal ++ mid)) + 1))
    with (S (length (boxHorizontal ++ mid))) by lia.
  apply skipn_past.
Qed.

Lemma Unix_complete_witness :
  Unix (boxUpRight ++ boxHorizontal ++ boxHorizontal ++ lit " a b")
  = (0, lit "a b", None).
Proof.
  pose proof (Unix_complete (boxUpRight ++ boxHorizontal) [] (lit "a b")) as H.
  cbn [app] in H. apply H.
  - split; [reflexivity|].
    intros j Hj. unfold occurs_at.
    unfold boxUpRight, boxHorizontal in Hj. cbn [app length] in Hj.
    do 13 (destruct j as [|j]; [first [lia | vm_compute; discriminate]|]).
    destruct j; vm_compute; discriminate.
  - intros [].
Defined.

(** ** What an insertion leaves alone *)

Lemma store_frame (h ext : Heap) (dir : Directory) (k : bytes) (v : Value) :
  (dir < length h)%nat ->
  (length h <= length (store (h ++ ext) dir k v))%nat
  /\ (forall d, (d < length h)%nat -> d <> dir ->
                entries (store (h ++ ext) dir k v) d = entries h d)
  /\ (forall k', k <> k' ->
                 get (entries (store (h ++ ext) dir k v) dir) k'
                 = get (entries h dir) k').
Proof.
  intros Hd. unfold store. split; [|split].
  - rewrite length_update, length_app. lia.
  - intros d Hl Hne. rewrite entries_update_other by congruence.
    unfold entries. now apply app_nth1.
  - intros k' Hk. rewrite entries_update_same
      by (rewrite length_app; lia).
    rewrite get_set_other by exact Hk. f_equal.
    unfold entries. now apply app_nth1.
Qed.

(** The heap an insertion leaves is the old one, possibly with fresh
    directories behind it, after one map write in the current
    directory. *)
Lemma insertPrev_heap (f f' : Frame) :
  insertPrev f = Some f' ->
  heap f' = heap f
  \/ exists ext v,
      heap f' = store (heap f ++ ext) (dir f)
                      (fst (fst (classify (heap f) (prevName f)))) v.
Proof.
  unfold insertPrev. destruct (length (prevName f) =? 0)%nat.
  - intros H. injection H as <-. now left.
  - destruct (classify (heap f) (prevName f)) as [[key value] h] eqn:C.
    destruct (transition h (dir f) (glob f) (depth f) (prevDepth f) key value)
      as [[[h' dir'] glob']|] eqn:T; [|discriminate].
    intros H. injection H as <-. cbn [heap fst]. right.
    apply transition_heap in T.
    assert (Hh : h = heap f \/ h = heap f ++ [[]]).
    { unfold classify in C. destruct (HasSuffix (prevName f) [x2f]).
      - cbn [alloc] in C. injection C as _ _ <-. now right.
      - injection C as _ _ <-. now left. }
    destruct (depth f >? prevDepth f); cbn [alloc fst snd] in T.
    + destruct Hh as [->| ->].
      * now exists [[]], (Dir (length (heap f))).
      * rewrite <- app_assoc in T. eexists. eexists. exact T.
    + destruct Hh as [->| ->].
      * exists [], value. now rewrite app_nil_r.
      * now exists [[]], value.
Qed.

(** X7.  An insertion writes one name in the current directory and
    nothing else: the heap does not shrink, every other directory that
    existed keeps its entries, and every other name of the current
    directory keeps its value. *)
Theorem insertPrev_frame (f f' : Frame) :
  (dir f < length (heap f))%nat ->
  insertPrev f = Some f' ->
  (length (heap f) <= length (heap f'))%nat
  /\ (forall d, (d < length (heap f))%nat -> d <> dir f ->
                entries (heap f') d = entries (heap f) d)
  /\ (forall k, fst (fst (classify (heap f) (prevName f))) <> k ->
                get (entries (heap f') (dir f)) k
                = get (entries (heap f) (dir f)) k).
Proof.
  intros Hd I. destruct (insertPrev_heap f f' I) as [E|(ext & v & E)].
  - rewrite E. repeat split; auto.
  - rewrite E. now apply store_frame.
Qed.

Lemma insertPrev_frame_witness :
  get (entries [[(lit "a", File); (lit "b", File)]] 0%nat) (lit "a")
  = get (entries [[(lit "a", File)]] 0%nat) (lit "a").
Proof.
  destruct (insertPrev_frame
              (mkFrame [[(lit "a", File)]] 0%nat [0%nat] (lit "c") (lit "b") 0 0)
              (mkFrame [[(lit "a", File); (lit "b", File)]] 0%nat [0%nat]
                       (lit "c") (lit "b") 0 0)
              ltac:(simpl; lia) eq_refl) as (_ & _ & H).
  apply (H (lit "a")). vm_compute. discriminate.
Defined.

(** X8.  With depths that are non-negative [int]s, the only panic of an
    insertion is the ascent on an empty stack: [glob[n]] is out of
    range exactly when a node is buffered, the line is shallower than
    the one before, and the stack has no entry left. *)
Theorem insertPrev_panic (f : Frame) :
  0 <= depth f -> int (prevDepth f) -> int (Z.of_nat (length (glob f))) ->
  insertPrev f = None
  <-> prevName f <> [] /\ depth f < prevDepth f /\ glob f = [].
Proof.
  intros Hd Hp Hl. unfold insertPrev.
  destruct (length (prevName f) =? 0)%nat eqn:L.
  { apply Nat.eqb_eq in L. split; [discriminate|].
    intros [N _]. destruct (prevName f); [now elim N | discriminate]. }
  assert (N : prevName f <> []) by (intros E; rewrite E in L; discriminate).
  destruct (classify (heap f) (prevName f)) as [[key value] h].
  unfold transition.
  destruct (depth f >? prevDepth f) eqn:Gt.
  { cbn [alloc]. split; [discriminate | lia]. }
  destruct (depth f =? prevDepth f) eqn:Eq.
  { split; [discriminate | lia]. }
  rewrite ascent_index by (auto; lia).
  set (n := Z.to_nat _).
  destruct (nth_error (glob f) n) as [g|] eqn:E.
  - split; [discriminate|]. intros (_ & _ & G). rewrite G in E.
    destruct n; discriminate.
  - split; [|reflexivity]. intros _. split; [exact N|]. split; [lia|].
    apply nth_error_None in E. destruct (glob f); [reflexivity|].
    subst n. simpl length in *. lia.
Qed.

Lemma insertPrev_panic_witness :
  insertPrev (mkFrame [[]] 0%nat [] (lit "d") (lit "c") 0 1) = None.
Proof.
  apply (insertPrev_panic (mkFrame [[]] 0%nat [] (lit "d") (lit "c") 0 1)).
  - simpl. lia.
  - unfold int. simpl. lia.
  - unfold int. simpl. lia.
  - split; [discriminate|]. split; [simpl; lia | reflexivity].
Defined.

(** ** Regular input *)

Lemma loop_no_panic (ct : CustomTree) (fs : Directory) :
  forall fuel f r,
    Forall (fun s => snd s <> None) (inserts fuel ct f r) ->
    loop fuel ct fs f r <> Panic.
Proof.
  induction fuel as [|fuel IH]; intros f r H; [discriminate|].
  cbn [loop inserts] in H |- *. unfold iteration in H |- *.
  destruct (readLine ct f r) as [[[f1 line] err] r1].
  inversion H as [|? ? Hsome Hrest]; subst. cbn [snd] in Hsome.
  destruct (insertPrev f1) as [f2|]; [|now elim Hsome].
  destruct (length line =? 0)%nat; [discriminate|]. now apply IH.
Qed.

(** X9.  On regularly indented input the build succeeds.  If the loop
    starts with one stack entry more than the previous depth, and at
    every step the line is at a depth from 0 to one more than the depth
    of the line before it, and every line read while no name is
    buffered (the first line, and a line after one the parser returned
    no name for) is at the depth of its predecessor, then the loop
    never panics and returns [nil] with the stream read to its end.
    Without the condition on nameless lines the build may panic. *)
Theorem run_regular (ct : CustomTree) (fs : Directory) (f : Frame)
    (r : Reader) :
  full_stack f ->
  Forall (fun s => regular_step (fst s))
         (inserts (S (length (data r))) ct f r) ->
  exists h, run ct fs f r = Return h fs None (mkReader [] (fail r)).
Proof.
  intros Hf Hreg. destruct (frames_regular ct _ f r Hf Hreg) as [_ Hsome].
  pose proof (loop_no_panic ct fs _ f r Hsome) as NP.
  pose proof (loop_enough_fuel ct fs (S (length (data r))) f r ltac:(lia)) as NF.
  unfold run. destruct (loop _ ct fs f r) as [| |h fs' err rest] eqn:E.
  - now elim NP.
  - now elim NF.
  - pose proof (loop_fail ct fs _ _ _ _ _ _ _ E) as Fl.
    apply loop_returns_nil in E as (-> & -> & D).
    exists h. destruct rest as [dt fl]. simpl in *. now subst.
Qed.

(** The condition on nameless lines is needed: [Unix] fails on the
    first line below and still returns its depth 1, nothing is inserted
    for it, and though every line is at most one level deeper than its
    predecessor the last ascent finds the stack empty. *)
Example nameless_line_panics :
  run Unix 0%nat (start [[]] 0%nat)
    (NewReader
       (unlines [lit "    x";
                 lit "        " ++ boxUpRight ++ boxHorizontal
                 ++ boxHorizontal ++ lit " a";
                 lit "    " ++ boxUpRight ++ boxHorizontal ++ boxHorizontal
                 ++ lit " b";
                 boxUpRight ++ boxHorizontal ++ boxHorizontal ++ lit " c"]))
  = Panic.
Proof. vm_compute. reflexivity. Qed.

Lemma run_regular_witness :
  exists h,
    run Tab 0%nat (start [[]] 0%nat)
      (NewReader (lit "a" ++ [x0a] ++ [x09] ++ lit "b" ++ [x0a]
                  ++ [x09; x09] ++ lit "c" ++ [x0a]
                  ++ [x09] ++ lit "d" ++ [x0a]))
    = Return h 0%nat None (mkReader [] EOF).
Proof.
  apply (run_regular Tab 0%nat (start [[]] 0%nat)
           (NewReader (lit "a" ++ [x0a] ++ [x09] ++ lit "b" ++ [x0a]
                       ++ [x09; x09] ++ lit "c" ++ [x0a]
                       ++ [x09] ++ lit "d" ++ [x0a]))).
  - split; simpl; lia.
  - remember (inserts _ Tab _ _) as steps eqn:E. vm_compute in E. subst steps.
    repeat (constructor;
            [unfold regular_step, int; cbn [fst prevName depth prevDepth];
             repeat split; try discriminate; lia|]).
    constructor.
Defined.

Lemma run_ignores_rest_witness :
  run Tab 0%nat (start [[]] 0%nat)
    (mkReader (unlines [lit "a"] ++ [x20] ++ x0a :: lit "b") EOF)
  = run Tab 0%nat (start [[]] 0%nat)
      (mkReader (unlines [lit "a"] ++ [x20] ++ x0a :: []) EOF).
Proof.
  apply (run_ignores_rest Tab 0%nat EOF [x20] (lit "b") []).
  - intros [H|[]]. discriminate.
  - vm_compute. reflexivity.
  - repeat constructor. vm_compute. intuition discriminate.
Defined.

(** ** The last line *)

Lemma allspace_app (s t : bytes) : allspace s -> allspace t -> allspace (s ++ t).
Proof.
  intros Hs Ht. induction Hs as [|q s Hq Hs IH]; [exact Ht|].
  rewrite <- app_assoc. now constructor.
Qed.

Lemma trimLeft_prefix :
  forall n s, exists cut, s = cut ++ trimLeft_fuel n s /\ allspace cut.
Proof.
  induction n as [|n IH]; intros s.
  - exists []. split; [reflexivity | constructor].
  - cbn [trimLeft_fuel]. destruct (spacePrefix s) as [w|] eqn:E.
    + apply spacePrefix_some in E as (q & Hin & _ & _ & Hs).
      destruct (IH (skipn w s)) as [cut [Hc Ha]].
      exists (q ++ cut). split.
      * rewrite <- app_assoc, <- Hc. exact Hs.
      * now constructor.
    + exists []. split; [reflexivity | constructor].
Qed.

(** A line is blank exactly when it consists of white-space runes. *)
Lemma TrimSpace_blank (s : bytes) : TrimSpace s = [] <-> allspace s.
Proof.
  split.
  - intros H. unfold TrimSpace in H.
    destruct (trimLeft_prefix (length s) s) as [cut [Hc Ha]].
    fold (TrimLeftSpace s) in Hc.
    destruct (TrimRightSpace_split (TrimLeftSpace s)) as [cut' (Hc' & Ha' & _)].
    rewrite H in Hc'. cbn [app] in Hc'. rewrite Hc, Hc'.
    now apply allspace_app.
  - intros H. unfold TrimSpace, TrimLeftSpace.
    now rewrite (trimLeft_allspace s H) by lia.
Qed.

Lemma spaceSeq_newline (q l : bytes) :
  In q spaceSeqs -> q = l ++ [x0a] -> l = [].
Proof.
  intros Hin E. unfold spaceSeqs in Hin. cbn [In] in Hin.
  repeat (destruct Hin as [<-|Hin];
          [destruct l as [|a [|b [|c [|d l]]]]; try reflexivity; discriminate E|]).
  destruct Hin.
Qed.

Lemma allspace_newline (s : bytes) :
  allspace s -> forall l, s = l ++ [x0a] -> allspace l.
Proof.
  induction 1 as [|q s Hq Hs IH]; intros l E.
  - destruct l; discriminate.
  - destruct s as [|a s'] using rev_ind.
    + rewrite app_nil_r in E. rewrite (spaceSeq_newline q l Hq E). constructor.
    + clear IHs'. rewrite app_assoc in E. apply app_inj_tail in E as [<- ->].
      constructor; [exact Hq|]. now apply IH.
Qed.

Lemma blank_newline (l : bytes) :
  (length (TrimSpace (l ++ [x0a])) =? 0)%nat = (length (TrimSpace l) =? 0)%nat.
Proof.
  assert (B : forall s, (length (TrimSpace s) =? 0)%nat = true <-> allspace s).
  { intros s. rewrite Nat.eqb_eq, <- TrimSpace_blank.
    split; [now destruct (TrimSpace s) | now intros ->]. }
  destruct (length (TrimSpace l) =? 0)%nat eqn:E.
  - apply B. apply B in E. apply allspace_snoc; [exact E|].
    unfold spaceSeqs. simpl. tauto.
  - destruct (length (TrimSpace (l ++ [x0a])) =? 0)%nat eqn:E'; [|reflexivity].
    apply B in E'. pose proof (allspace_newline _ E' l eq_refl) as A.
    apply B in A. congruence.
Qed.

Lemma TrimRightSpace_newline (l : bytes) :
  TrimRightSpace (l ++ [x0a]) = TrimRightSpace l.
Proof.
  unfold TrimRightSpace. rewrite rev_app_distr, length_app. cbn [rev app length].
  rewrite Nat.add_comm. cbn [Nat.add trimRev_fuel].
  assert (S : spaceSuffix (x0a :: rev l) = Some 1%nat).
  { unfold spaceSuffix. cbn. now rewrite HasPrefix_nil. }
  rewrite S. cbn [skipn]. reflexivity.
Qed.

(** The last line of the stream is read alike with and without its
    newline. *)
Lemma iteration_final_newline (ct : CustomTree) (f : Frame) (l : bytes)
    (e : error) :
  ~ In x0a l ->
  iteration ct f (mkReader l e) = iteration ct f (mkReader (l ++ [x0a]) e).
Proof.
  intros N. unfold iteration, readLine, ReadBytes. cbn [data fail].
  rewrite (splitLine_app l [] N), (proj2 (splitLine_none l) N).
  rewrite blank_newline, TrimRightSpace_newline.
  destruct (length (TrimSpace l) =? 0)%nat eqn:B; [reflexivity|].
  destruct (ct (TrimRightSpace l)) as [[d n] err].
  destruct (insertPrev _); [|reflexivity].
  assert (L : (length l =? 0)%nat = false)
    by (destruct l; [discriminate | reflexivity]).
  assert (L' : (length (l ++ [x0a]) =? 0)%nat = false)
    by (destruct l; reflexivity).
  now rewrite L, L'.
Qed.

(** X11.  In the body a missing newline at the end of the stream changes
    nothing: the loop ends alike on a last line that is terminated and
    on one that is not. *)
Theorem run_final_newline (ct : CustomTree) (fs : Directory) (e : error)
    (l : bytes) :
  ~ In x0a l ->
  forall ls f,
    Forall (fun l' => ~ In x0a l') ls ->
    run ct fs f (mkReader (unlines ls ++ l) e)
    = run ct fs f (mkReader (unlines ls ++ l ++ [x0a]) e).
Proof.
  intros N. induction ls as [|l' ls IH]; intros f Hls.
  - cbn [unlines map concat app]. rewrite !run_step.
    now rewrite (iteration_final_newline ct f l e N).
  - inversion Hls as [|? ? Nl Hls']; subst.
    unfold unlines in *. cbn [map concat]. rewrite <- !app_assoc.
    cbn [app]. rewrite !run_step.
    rewrite (iteration_app ct f l' (_ ++ l) e Nl),
      (iteration_app ct f l' (_ ++ l ++ [x0a]) e Nl).
    destruct (iteration ct f (mkReader (l' ++ [x0a]) e)) as [| |f' r1];
      try reflexivity.
    apply IH, Hls'.
Qed.

Lemma run_final_newline_witness :
  run Tab 0%nat (start [[]] 0%nat)
    (mkReader (unlines [lit "a"] ++ [x09] ++ lit "b") EOF)
  = run Tab 0%nat (start [[]] 0%nat)
      (mkReader (unlines [lit "a"] ++ ([x09] ++ lit "b") ++ [x0a]) EOF).
Proof.
  apply (run_final_newline Tab 0%nat EOF ([x09] ++ lit "b")).
  - vm_compute. intuition discriminate.
  - repeat constructor. vm_compute. intuition discriminate.
Defined.

(** ** Flat listings *)

Lemma length_store_files (ns : list bytes) :
  forall h d, length (store_files h d ns) = length h.
Proof.
  induction ns as [|n ns IH]; intros h d; [reflexivity|].
  cbn [store_files fold_left]. fold (store_files (store h d n File) d ns).
  rewrite IH. apply length_update.
Qed.

Lemma store_files_snoc (ns : list bytes) (n : bytes) (h : Heap) (d : Directory) :
  store_files h d (ns ++ [n]) = store (store_files h d ns) d n File.
Proof. unfold store_files. now rewrite fold_left_app. Qed.

Lemma store_files_get (ns : list bytes) (h : Heap) (d : Directory) (n : bytes) :
  (d < length h)%nat -> In n ns ->
  get (entries (store_files h d ns) d) n = Some File.
Proof.
  intros Hd. induction ns as [|m ns IH] using rev_ind; [intros []|].
  intros Hin. rewrite store_files_snoc.
  destruct (bytes_eqb m n) eqn:E.
  - apply bytes_eqb_eq in E. subst m. apply store_get.
    now rewrite length_store_files.
  - unfold store. rewrite entries_update_same by now rewrite length_store_files.
    rewrite get_set_other.
    + apply IH. apply in_app_or in Hin as [H|[H|[]]]; [exact H|].
      subst m. now rewrite bytes_eqb_refl in E.
    + intros ->. now rewrite bytes_eqb_refl in E.
Qed.

Lemma store_files_other (ns : list bytes) (h : Heap) (d d' : Directory) :
  d <> d' -> entries (store_files h d ns) d' = entries h d'.
Proof.
  intros N. revert h. induction ns as [|n ns IH]; intros h; [reflexivity|].
  cbn [store_files fold_left]. fold (store_files (store h d n File) d ns).
  rewrite IH. unfold store. now apply entries_update_other.
Qed.

Lemma insertPrev_sibling (h : Heap) (root : Directory)
    (gl : list Directory) (nm pn : bytes) (d : Z) :
  HasSuffix pn [x2f] = false ->
  insertPrev (mkFrame h root gl nm pn d d)
  = Some (mkFrame (store_files h root (match pn with [] => [] | _ => [pn] end))
                  root gl nm pn d d).
Proof.
  intros Hpn. unfold insertPrev, classify.
  cbn [prevName heap dir glob depth prevDepth name].
  destruct pn as [|b pn]; [reflexivity|].
  cbn [length Nat.eqb]. rewrite Hpn. unfold transition.
  rewrite Z.eqb_refl.
  destruct (d >? d) eqn:E; [lia | reflexivity].
Qed.

(** The loop on a flat listing, from any point of it: [pn] is the name
    read last, still to be inserted. *)
Lemma run_flat_from (ct : CustomTree) (fs root : Directory) (e : error) :
  forall ls ns h pn,
    Forall2 (flat_line ct) ls ns ->
    HasSuffix pn [x2f] = false ->
    run ct fs (mkFrame h root [root] pn pn 0 0) (mkReader (unlines ls) e)
    = Return (store_files h root
                (match pn with [] => [] | _ => [pn] end ++ ns))
             fs None (mkReader [] e).
Proof.
  induction ls as [|l ls IH]; intros ns h pn Hfl Hpn.
  - inversion Hfl; subst. rewrite app_nil_r, run_step.
    unfold iteration, readLine, ReadBytes.
    cbn [unlines map concat data fail splitLine].
    change (TrimSpace []) with (@nil byte). cbn [length Nat.eqb].
    rewrite (insertPrev_sibling h root [root] pn pn 0 Hpn). reflexivity.
  - inversion Hfl as [|? n ? ns' (Nl & Nb & Hct & Nn & Sn) Hfl']; subst.
    unfold unlines in *. cbn [map concat]. rewrite <- app_assoc. cbn [app].
    rewrite run_step, (iteration_app ct _ l _ e Nl).
    unfold iteration, readLine, ReadBytes. cbn [data fail].
    rewrite (splitLine_app l [] Nl).
    assert (B : (length (TrimSpace (l ++ [x0a])) =? 0)%nat = false)
      by (apply Nat.eqb_neq; destruct (TrimSpace (l ++ [x0a]));
          [contradiction | discriminate]).
    rewrite B. destruct (ct (TrimRightSpace (l ++ [x0a]))) as [[d n'] err].
    cbn [fst] in Hct. injection Hct as -> ->.
    assert (L : (length (l ++ [x0a]) =? 0)%nat = false)
      by (apply Nat.eqb_neq; rewrite length_app; simpl; lia).
    cbn [heap dir glob prevName prevDepth].
    rewrite (insertPrev_sibling h root [root] n pn 0 Hpn), L.
    unfold advance. cbn [heap dir glob name depth].
    rewrite (IH ns' _ n Hfl' Sn). f_equal.
    unfold store_files. rewrite <- fold_left_app.
    destruct n; [now elim Nn | reflexivity].
Qed.

(** X12.  A flat listing fills the root: when every line of the stream
    is parsed at depth 0 with a name that is not empty and has no
    trailing slash, the loop returns without error, every name of the
    listing is a file of the root directory, and no other directory
    has changed. *)
Theorem run_flat (ct : CustomTree) (fs root : Directory) (e : error)
    (h : Heap) (ls ns : list bytes) :
  (root < length h)%nat ->
  Forall2 (flat_line ct) ls ns ->
  run ct fs (start h root) (mkReader (unlines ls) e)
  = Return (store_files h root ns) fs None (mkReader [] e)
  /\ (forall n, In n ns ->
                get (entries (store_files h root ns) root) n = Some File)
  /\ (forall d, d <> root ->
                entries (store_files h root ns) d = entries h d).
Proof.
  intros Hr Hfl. split; [|split].
  - exact (run_flat_from ct fs root e ls ns h [] Hfl eq_refl).
  - intros n Hin. now apply store_files_get.
  - intros d Hd. apply store_files_other. congruence.
Qed.

Lemma run_flat_witness :
  run Unix 0%nat (start [[]] 0%nat)
    (mkReader (unlines [boxVerticalRight ++ boxHorizontal ++ boxHorizontal
                        ++ lit " a";
                        boxUpRight ++ boxHorizontal ++ boxHorizontal
                        ++ lit " b"]) EOF)
  = Return [[(lit "a", File); (lit "b", File)]] 0%nat None (mkReader [] EOF).
Proof.
  refine (proj1 (run_flat Unix 0%nat 0%nat EOF [[]]
                   [boxVerticalRight ++ boxHorizontal ++ boxHorizontal
                    ++ lit " a";
                    boxUpRight ++ boxHorizontal ++ boxHorizontal ++ lit " b"]
                   [lit "a"; lit "b"] _ _)).
  - simpl. lia.
  - repeat constructor; vm_compute; intuition discriminate.
Defined.

(** ** Listings and the trees they build *)

Lemma Shape_forest_ind (P : Shape -> Prop) :
  P SFile ->
  (forall cs, Forall (fun c => P (snd c)) cs -> P (SDir cs)) ->
  forall T, P T.
Proof.
  intros Hf Hd. fix IH 1. intros [|cs]; [exact Hf|].
  apply Hd. induction cs as [|[m C] cs IHcs]; constructor.
  - exact (IH C).
  - exact IHcs.
Qed.

Lemma rep_dir (lo hi : nat) (h : Heap) (d : Directory)
    (cs : list (bytes * Shape)) :
  rep lo hi h (Dir d) (SDir cs)
  <-> (lo <= d < hi)%nat /\ rep_forest lo hi h cs (entries h d).
Proof.
  cbn [rep]. unfold rep_forest. generalize (entries h d) as es.
  intros es. apply and_iff_compat_l. revert es.
  induction cs as [|[m C] cs IH]; intros [|[k v] es].
  - split; [constructor | trivial].
  - split; [intros [] | intros H; inversion H].
  - split; [intros [] | intros H; inversion H].
  - split.
    + intros (E & R & A). constructor; [now split | now apply IH].
    + intros H. inversion H as [|? ? ? ? [E R] A]; subst.
      cbn [fst snd] in E, R. split; [exact E|]. split; [exact R | now apply IH].
Qed.

Lemma rep_file (lo hi : nat) (h : Heap) (v : Value) :
  rep lo hi h v SFile <-> v = File.
Proof. destruct v; cbn [rep]; split; try tauto; discriminate. Qed.

Lemma rep_dir_inv (lo hi : nat) (h : Heap) (v : Value)
    (cs : list (bytes * Shape)) :
  rep lo hi h v (SDir cs) -> exists d, v = Dir d.
Proof. destruct v as [|d]; cbn [rep]; [intros [] | now exists d]. Qed.

Lemma wellnamed_dir (cs : list (bytes * Shape)) :
  wellnamed (SDir cs) <-> wellnamed_forest cs.
Proof.
  cbn [wellnamed]. unfold wellnamed_forest. apply and_iff_compat_l.
  induction cs as [|[m C] cs IH].
  - split; [constructor | trivial].
  - split.
    + intros (N & Sl & W & A). constructor; [cbn [fst snd]; auto | now apply IH].
    + intros H. inversion H as [|? ? (N & Sl & W) A]; subst.
      cbn [fst snd] in N, Sl, W. repeat split; auto. now apply IH.
Qed.

(** A tree held in a range of directories is held in every wider
    range, and in every heap that agrees on the range. *)
Lemma rep_change (lo hi lo' hi' : nat) (h h' : Heap) :
  (lo' <= lo)%nat -> (hi <= hi')%nat ->
  (forall d, (lo <= d < hi)%nat -> entries h' d = entries h d) ->
  forall T v, rep lo hi h v T -> rep lo' hi' h' v T.
Proof.
  intros Hlo Hhi Hsame. induction T as [|cs IH] using Shape_forest_ind;
    intros v R.
  - apply rep_file in R. subst v. exact I.
  - destruct (rep_dir_inv _ _ _ _ _ R) as [d ->].
    apply rep_dir in R as [Hd R]. apply rep_dir. split; [lia|].
    rewrite (Hsame d Hd). unfold rep_forest in *.
    revert IH. induction R as [|c e cs es [E Rc] R IHR]; intros IH;
      constructor.
    + inversion IH; subst. split; [exact E | auto].
    + inversion IH; subst. auto.
Qed.

(** Reading the heap back gives the tree it holds. *)
Lemma rep_shape (lo hi : nat) (h : Heap) :
  forall T v fuel, rep lo hi h v T -> (height T <= fuel)%nat ->
                   shape fuel h v = T.
Proof.
  induction T as [|cs IH] using Shape_forest_ind; intros v fuel R Hf.
  - apply rep_file in R. subst v. now destruct fuel.
  - destruct (rep_dir_inv _ _ _ _ _ R) as [d ->].
    apply rep_dir in R as [_ R]. cbn [height] in Hf.
    destruct fuel as [|fuel]; [lia|]. cbn [shape]. f_equal.
    apply le_S_n in Hf. unfold rep_forest in R.
    revert IH Hf. induction R as [|[m C] [k v] cs es [E Rc] R IHR];
      intros IH Hf; [reflexivity|].
    cbn [fst snd] in E, Rc. subst k. cbn [map fst snd fold_right] in Hf |- *.
    inversion IH as [|? ? IHc IHcs]; subst. cbn [snd] in IHc.
    f_equal.
    + f_equal. apply IHc; [exact Rc | lia].
    + apply IHR; [exact IHcs | lia].
Qed.

Lemma dropSlashes_id (r : bytes) :
  HasPrefix r [x2f] = false -> dropSlashes r = r.
Proof.
  destruct r as [|a r]; [reflexivity|]. cbn [HasPrefix].
  rewrite HasPrefix_nil, andb_true_r. intros H.
  apply byte_eqb_neq in H.
  destruct a; try reflexivity. now elim H.
Qed.

Lemma classify_file (h : Heap) (n : bytes) :
  HasSuffix n [x2f] = false -> classify h n = (n, File, h).
Proof. intros H. unfold classify. now rewrite H. Qed.

Lemma classify_dir (h : Heap) (n : bytes) :
  HasSuffix n [x2f] = false ->
  classify h (n ++ [x2f]) = (n, Dir (length h), h ++ [[]]).
Proof.
  intros H. unfold classify, HasSuffix, TrimRightSlash.
  rewrite rev_app_distr. cbn [rev app HasPrefix dropSlashes].
  rewrite HasPrefix_nil. cbn [Byte.eqb andb alloc].
  unfold HasSuffix in H. cbn [rev app] in H.
  rewrite (dropSlashes_id _ H), rev_involutive. reflexivity.
Qed.

Lemma cut_same (gl : list Directory) (D : Directory) (k : Z) :
  Z.of_nat (length gl) = k + 1 -> 0 <= k -> cut gl D k = (gl, D).
Proof.
  intros L Hk. unfold cut. f_equal.
  - apply firstn_all2. lia.
  - rewrite app_nth2 by lia.
    replace (Z.to_nat k + 1 - length gl)%nat with 0%nat by lia. reflexivity.
Qed.

Lemma cut_push (gl : list Directory) (D d0 : Directory) (k nd : Z) :
  Z.of_nat (length gl) = k + 1 -> 0 <= nd <= k ->
  cut (gl ++ [D]) d0 nd = cut gl D nd.
Proof.
  intros L Hnd. unfold cut. f_equal.
  - rewrite firstn_app.
    replace (Z.to_nat nd + 1 - length gl)%nat with 0%nat by lia.
    cbn [firstn]. now rewrite app_nil_r.
  - rewrite (app_nth1 (gl ++ [D])) by (rewrite length_app; simpl; lia).
    apply nth_indep. rewrite length_app. simpl. lia.
Qed.

(** A line that is not deeper than the one before: the buffered node is
    stored as classified, and the stack is cut back. *)
Lemma insert_level (h : Heap) (gl : list Directory) (D : Directory)
    (k nd : Z) (n nn : bytes) :
  n <> [] -> Z.of_nat (length gl) = k + 1 -> 0 <= nd <= k -> int (k + 1) ->
  insertPrev (mkFrame h D gl nn n nd k)
  = let '(key, value, h1) := classify h n in
    Some (mkFrame (store h1 D key value) (snd (cut gl D nd))
                  (fst (cut gl D nd)) nn n nd k).
Proof.
  intros Hn L Hnd Hint. unfold insertPrev.
  cbn [prevName heap dir glob depth prevDepth name].
  destruct n as [|b n]; [now elim Hn|]. cbn [length Nat.eqb].
  destruct (classify h (b :: n)) as [[key value] h1].
  unfold transition. unfold int in Hint.
  destruct (nd >? k) eqn:Gt; [lia|].
  destruct (nd =? k) eqn:Eq.
  - apply Z.eqb_eq in Eq. subst nd.
    now rewrite (cut_same gl D k L ltac:(lia)).
  - apply Z.eqb_neq in Eq.
    rewrite ascent_index by (unfold int; lia).
    replace (Z.to_nat (Z.max (Z.of_nat (length gl) - (k - nd)) 0))
      with (Z.to_nat nd + 1)%nat by lia.
    unfold cut. cbn [fst snd].
    rewrite (nth_error_nth' gl D) by lia.
    rewrite app_nth1 by lia. reflexivity.
Qed.

(** A line one level deeper: the buffered node becomes a fresh
    directory, which is entered. *)
Lemma insert_deeper (h : Heap) (gl : list Directory) (D : Directory)
    (k : Z) (n nn : bytes) :
  n <> [] -> HasSuffix n [x2f] = false ->
  insertPrev (mkFrame h D gl nn n (k + 1) k)
  = Some (mkFrame (store (h ++ [[]]) D n (Dir (length h))) (length h)
                  (gl ++ [D]) nn n (k + 1) k).
Proof.
  intros Hn Hs. unfold insertPrev.
  cbn [prevName heap dir glob depth prevDepth name].
  destruct n as [|b n]; [now elim Hn|]. cbn [length Nat.eqb].
  rewrite (classify_file h _ Hs). unfold transition.
  destruct (k + 1 >? k) eqn:Gt; [|lia]. reflexivity.
Qed.

Lemma feed_all_app (f : Frame) (a b : list Item) :
  feed_all f (a ++ b)
  = match feed_all f a with
    | Some f1 => feed_all f1 b
    | None => None
    end.
Proof.
  revert f. induction a as [|x a IH]; intros f; [reflexivity|].
  cbn [app feed_all]. destruct (feed f x); [apply IH | reflexivity].
Qed.

Lemma feed_seq_app (f : Frame) (a b : list Item) (x : Item)
    (next : option Item) :
  feed_seq f (a ++ x :: b) next
  = match feed_seq f a (Some x) with
    | Some f1 => feed_seq f1 b next
    | None => None
    end.
Proof.
  unfold feed_seq. rewrite feed_all_app. cbn [feed_all].
  destruct (feed_all f a) as [f1|]; [|reflexivity].
  destruct (feed f1 x); reflexivity.
Qed.

Lemma tree_items_cons (k : Z) (n : bytes) (T : Shape) :
  tree_items k n T = (k, pname n T) :: forest_items (k + 1) (children T).
Proof. destruct T as [|[|c cs]]; reflexivity. Qed.

Lemma set_fresh (m : Entries) (k : bytes) (v : Value) :
  get m k = None -> set m k v = m ++ [(k, v)].
Proof.
  induction m as [|[k' v'] m IH]; [reflexivity|]. cbn [get set app].
  destruct (bytes_eqb k' k); [discriminate|]. intros H. now rewrite IH.
Qed.

Lemma get_snoc_none (m : Entries) (n k : bytes) (v : Value) :
  get m k = None -> n <> k -> get (m ++ [(n, v)]) k = None.
Proof.
  intros H N. induction m as [|[k' v'] m IH]; cbn [get app] in *.
  - destruct (bytes_eqb n k) eqn:E; [|reflexivity].
    apply bytes_eqb_eq in E. contradiction.
  - destruct (bytes_eqb k' k); [discriminate | now apply IH].
Qed.

(** The step that inserts a node whose successor is not deeper, or
    which is the last of the stream. *)
Lemma last_step (h : Heap) (gl : list Directory) (D : Directory) (k : Z)
    (n : bytes) (next : option Item) :
  n <> [] -> Z.of_nat (length gl) = k + 1 -> 0 <= k -> int (k + 1) ->
  next_ok k next ->
  exists f',
    feed_seq (head h gl D k n) [] next = Some f'
    /\ heap f' = (let '(key, value, h1) := classify h n in
                  store h1 D key value)
    /\ arrives f' gl D next.
Proof.
  intros Hn L Hk Hint Hnext. unfold feed_seq. cbn [feed_all].
  destruct next as [[nd nn]|].
  - cbn [next_ok] in Hnext. unfold feed, head.
    cbn [heap dir glob prevName prevDepth fst snd].
    rewrite (insert_level h gl D k nd n nn Hn L Hnext Hint).
    destruct (classify h n) as [[key value] h1].
    eexists. split; [reflexivity|]. split; reflexivity.
  - unfold head.
    rewrite (insert_level h gl D k k n n Hn L ltac:(lia) Hint).
    destruct (classify h n) as [[key value] h1].
    eexists. split; [reflexivity|]. split; [reflexivity | exact I].
Qed.

Lemma built_leaf (h h1 : Heap) (D : Directory) (n : bytes) (v : Value)
    (T : Shape) :
  (D < length h)%nat -> get (entries h D) n = None ->
  (exists ext, h1 = h ++ ext) ->
  rep (length h) (length h1) (store h1 D n v) v T ->
  built h D n T (store h1 D n v).
Proof.
  intros HD Hfresh [ext ->] R.
  destruct (store_frame h ext D n v HD) as (Hlen & Hother & _).
  split; [exact Hlen|]. split; [exact Hother|]. exists v. split.
  - unfold store. rewrite entries_update_same by (rewrite length_app; lia).
    unfold entries at 1. rewrite app_nth1 by exact HD.
    fold (entries h D). now apply set_fresh.
  - unfold store in *. now rewrite length_update in *.
Qed.

Lemma forest_items_cons (k : Z) (m : bytes) (C : Shape)
    (F : list (bytes * Shape)) :
  forest_items k ((m, C) :: F)
  = (k, pname m C) :: forest_items (k + 1) (children C) ++ forest_items k F.
Proof.
  unfold forest_items at 1. cbn [flat_map]. now rewrite tree_items_cons.
Qed.

Lemma rep_forest_widen (lo lo' hi : nat) (h : Heap)
    (F : list (bytes * Shape)) (es : Entries) :
  (lo' <= lo)%nat -> rep_forest lo hi h F es -> rep_forest lo' hi h F es.
Proof.
  intros Hlo R. unfold rep_forest in *.
  induction R as [|c e F es [E Rc] R IH]; constructor; [|exact IH].
  split; [exact E|].
  now apply (rep_change lo hi lo' hi h h Hlo (Nat.le_refl hi)).
Qed.

(** Sibling after sibling: the listing of a forest adds its trees, in
    order, to the current directory. *)
Lemma builds_forest :
  forall F' m C,
    builds C -> Forall (fun c => builds (snd c)) F' ->
    forall (k : Z) (h : Heap) (gl : list Directory) (D : Directory)
           (next : option Item),
      wellnamed_forest ((m, C) :: F') ->
      Z.of_nat (length gl) = k + 1 -> 0 <= k ->
      Forall (fun c => int (k + Z.of_nat (height (snd c)) + 1))
             ((m, C) :: F') ->
      (D < length h)%nat ->
      Forall (fun c => get (entries h D) (fst c) = None) ((m, C) :: F') ->
      next_ok k next ->
      exists f',
        feed_seq (head h gl D k (pname m C))
                 (tl (forest_items k ((m, C) :: F'))) next = Some f'
        /\ built_forest h D ((m, C) :: F') (heap f')
        /\ arrives f' gl D next.
Proof.
  induction F' as [|[m2 C2] F'' IH];
    intros m C HC HF k h gl D next [Hnd Hwn] L Hk Hint HD Hfresh Hnext;
    inversion Hwn as [|? ? (Hm & Hs & HwC) Hwn']; subst;
    inversion Hint as [|? ? HintC Hint']; subst;
    inversion Hfresh as [|? ? HfC Hfresh']; subst;
    cbn [fst snd] in *; rewrite forest_items_cons; cbn [tl].
  - unfold forest_items at 2. cbn [flat_map]. rewrite app_nil_r.
    destruct (HC k m h gl D next HwC Hm Hs L Hk HintC HD HfC Hnext)
      as (f' & Hrun & (Hlen & Hother & v & Hent & Hrep) & Harr).
    exists f'. split; [exact Hrun|]. split; [|exact Harr].
    split; [exact Hlen|]. split; [exact Hother|].
    exists [(m, v)]. split; [exact Hent|].
    constructor; [now split | constructor].
  - inversion HF as [|? ? HC2 HF'']; subst. cbn [snd] in HC2.
    destruct (HC k m h gl D (Some (k, pname m2 C2)) HwC Hm Hs L Hk HintC HD
                 HfC ltac:(cbn; lia))
      as (f1 & Hrun1 & (Hlen1 & Hother1 & v & Hent1 & Hrep1) & Harr1).
    cbn [arrives] in Harr1.
    rewrite (cut_same gl D k L Hk) in Harr1. cbn [fst snd] in Harr1.
    assert (Hnd' : NoDup (map fst ((m2, C2) :: F'')))
      by (inversion Hnd; assumption).
    assert (Hnotin : ~ In m (map fst ((m2, C2) :: F'')))
      by (inversion Hnd; assumption).
    assert (Hfresh1 : Forall (fun c => get (entries (heap f1) D) (fst c) = None)
                             ((m2, C2) :: F'')).
    { apply Forall_forall. intros c Hc. rewrite Hent1.
      apply get_snoc_none.
      - exact (proj1 (Forall_forall _ _) Hfresh' c Hc).
      - intros ->. apply Hnotin. now apply in_map. }
    destruct (IH m2 C2 HC2 HF'' k (heap f1) gl D next
                (conj Hnd' Hwn') L Hk Hint' ltac:(lia) Hfresh1 Hnext)
      as (f' & Hrun & (Hlen & Hother & es & Hent & Hrep) & Harr).
    rewrite (forest_items_cons k m2 C2 F'') in Hrun. cbn [tl] in Hrun.
    exists f'. split.
    { rewrite (forest_items_cons k m2 C2 F''), feed_seq_app.
      match goal with
      | |- match ?X with _ => _ end = _ =>
          replace X with (Some f1) by (symmetry; exact Hrun1)
      end.
      rewrite Harr1. exact Hrun. }
    split; [|exact Harr].
    split; [lia|]. split.
    + intros d Hd Hne. rewrite (Hother d ltac:(lia) Hne). now apply Hother1.
    + exists ((m, v) :: es). split.
      * rewrite Hent, Hent1, <- app_assoc. reflexivity.
      * constructor.
        -- split; [reflexivity|]. cbn [snd].
           apply (rep_change (length h) (length (heap f1)) (length h)
                             (length (heap f')) (heap f1) (heap f'));
             [lia | lia | | exact Hrep1].
           intros d Hd. apply Hother; lia.
        -- apply (rep_forest_widen (length (heap f1))); [lia | exact Hrep].
Qed.

Lemma feed_seq_cons (f : Frame) (x : Item) (b : list Item)
    (next : option Item) :
  feed_seq f (x :: b) next
  = match feed f x with
    | Some f1 => feed_seq f1 b next
    | None => None
    end.
Proof. unfold feed_seq. cbn [feed_all]. now destruct (feed f x). Qed.

Lemma height_child (cs : list (bytes * Shape)) (c : bytes * Shape) :
  In c cs -> (S (height (snd c)) <= height (SDir cs))%nat.
Proof.
  cbn [height]. intros Hin. apply le_n_S.
  induction cs as [|c' cs IH]; [destruct Hin|].
  cbn [fold_right]. destruct Hin as [->|Hin]; [lia|].
  specialize (IH Hin). lia.
Qed.

Lemma int_below (a b : Z) : 0 <= a <= b -> int b -> int a.
Proof. unfold int. lia. Qed.

(** Every well-named tree is built by its listing. *)
Lemma builds_all : forall T, builds T.
Proof.
  induction T as [|cs IH] using Shape_forest_ind;
    intros k n h gl D next Hw Hn Hs L Hk Hint HD Hfresh Hnext.
  - cbn [pname children forest_items flat_map height] in *.
    assert (Hint1 : int (k + 1)) by (unfold int in *; lia).
    destruct (last_step h gl D k n next Hn L Hk Hint1 Hnext)
      as (f' & Hrun & Hheap & Harr).
    exists f'. split; [exact Hrun|]. split; [|exact Harr].
    rewrite Hheap, (classify_file h n Hs).
    apply built_leaf;
      [exact HD | exact Hfresh | exists []; now rewrite app_nil_r | exact I].
  - destruct cs as [|[m C] cs'].
    + cbn [pname children forest_items flat_map height fold_right] in *.
      assert (Hn' : n ++ [x2f] <> []) by (destruct n; discriminate).
      assert (Hint1 : int (k + 1)) by (unfold int in *; lia).
      destruct (last_step h gl D k (n ++ [x2f]) next Hn' L Hk Hint1 Hnext)
        as (f' & Hrun & Hheap & Harr).
      exists f'. split; [exact Hrun|]. split; [|exact Harr].
      rewrite Hheap, (classify_dir h n Hs).
      apply built_leaf; [exact HD | exact Hfresh | now exists [[]] |].
      apply rep_dir. split; [rewrite length_app; simpl; lia|].
      unfold store. rewrite entries_update_other by lia.
      pose proof (entries_alloc_new h) as E. cbn [alloc fst snd] in E.
      rewrite E. constructor.
    + cbn [pname children]. rewrite forest_items_cons, feed_seq_cons.
      unfold feed, head. cbn [heap dir glob prevName prevDepth fst snd].
      rewrite (insert_deeper h gl D k n (pname m C) Hn Hs).
      unfold advance. cbn [heap dir glob name depth].
      set (d0 := length h). set (h1 := store (h ++ [[]]) D n (Dir d0)).
      apply wellnamed_dir in Hw.
      inversion IH as [|? ? HC HF]; subst. cbn [snd] in HC.
      assert (Lh1 : length h1 = S (length h)).
      { unfold h1, store. rewrite length_update, length_app. simpl. lia. }
      assert (Hd0 : entries h1 d0 = []).
      { unfold h1, store. rewrite entries_update_other by (unfold d0; lia).
        apply (entries_alloc_new h). }
      assert (HintF : Forall (fun c => int (k + 1 + Z.of_nat (height (snd c)) + 1))
                             ((m, C) :: cs')).
      { apply Forall_forall. intros c Hc. apply height_child in Hc.
        eapply int_below; [|exact Hint]. lia. }
      assert (HfreshF : Forall (fun c => get (entries h1 d0) (fst c) = None)
                               ((m, C) :: cs')).
      { apply Forall_forall. intros c _. now rewrite Hd0. }
      assert (Hnext' : next_ok (k + 1) next).
      { destruct next as [[nd nn]|]; cbn [next_ok] in *; [lia | exact I]. }
      destruct (builds_forest cs' m C HC HF (k + 1) h1 (gl ++ [D]) d0 next Hw
                  ltac:(rewrite length_app; simpl; lia) ltac:(lia) HintF
                  ltac:(unfold d0; lia) HfreshF Hnext')
        as (f' & Hrun & (Hlen & Hother & es & Hent & Hrep) & Harr).
      rewrite forest_items_cons in Hrun. cbn [tl] in Hrun.
      exists f'. split; [exact Hrun|]. split.
      * destruct (store_frame h [[]] D n (Dir d0) HD) as (_ & Hother0 & _).
        fold h1 in Hother0.
        split; [lia|]. split.
        -- intros d Hd Hne.
           rewrite (Hother d ltac:(lia) ltac:(unfold d0; lia)).
           now apply Hother0.
        -- exists (Dir d0). split.
           ++ rewrite (Hother D ltac:(lia) ltac:(unfold d0; lia)).
              unfold h1, store.
              rewrite entries_update_same by (rewrite length_app; lia).
              unfold entries at 1. rewrite app_nth1 by exact HD.
              fold (entries h D). now apply set_fresh.
           ++ apply rep_dir. split; [unfold d0; lia|].
              rewrite Hent, Hd0. cbn [app].
              apply (rep_forest_widen (length h1)); [lia | exact Hrep].
      * destruct next as [[nd nn]|]; [|exact I]. cbn [arrives next_ok] in *.
        now rewrite (cut_push gl D d0 k nd L Hnext) in Harr.
Qed.

(** The loop on a stream of parsed lines is the fold of [feed] over
    their items, closed by the insertion at the end of the stream. *)
Lemma run_items (ct : CustomTree) (fs : Directory) (e : error) :
  forall ls its f,
    Forall2 (parsed_line ct) ls its ->
    run ct fs f (mkReader (unlines ls) e)
    = match feed_seq f its None with
      | Some f2 => Return (heap f2) fs None (mkReader [] e)
      | None => Panic
      end.
Proof.
  induction ls as [|l ls IH]; intros its f Hp.
  - inversion Hp; subst. rewrite run_step.
    unfold iteration, readLine, ReadBytes, feed_seq.
    cbn [unlines map concat data fail splitLine feed_all].
    change (TrimSpace []) with (@nil byte). cbn [length Nat.eqb].
    destruct (insertPrev f); reflexivity.
  - inversion Hp as [|? it ? its' (Nl & Nb & Hct) Hp']; subst.
    unfold unlines in *. cbn [map concat]. rewrite <- app_assoc. cbn [app].
    rewrite run_step, (iteration_app ct f l _ e Nl).
    unfold iteration, readLine, ReadBytes. cbn [data fail].
    rewrite (splitLine_app l [] Nl).
    assert (B : (length (TrimSpace (l ++ [x0a])) =? 0)%nat = false)
      by (apply Nat.eqb_neq; destruct (TrimSpace (l ++ [x0a]));
          [contradiction | discriminate]).
    rewrite B. destruct (ct (TrimRightSpace (l ++ [x0a]))) as [[d n] err].
    cbn [fst]. rewrite feed_seq_cons. unfold feed. cbn [fst snd].
    destruct (insertPrev _) as [f2|]; [|reflexivity].
    assert (L : (length (l ++ [x0a]) =? 0)%nat = false)
      by (apply Nat.eqb_neq; rewrite length_app; simpl; lia).
    rewrite L. apply IH, Hp'.
Qed.

(** The fold over the listing of a forest, from the push of the root
    to the end of the stream. *)
Lemma listing_builds (root : Directory) (h : Heap)
    (F : list (bytes * Shape)) :
  (root < length h)%nat ->
  entries h root = [] ->
  wellnamed (SDir F) ->
  int (Z.of_nat (height (SDir F))) ->
  exists f',
    feed_seq (start h root) (forest_items 0 F) None = Some f'
    /\ (forall fuel, (height (SDir F) <= fuel)%nat ->
                     shape fuel (heap f') (Dir root) = SDir F)
    /\ (forall d, (d < length h)%nat -> d <> root ->
                  entries (heap f') d = entries h d).
Proof.
  intros Hr He Hw Hint.
  destruct F as [|[m C] F'].
  - exists (start h root). split; [reflexivity|]. split; [|reflexivity].
    intros [|fuel] Hf; [cbn in Hf; lia|]. cbn [shape start heap].
    now rewrite He.
  - rewrite forest_items_cons, feed_seq_cons.
    assert (HB : Forall (fun c => builds (snd c)) F')
      by (apply Forall_forall; intros c _; apply builds_all).
    assert (HintF : Forall (fun c => int (0 + Z.of_nat (height (snd c)) + 1))
                           ((m, C) :: F')).
    { apply Forall_forall. intros c Hc. apply height_child in Hc.
      eapply int_below; [|exact Hint]. lia. }
    assert (Hfresh : Forall (fun c => get (entries h root) (fst c) = None)
                            ((m, C) :: F')).
    { apply Forall_forall. intros c _. now rewrite He. }
    destruct (builds_forest F' m C (builds_all C) HB 0 h [root] root None
                (proj1 (wellnamed_dir _) Hw) eq_refl ltac:(lia) HintF Hr
                Hfresh I)
      as (f' & Hrun & (Hlen & Hother & es & Hent & Hrep) & _).
    rewrite forest_items_cons in Hrun. cbn [tl] in Hrun.
    exists f'. split; [exact Hrun|]. split; [|exact Hother].
    intros fuel Hf.
    apply (rep_shape 0 (length (heap f')) (heap f')); [|exact Hf].
    apply rep_dir. split; [lia|]. rewrite Hent, He. cbn [app].
    apply (rep_forest_widen (length h)); [lia | exact Hrep].
Qed.

(** X14.  A listing builds its tree.  When the lines of the body are
    parsed as the listing of a forest (a file as its name, an empty
    directory as its name with a slash, any other directory as its name
    followed by its children one level deeper; names not empty, without
    trailing slash, distinct among siblings), the loop returns without
    error, the root directory, empty before, holds exactly that forest,
    children in the order of their lines, and no other directory that
    existed has changed. *)
Theorem run_listing (ct : CustomTree) (fs root : Directory) (e : error)
    (h : Heap) (ls : list bytes) (F : list (bytes * Shape)) :
  (root < length h)%nat ->
  entries h root = [] ->
  wellnamed (SDir F) ->
  int (Z.of_nat (height (SDir F))) ->
  Forall2 (parsed_line ct) ls (forest_items 0 F) ->
  exists h',
    run ct fs (start h root) (mkReader (unlines ls) e)
    = Return h' fs None (mkReader [] e)
    /\ (forall fuel, (height (SDir F) <= fuel)%nat ->
                     shape fuel h' (Dir root) = SDir F)
    /\ (forall d, (d < length h)%nat -> d <> root ->
                  entries h' d = entries h d).
Proof.
  intros Hr He Hw Hint Hp. rewrite (run_items ct fs e ls _ _ Hp).
  destruct (listing_builds root h F Hr He Hw Hint)
    as (f' & Hrun & Hshape & Hother).
  rewrite Hrun. exists (heap f'). split; [reflexivity|].
  split; [exact Hshape | exact Hother].
Qed.

Lemma run_listing_witness :
  exists h',
    run Tab 0%nat (start [[]] 0%nat)
      (mkReader (unlines [lit "src"; [x09] ++ lit "main.go";
                          [x09] ++ lit "pkg"; [x09; x09] ++ lit "a.go";
                          lit "empty/"; lit "README"]) EOF)
    = Return h' 0%nat None (mkReader [] EOF)
    /\ shape 3 h' (Dir 0%nat)
       = SDir [(lit "src",
                SDir [(lit "main.go", SFile);
                      (lit "pkg", SDir [(lit "a.go", SFile)])]);
               (lit "empty", SDir []);
               (lit "README", SFile)].
Proof.
  destruct (run_listing Tab 0%nat 0%nat EOF [[]]
              [lit "src"; [x09] ++ lit "main.go";
               [x09] ++ lit "pkg"; [x09; x09] ++ lit "a.go";
               lit "empty/"; lit "README"]
              [(lit "src",
                SDir [(lit "main.go", SFile);
                      (lit "pkg", SDir [(lit "a.go", SFile)])]);
               (lit "empty", SDir []);
               (lit "README", SFile)])
    as (h' & Hrun & Hshape & _).
  - simpl. lia.
  - reflexivity.
  - cbn. repeat split; try discriminate;
      repeat constructor; cbn; intuition discriminate.
  - unfold int. cbn. lia.
  - repeat constructor; vm_compute; intuition discriminate.
  - exists h'. split; [exact Hrun|]. apply Hshape. cbn. lia.
Defined.

(** ** Tab listings *)

Lemma spaceSuffix_final (b : byte) (r : bytes) :
  space_final b = false -> spaceSuffix (b :: r) = None.
Proof.
  intros H. unfold spaceSuffix.
  destruct b; try discriminate H; reflexivity.
Qed.

Lemma last_app_nonempty (s t : bytes) :
  t <> [] -> last (s ++ t) x00 = last t x00.
Proof.
  intros Ht. induction s as [|a s IH]; [reflexivity|].
  cbn [app]. rewrite <- IH.
  destruct (s ++ t) eqn:E; [|reflexivity].
  apply app_eq_nil in E as [_ E]. contradiction.
Qed.

Lemma allspace_last (s : bytes) :
  allspace s -> s <> [] -> space_final (last s x00) = true.
Proof.
  induction 1 as [|q s Hq Hs IH]; intros Hne; [now elim Hne|].
  destruct s as [|a s'].
  - rewrite app_nil_r. unfold space_final. apply existsb_exists.
    exists q. split; [exact Hq | now apply byte_eqb_eq].
  - rewrite last_app_nonempty by discriminate. apply IH. discriminate.
Qed.

Lemma occurrences_tabs (k : nat) (n : bytes) :
  ~ In x09 n -> occurrences (repeat x09 k ++ n) [x09] = k.
Proof.
  intros Hn. induction k as [|k IH].
  - now apply occurrences_absent.
  - cbn [repeat app occurrences HasPrefix]. rewrite HasPrefix_nil, IH.
    reflexivity.
Qed.

(** [Tab] reads a line of a tab listing as the item it stands for. *)
Lemma parsed_line_tab (k : Z) (n : bytes) :
  0 <= k -> plain n -> parsed_line Tab (tab_line (k, n)) (k, n).
Proof.
  intros Hk (Nnl & Ntab & Nne & Hfin). unfold tab_line. cbn [fst snd].
  set (line := repeat x09 (Z.to_nat k) ++ n).
  assert (Hlast : last line x00 = last n x00)
    by (apply last_app_nonempty; exact Nne).
  assert (Hline : line <> []).
  { unfold line. intros E. apply app_eq_nil in E as [_ E]. contradiction. }
  split; [|split].
  - unfold line. intros H. apply in_app_or in H as [H|H]; [|contradiction].
    apply repeat_spec in H. discriminate.
  - intros E. apply TrimSpace_blank in E.
    pose proof (allspace_newline _ E line eq_refl) as A.
    apply allspace_last in A; [|exact Hline]. congruence.
  - rewrite TrimRightSpace_newline.
    assert (T : TrimRightSpace line = line).
    { unfold TrimRightSpace.
      destruct (exists_last Hline) as [s [b Es]].
      rewrite Es in Hlast |- *. rewrite last_last in Hlast.
      rewrite rev_app_distr, length_app. cbn [rev app length].
      rewrite Nat.add_comm. cbn [Nat.add trimRev_fuel].
      rewrite spaceSuffix_final by congruence.
      cbn [rev]. now rewrite rev_involutive. }
    rewrite T. unfold Tab, from. cbn [fst].
    rewrite Count_occurrences by apply unbordered_single.
    unfold line. rewrite occurrences_tabs by exact Ntab.
    rewrite Nat2Z.id, Z2Nat.id by exact Hk. f_equal.
    rewrite skipn_app, repeat_length, Nat.sub_diag.
    rewrite skipn_all2 by (rewrite repeat_length; lia). reflexivity.
Qed.

Lemma forest_items_depth :
  forall T k n, Forall (fun it : Item => k <= fst it) (tree_items k n T).
Proof.
  induction T as [|cs IH] using Shape_forest_ind; intros k n.
  - constructor; [cbn; lia | constructor].
  - destruct cs as [|c cs']; [constructor; [cbn; lia | constructor]|].
    rewrite tree_items_cons. constructor; [cbn; lia|].
    cbn [children]. unfold forest_items.
    induction IH as [|[m C] cs0 HC _ IHcs]; [constructor|].
    cbn [flat_map]. apply Forall_app. split; [|exact IHcs].
    cbn [snd] in HC. eapply Forall_impl; [|apply (HC (k + 1) m)].
    intros it Hit. cbn beta in Hit. lia.
Qed.

Lemma forest_items_nonneg (F : list (bytes * Shape)) (k : Z) :
  Forall (fun it : Item => k <= fst it) (forest_items k F).
Proof.
  unfold forest_items. induction F as [|[m C] F' IH]; [constructor|].
  cbn [flat_map]. apply Forall_app. split; [apply forest_items_depth | exact IH].
Qed.

(** Every line of a tab listing with plain names is read by [Tab] as
    its item. *)
Lemma tab_lines_parsed (F : list (bytes * Shape)) :
  Forall (fun it : Item => plain (snd it)) (forest_items 0 F) ->
  Forall2 (parsed_line Tab) (tab_lines F) (forest_items 0 F).
Proof.
  intros Hplain. pose proof (forest_items_nonneg F 0) as Hd.
  unfold tab_lines. revert Hplain Hd. generalize (forest_items 0 F) as its.
  induction its as [|[k n] its IH]; intros Hplain Hd; [constructor|].
  inversion Hplain; subst. inversion Hd; subst.
  constructor; [now apply parsed_line_tab | now apply IH].
Qed.

(** X15.  [Tab] reads back what a tab listing says: for every forest
    of well-named trees whose listed names are plain (no tab or
    newline, not ending in white space), the loop run by [Tab] on the
    tab listing returns without error and leaves exactly that forest
    in the root directory, empty before. *)
Theorem Tab_listing (fs root : Directory) (e : error) (h : Heap)
    (F : list (bytes * Shape)) :
  (root < length h)%nat ->
  entries h root = [] ->
  wellnamed (SDir F) ->
  int (Z.of_nat (height (SDir F))) ->
  Forall (fun it : Item => plain (snd it)) (forest_items 0 F) ->
  exists h',
    run Tab fs (start h root) (mkReader (unlines (tab_lines F)) e)
    = Return h' fs None (mkReader [] e)
    /\ (forall fuel, (height (SDir F) <= fuel)%nat ->
                     shape fuel h' (Dir root) = SDir F)
    /\ (forall d, (d < length h)%nat -> d <> root ->
                  entries h' d = entries h d).
Proof.
  intros Hr He Hw Hint Hplain.
  rewrite (run_items Tab fs e _ _ _ (tab_lines_parsed F Hplain)).
  destruct (listing_builds root h F Hr He Hw Hint)
    as (f' & Hrun & Hshape & Hother).
  rewrite Hrun. exists (heap f'). split; [reflexivity|].
  split; [exact Hshape | exact Hother].
Qed.

Lemma Tab_listing_witness :
  exists h',
    run Tab 0%nat (start [[]] 0%nat)
      (mkReader (lit "dir" ++ [x0a] ++ [x09] ++ lit "file.txt" ++ [x0a]
                 ++ lit "empty/" ++ [x0a]) EOF)
    = Return h' 0%nat None (mkReader [] EOF)
    /\ shape 2 h' (Dir 0%nat)
       = SDir [(lit "dir", SDir [(lit "file.txt", SFile)]);
               (lit "empty", SDir [])].
Proof.
  destruct (Tab_listing 0%nat 0%nat EOF [[]]
              [(lit "dir", SDir [(lit "file.txt", SFile)]);
               (lit "empty", SDir [])])
    as (h' & Hrun & Hshape & _).
  - simpl. lia.
  - reflexivity.
  - cbn. repeat split; try discriminate;
      repeat constructor; cbn; intuition discriminate.
  - unfold int. cbn. lia.
  - repeat constructor; vm_compute; intuition discriminate.
  - exists h'. split; [exact Hrun|]. apply Hshape. cbn. lia.
Defined.

(** ** From the first line to the tree *)

(** X16.  [TabTree] end to end: on a buffer made of a root line and the
    tab listing of a forest with plain, well-chosen names, if the
    collaborator creates and finds the root path as a directory that is
    empty, [TabTree] returns without error a result in which that
    directory holds exactly the forest, every other directory being as
    the collaborator left it. *)
Theorem TabTree_listing (c : Collab) (first : bytes) (h1 : Heap)
    (d : Directory) (F : list (bytes * Shape)) :
  ~ In x0a first ->
  MkdirAll c [[]] 0%nat (TrimSpace (first ++ [x0a])) = (h1, None) ->
  lookup c h1 0%nat (TrimSpace (first ++ [x0a])) = (d, None) ->
  (d < length h1)%nat ->
  entries h1 d = [] ->
  wellnamed (SDir F) ->
  int (Z.of_nat (height (SDir F))) ->
  Forall (fun it : Item => plain (snd it)) (forest_items 0 F) ->
  exists h',
    TabTree c (first ++ x0a :: unlines (tab_lines F))
    = Return h' 0%nat None (mkReader [] EOF)
    /\ (forall fuel, (height (SDir F) <= fuel)%nat ->
                     shape fuel h' (Dir d) = SDir F)
    /\ (forall d', (d' < length h1)%nat -> d' <> d ->
                   entries h' d' = entries h1 d').
Proof.
  intros Nf M K Hd He Hw Hint Hplain. unfold TabTree.
  assert (R : ReadBytes (NewReader (first ++ x0a :: unlines (tab_lines F)))
              = (first ++ [x0a], None, mkReader (unlines (tab_lines F)) EOF)).
  { unfold ReadBytes, NewReader. cbn [data fail].
    now rewrite (splitLine_app first _ Nf). }
  pose proof (Tree_root c Tab _ _ _ R) as T. cbv zeta in T.
  rewrite M, K in T. rewrite T.
  fold (run Tab 0%nat (start h1 d) (mkReader (unlines (tab_lines F)) EOF)).
  rewrite (run_items Tab 0%nat EOF _ _ _ (tab_lines_parsed F Hplain)).
  destruct (listing_builds d h1 F Hd He Hw Hint)
    as (f' & Hrun & Hshape & Hother).
  rewrite Hrun. exists (heap f'). split; [reflexivity|].
  split; [exact Hshape | exact Hother].
Qed.

Lemma TabTree_listing_witness :
  exists h',
    TabTree Memfs.fs
      (lit "a/b" ++ x0a :: lit "dir" ++ [x0a] ++ [x09] ++ lit "file.txt"
       ++ [x0a])
    = Return h' 0%nat None (mkReader [] EOF)
    /\ shape 4 h' (Dir 0%nat)
       = SDir [(lit "a",
                SDir [(lit "b",
                       SDir [(lit "dir",
                              SDir [(lit "file.txt", SFile)])])])].
Proof.
  destruct (TabTree_listing Memfs.fs (lit "a/b")
              [[(lit "a", Dir 1%nat)]; [(lit "b", Dir 2%nat)]; []] 2%nat
              [(lit "dir", SDir [(lit "file.txt", SFile)])])
    as (h' & Hrun & Hshape & Hother).
  - vm_compute. intuition discriminate.
  - vm_compute. reflexivity.
  - vm_compute. reflexivity.
  - simpl. lia.
  - reflexivity.
  - cbn. repeat split; try discriminate;
      repeat constructor; cbn; intuition discriminate.
  - unfold int. cbn. lia.
  - repeat constructor; vm_compute; intuition discriminate.
  - exists h'. split; [exact Hrun|].
    pose proof (Hshape 2%nat ltac:(cbn; lia)) as S2.
    pose proof (Hother 0%nat ltac:(simpl; lia) ltac:(lia)) as E0.
    pose proof (Hother 1%nat ltac:(simpl; lia) ltac:(lia)) as E1.
    change (shape 4 h' (Dir 0%nat))
      with (SDir (map (fun kv => (fst kv,
              match snd kv with
              | File => SFile
              | Dir d1 =>
                  SDir (map (fun kv' => (fst kv', shape 2 h' (snd kv')))
                            (entries h' d1))
              end)) (entries h' 0%nat))).
    rewrite E0. cbn [entries nth map fst snd]. fold (entries h' 1%nat).
    rewrite E1. cbn [entries nth map fst snd]. now rewrite S2.
Defined.

(** ** Listings in the format of [tree] *)

Lemma glyphs_unit (u rest : bytes) :
  In u unix_units -> glyphs (u ++ rest) = (4 + glyphs rest)%nat.
Proof.
  intros Hin. unfold unix_units in Hin. cbn [In] in Hin.
  unfold glyphs, boxSpace, boxHardSpace, boxVertical in *.
  repeat (destruct Hin as [<-|Hin];
          [cbn; rewrite ?HasPrefix_nil; cbn; lia|]).
  destruct Hin.
Qed.

Lemma glyphs_connector (conn rest : bytes) :
  In conn unix_connectors -> glyphs (conn ++ rest) = (1 + glyphs rest)%nat.
Proof.
  intros Hin. unfold unix_connectors in Hin. cbn [In] in Hin.
  unfold glyphs, boxSpace, boxHardSpace, boxVertical, boxVerticalRight,
    boxUpRight, boxHorizontal in *.
  repeat (destruct Hin as [<-|Hin];
          [cbn; rewrite ?HasPrefix_nil; cbn; lia|]).
  destruct Hin.
Qed.

Lemma glyphs_units (units : list bytes) (rest : bytes) :
  Forall (fun u => In u unix_units) units ->
  glyphs (concat units ++ rest) = (4 * length units + glyphs rest)%nat.
Proof.
  induction 1 as [|u units Hu _ IH]; [reflexivity|].
  cbn [concat length]. rewrite <- app_assoc, (glyphs_unit u _ Hu), IH. lia.
Qed.

(** A line whose last byte ends no white-space rune is handed to the
    parser as it is. *)
Lemma line_passed (line : bytes) :
  line <> [] -> space_final (last line x00) = false ->
  TrimSpace (line ++ [x0a]) <> [] /\ TrimRightSpace (line ++ [x0a]) = line.
Proof.
  intros Hline Hfin. split.
  - intros E. apply TrimSpace_blank in E.
    pose proof (allspace_newline _ E line eq_refl) as A.
    apply allspace_last in A; [|exact Hline]. congruence.
  - rewrite TrimRightSpace_newline. unfold TrimRightSpace.
    destruct (exists_last Hline) as [s [b Es]].
    rewrite Es in Hfin |- *. rewrite last_last in Hfin.
    rewrite rev_app_distr, length_app. cbn [rev app length].
    rewrite Nat.add_comm. cbn [Nat.add trimRev_fuel].
    rewrite spaceSuffix_final by exact Hfin.
    cbn [rev]. now rewrite rev_involutive.
Qed.

Lemma connector_split (conn : bytes) :
  In conn unix_connectors ->
  exists corner, conn = corner ++ boxHorizontal ++ boxHorizontal ++ [x20]
                 /\ ~ In x0a conn.
Proof.
  intros Hin. unfold unix_connectors in Hin. cbn [In] in Hin.
  destruct Hin as [<-|[<-|[]]]; eexists; (split; [reflexivity|]);
    vm_compute; intuition discriminate.
Qed.

Lemma units_no_newline (units : list bytes) :
  Forall (fun u => In u unix_units) units -> ~ In x0a (concat units).
Proof.
  induction 1 as [|u units Hu _ IH]; [intros []|].
  cbn [concat]. intros H. apply in_app_or in H as [H|H]; [|contradiction].
  unfold unix_units in Hu. cbn [In] in Hu.
  destruct Hu as [<-|[<-|[<-|[]]]]; vm_compute in H; intuition discriminate.
Qed.

(** [Unix] reads a line of [tree] output as the item it stands for. *)
Lemma parsed_line_unix (l : bytes) (k : Z) (n : bytes) :
  unix_line l (k, n) -> unix_plain n -> parsed_line Unix l (k, n).
Proof.
  intros (units & conn & Hu & Hk & Hc & ->) (Nnl & Nne & Hfin & Hg & Hno).
  cbn [fst snd] in *.
  destruct (connector_split conn Hc) as (corner & Econn & Cnl).
  set (line := concat units ++ conn ++ n).
  assert (Hline : line <> []).
  { unfold line. intros E. apply app_eq_nil in E as [_ E].
    apply app_eq_nil in E as [_ E]. contradiction. }
  assert (Hlast : last line x00 = last n x00).
  { unfold line. rewrite app_assoc. now apply last_app_nonempty. }
  destruct (line_passed line Hline ltac:(congruence)) as [Hnb Htrim].
  split; [|split; [exact Hnb|]].
  - unfold line. intros H. apply in_app_or in H as [H|H].
    + now apply (units_no_newline units Hu).
    + apply in_app_or in H as [H|H]; contradiction.
  - rewrite Htrim.
    assert (Eline : line = (concat units ++ corner ++ boxHorizontal)
                           ++ boxHorizontal ++ [] ++ x20 :: n).
    { unfold line. rewrite Econn. now rewrite <- !app_assoc. }
    assert (G : glyphs line = (4 * length units + (1 + glyphs n))%nat).
    { unfold line. now rewrite (glyphs_units _ _ Hu), (glyphs_connector _ _ Hc). }
    rewrite Eline, Unix_complete.
    + cbn [fst]. rewrite <- Eline, G. f_equal.
      rewrite Z.quot_div_nonneg by lia. symmetry.
      apply (Z.div_unique _ 4 k (1 + Z.of_nat (glyphs n))); lia.
    + split.
      * unfold occurs_at. rewrite skipn_app, Nat.sub_diag, skipn_all.
        cbn [app skipn]. apply HasPrefix_iff. now eexists.
      * intros j Hj Hocc. unfold occurs_at in Hocc.
        rewrite skipn_app in Hocc.
        rewrite skipn_all2 in Hocc by lia. cbn [app] in Hocc.
        set (pre := concat units ++ corner ++ boxHorizontal) in *.
        destruct (j - length pre)%nat as [|[|[|[|i]]]] eqn:Ej; try lia;
          try (vm_compute in Hocc; discriminate).
        cbn [skipn boxHorizontal app] in Hocc. apply (Hno i). exact Hocc.
    + intros [].
Qed.

Lemma unix_lines_parsed (ls : list bytes) (its : list Item) :
  Forall (fun it : Item => unix_plain (snd it)) its ->
  Forall2 unix_line ls its ->
  Forall2 (parsed_line Unix) ls its.
Proof.
  intros Hplain Hlines. revert Hplain.
  induction Hlines as [|l [k n] ls its Hl _ IH]; intros Hplain; [constructor|].
  inversion Hplain; subst.
  constructor; [now apply parsed_line_unix | now apply IH].
Qed.

(** X17.  [Unix] reads back the output of [tree]: when the lines of the
    body are the listing of a forest in the format of [tree] (one
    four-glyph unit per level, a connector, the name), with names that
    [Unix] can read back (at most two spaces or other glyph bytes, no
    horizontal box glyph, not ending in white space), the loop run by
    [Unix] returns without error and leaves exactly that forest in the
    root directory, empty before. *)
Theorem Unix_listing (fs root : Directory) (e : error) (h : Heap)
    (ls : list bytes) (F : list (bytes * Shape)) :
  (root < length h)%nat ->
  entries h root = [] ->
  wellnamed (SDir F) ->
  int (Z.of_nat (height (SDir F))) ->
  Forall (fun it : Item => unix_plain (snd it)) (forest_items 0 F) ->
  Forall2 unix_line ls (forest_items 0 F) ->
  exists h',
    run Unix fs (start h root) (mkReader (unlines ls) e)
    = Return h' fs None (mkReader [] e)
    /\ (forall fuel, (height (SDir F) <= fuel)%nat ->
                     shape fuel h' (Dir root) = SDir F)
    /\ (forall d, (d < length h)%nat -> d <> root ->
                  entries h' d = entries h d).
Proof.
  intros Hr He Hw Hint Hplain Hlines.
  rewrite (run_items Unix fs e _ _ _ (unix_lines_parsed _ _ Hplain Hlines)).
  destruct (listing_builds root h F Hr He Hw Hint)
    as (f' & Hrun & Hshape & Hother).
  rewrite Hrun. exists (heap f'). split; [reflexivity|].
  split; [exact Hshape | exact Hother].
Qed.

Lemma Unix_listing_witness :
  exists h',
    run Unix 0%nat (start [[]] 0%nat)
      (mkReader
         (unlines
            [boxVerticalRight ++ boxHorizontal ++ boxHorizontal ++ lit " dir";
             boxVertical ++ lit "   " ++ boxUpRight ++ boxHorizontal
             ++ boxHorizontal ++ lit " file.txt";
             boxUpRight ++ boxHorizontal ++ boxHorizontal ++ lit " my notes"])
         EOF)
    = Return h' 0%nat None (mkReader [] EOF)
    /\ shape 2 h' (Dir 0%nat)
       = SDir [(lit "dir", SDir [(lit "file.txt", SFile)]);
               (lit "my notes", SFile)].
Proof.
  destruct (Unix_listing 0%nat 0%nat EOF [[]]
              [boxVerticalRight ++ boxHorizontal ++ boxHorizontal ++ lit " dir";
               boxVertical ++ lit "   " ++ boxUpRight ++ boxHorizontal
               ++ boxHorizontal ++ lit " file.txt";
               boxUpRight ++ boxHorizontal ++ boxHorizontal ++ lit " my notes"]
              [(lit "dir", SDir [(lit "file.txt", SFile)]);
               (lit "my notes", SFile)])
    as (h' & Hrun & Hshape & _).
  - simpl. lia.
  - reflexivity.
  - cbn. repeat split; try discriminate;
      repeat constructor; cbn; intuition discriminate.
  - unfold int. cbn. lia.
  - repeat constructor; try (vm_compute; intuition discriminate);
      try (vm_compute; lia);
      intros j Hj; unfold occurs_at in Hj;
      do 10 (destruct j as [|j]; [vm_compute in Hj; discriminate|]);
      vm_compute in Hj; discriminate.
  - constructor; [|constructor; [|constructor; [|constructor]]].
    + exists [], (boxVerticalRight ++ boxHorizontal ++ boxHorizontal ++ [x20]).
      repeat split; [constructor | vm_compute; tauto].
    + exists [boxVertical ++ [x20; x20; x20]],
        (boxUpRight ++ boxHorizontal ++ boxHorizontal ++ [x20]).
      repeat split; [repeat constructor | vm_compute; tauto].
    + exists [], (boxUpRight ++ boxHorizontal ++ boxHorizontal ++ [x20]).
      repeat split; [constructor | vm_compute; tauto].
  - exists h'. split; [exact Hrun|]. apply Hshape. cbn. lia.
Defined.

(** X18.  [UnixTree] end to end: on a buffer made of a root line and a
    listing in the format of [tree] of a forest with names [Unix] can
    read back, if the collaborator creates and finds the root path as a
    directory that is empty, [UnixTree] returns without error a result
    in which that directory holds exactly the forest, every other
    directory being as the collaborator left it. *)
Theorem UnixTree_listing (c : Collab) (first : bytes) (h1 : Heap)
    (d : Directory) (ls : list bytes) (F : list (bytes * Shape)) :
  ~ In x0a first ->
  MkdirAll c [[]] 0%nat (TrimSpace (first ++ [x0a])) = (h1, None) ->
  lookup c h1 0%nat (TrimSpace (first ++ [x0a])) = (d, None) ->
  (d < length h1)%nat ->
  entries h1 d = [] ->
  wellnamed (SDir F) ->
  int (Z.of_nat (height (SDir F))) ->
  Forall (fun it : Item => unix_plain (snd it)) (forest_items 0 F) ->
  Forall2 unix_line ls (forest_items 0 F) ->
  exists h',
    UnixTree c (first ++ x0a :: unlines ls)
    = Return h' 0%nat None (mkReader [] EOF)
    /\ (forall fuel, (height (SDir F) <= fuel)%nat ->
                     shape fuel h' (Dir d) = SDir F)
    /\ (forall d', (d' < length h1)%nat -> d' <> d ->
                   entries h' d' = entries h1 d').
Proof.
  intros Nf M K Hd He Hw Hint Hplain Hlines. unfold UnixTree.
  assert (R : ReadBytes (NewReader (first ++ x0a :: unlines ls))
              = (first ++ [x0a], None, mkReader (unlines ls) EOF)).
  { unfold ReadBytes, NewReader. cbn [data fail].
    now rewrite (splitLine_app first _ Nf). }
  pose proof (Tree_root c Unix _ _ _ R) as T. cbv zeta in T.
  rewrite M, K in T. rewrite T.
  fold (run Unix 0%nat (start h1 d) (mkReader (unlines ls) EOF)).
  rewrite (run_items Unix 0%nat EOF _ _ _
             (unix_lines_parsed _ _ Hplain Hlines)).
  destruct (listing_builds d h1 F Hd He Hw Hint)
    as (f' & Hrun & Hshape & Hother).
  rewrite Hrun. exists (heap f'). split; [reflexivity|].
  split; [exact Hshape | exact Hother].
Qed.

Lemma UnixTree_listing_witness :
  exists h',
    UnixTree Memfs.fs
      (lit "r" ++ x0a
       :: unlines
            [boxUpRight ++ boxHorizontal ++ boxHorizontal ++ lit " dir";
             lit "    " ++ boxUpRight ++ boxHorizontal ++ boxHorizontal
             ++ lit " file.txt"])
    = Return h' 0%nat None (mkReader [] EOF)
    /\ shape 2 h' (Dir 1%nat)
       = SDir [(lit "dir", SDir [(lit "file.txt", SFile)])].
Proof.
  destruct (UnixTree_listing Memfs.fs (lit "r")
              [[(lit "r", Dir 1%nat)]; []] 1%nat
              [boxUpRight ++ boxHorizontal ++ boxHorizontal ++ lit " dir";
               lit "    " ++ boxUpRight ++ boxHorizontal ++ boxHorizontal
               ++ lit " file.txt"]
              [(lit "dir", SDir [(lit "file.txt", SFile)])])
    as (h' & Hrun & Hshape & _).
  - vm_compute. intuition discriminate.
  - vm_compute. reflexivity.
  - vm_compute. reflexivity.
  - simpl. lia.
  - reflexivity.
  - cbn. repeat split; try discriminate;
      repeat constructor; cbn; intuition discriminate.
  - unfold int. cbn. lia.
  - repeat constructor; try (vm_compute; intuition discriminate);
      try (vm_compute; lia);
      intros j Hj; unfold occurs_at in Hj;
      do 10 (destruct j as [|j]; [vm_compute in Hj; discriminate|]);
      vm_compute in Hj; discriminate.
  - constructor; [|constructor; [|constructor]].
    + exists [], (boxUpRight ++ boxHorizontal ++ boxHorizontal ++ [x20]).
      repeat split; [constructor | vm_compute; tauto].
    + exists [[x20; x20; x20; x20]],
        (boxUpRight ++ boxHorizontal ++ boxHorizontal ++ [x20]).
      repeat split;
        [constructor; [vm_compute; tauto | constructor] | vm_compute; tauto].
  - exists h'. split; [exact Hrun|]. apply Hshape. cbn. lia.
Defined.

(** ** The heap stays a forest *)

Lemma entries_ext (h ext : Heap) (d : Directory) :
  Forall (fun m => m = []) ext -> (length h <= d)%nat ->
  entries (h ++ ext) d = [].
Proof.
  intros He Hd. unfold entries. rewrite app_nth2 by exact Hd.
  generalize (d - length h)%nat as i. induction He as [|m ext -> _ IH];
    intros [|i]; cbn [nth]; auto.
Qed.

(** The heap after an insertion, with what was stored: a file, or a
    directory created by this very step. *)
Lemma insertPrev_stores (f f' : Frame) :
  insertPrev f = Some f' ->
  heap f' = heap f
  \/ exists ext key v,
      heap f' = store (heap f ++ ext) (dir f) key v
      /\ Forall (fun m => m = []) ext
      /\ (v = File
          \/ exists r, v = Dir r
                       /\ (length (heap f) <= r
                           < length (heap f) + length ext)%nat).
Proof.
  unfold insertPrev. destruct (length (prevName f) =? 0)%nat.
  - intros H. injection H as <-. now left.
  - destruct (classify (heap f) (prevName f)) as [[key value] h] eqn:C.
    destruct (transition h (dir f) (glob f) (depth f) (prevDepth f) key value)
      as [[[h' dir'] glob']|] eqn:T; [|discriminate].
    intros H. injection H as <-. cbn [heap]. right.
    apply transition_heap in T.
    unfold classify in C. destruct (HasSuffix (prevName f) [x2f]);
      cbn [alloc] in C; injection C as <- <- <-;
      destruct (depth f >? prevDepth f); cbn [alloc fst snd] in T; subst h'.
    + exists [[]; []], (TrimRightSlash (prevName f)),
        (Dir (length (heap f ++ [[]]))).
      split; [now rewrite <- app_assoc|]. split; [repeat constructor|].
      right. eexists. split; [reflexivity|]. rewrite length_app. simpl. lia.
    + exists [[]], (TrimRightSlash (prevName f)), (Dir (length (heap f))).
      split; [reflexivity|]. split; [repeat constructor|].
      right. eexists. split; [reflexivity|]. simpl. lia.
    + exists [[]], (prevName f), (Dir (length (heap f))).
      split; [reflexivity|]. split; [repeat constructor|].
      right. eexists. split; [reflexivity|]. simpl. lia.
    + exists [], (prevName f), File.
      split; [now rewrite app_nil_r|]. split; [constructor | now left].
Qed.

Lemma store_links (h ext : Heap) (D : Directory) (key : bytes) (v : Value)
    (d : Directory) (k : bytes) (r : Directory) :
  Forall (fun m => m = []) ext ->
  get (entries (store (h ++ ext) D key v) d) k = Some (Dir r) ->
  (d = D /\ k = key /\ v = Dir r) \/ get (entries h d) k = Some (Dir r).
Proof.
  intros He G. unfold store in G.
  destruct (Nat.eq_dec d D) as [->|Nd].
  - destruct (Nat.lt_ge_cases D (length (h ++ ext))) as [Hl|Hl].
    + rewrite entries_update_same in G by exact Hl.
      destruct (bytes_eqb key k) eqn:E.
      * apply bytes_eqb_eq in E. subst k. rewrite get_set_same in G.
        left. injection G as ->. auto.
      * rewrite get_set_other in G
          by (intros ->; now rewrite bytes_eqb_refl in E).
        right. destruct (Nat.lt_ge_cases D (length h)) as [Hh|Hh].
        -- unfold entries in *. now rewrite app_nth1 in G.
        -- now rewrite (entries_ext h ext D He Hh) in G.
    + unfold entries in G. rewrite nth_overflow in G
        by (rewrite length_update; exact Hl).
      discriminate.
  - rewrite entries_update_other in G by congruence. right.
    destruct (Nat.lt_ge_cases d (length h)) as [Hh|Hh].
    + unfold entries in *. now rewrite app_nth1 in G.
    + now rewrite (entries_ext h ext d He Hh) in G.
Qed.

Lemma insertPrev_linked (f f' : Frame) :
  insertPrev f = Some f' -> (dir f < length (heap f))%nat ->
  linked (heap f) -> linked (heap f').
Proof.
  intros I HD [Hrange Hone].
  destruct (insertPrev_stores f f' I) as [->|(ext & key & v & -> & He & Hv)];
    [now split|].
  assert (Hlen : length (store (heap f ++ ext) (dir f) key v)
                 = (length (heap f) + length ext)%nat)
    by (unfold store; now rewrite length_update, length_app).
  split.
  - intros d k r G. rewrite Hlen.
    destruct (store_links _ _ _ _ _ _ _ _ He G) as [(-> & -> & ->)|G'].
    + destruct Hv as [Hv|(r' & Hv & Hr')]; [discriminate|].
      injection Hv as ->. lia.
    + specialize (Hrange d k r G'). lia.
  - intros d1 k1 d2 k2 r G1 G2.
    destruct (store_links _ _ _ _ _ _ _ _ He G1) as [(-> & -> & E1)|G1'];
      destruct (store_links _ _ _ _ _ _ _ _ He G2) as [(-> & -> & E2)|G2'].
    + now split.
    + exfalso. subst v. destruct Hv as [Hv|(r' & Hv & Hr')]; [discriminate|].
      injection Hv as <-. specialize (Hrange d2 k2 r G2'). lia.
    + exfalso. subst v. destruct Hv as [Hv|(r' & Hv & Hr')]; [discriminate|].
      injection Hv as <-. specialize (Hrange d1 k1 r G1'). lia.
    + exact (Hone d1 k1 d2 k2 r G1' G2').
Qed.

Lemma Forall_lt_mono (l : list nat) (a b : nat) :
  (a <= b)%nat -> Forall (fun g => (g < a)%nat) l ->
  Forall (fun g => (g < b)%nat) l.
Proof.
  intros Hab H. eapply Forall_impl; [|exact H]. intros g Hg. cbn beta in *. lia.
Qed.

Lemma firstn_incl {A : Type} (n : nat) (l : list A) (x : A) :
  In x (firstn n l) -> In x l.
Proof.
  revert l. induction n as [|n IH]; intros [|y l] Hx; cbn [firstn] in Hx;
    try contradiction.
  destruct Hx as [->|Hx]; [now left | right; now apply IH].
Qed.

Lemma insertPrev_live (f f' : Frame) :
  insertPrev f = Some f' -> live f -> live f'.
Proof.
  unfold live, insertPrev. intros I [HD HG].
  destruct (length (prevName f) =? 0)%nat.
  - injection I as <-. now split.
  - destruct (classify (heap f) (prevName f)) as [[key value] h] eqn:C.
    assert (Hh : (length (heap f) <= length h)%nat).
    { unfold classify in C. destruct (HasSuffix (prevName f) [x2f]);
        cbn [alloc] in C; injection C as _ _ <-;
        [rewrite length_app; simpl; lia | lia]. }
    unfold transition in I. destruct (depth f >? prevDepth f).
    + cbn [alloc] in I. injection I as <-. cbn [heap dir glob].
      unfold store. rewrite length_update, length_app. cbn [length].
      split; [lia|]. apply Forall_app. split.
      * apply (Forall_lt_mono _ (length (heap f))); [lia | exact HG].
      * constructor; [lia | constructor].
    + destruct (depth f =? prevDepth f).
      * injection I as <-. cbn [heap dir glob].
        unfold store. rewrite length_update.
        split; [lia|].
        apply (Forall_lt_mono _ (length (heap f))); [lia | exact HG].
      * destruct (nth_error (glob f) _) as [g|] eqn:N; [|discriminate].
        injection I as <-. cbn [heap dir glob].
        unfold store. rewrite length_update. split.
        -- apply nth_error_In in N.
           pose proof (proj1 (Forall_forall _ _) HG g N) as Hg.
           cbn beta in Hg. lia.
        -- apply (Forall_lt_mono _ (length (heap f))); [lia|].
           apply Forall_forall. intros x Hx.
           apply (proj1 (Forall_forall _ _) HG x).
           eapply firstn_incl; exact Hx.
Qed.

Lemma iteration_sound (ct : CustomTree) (f : Frame) (r : Reader) :
  linked (heap f) /\ live f ->
  match iteration ct f r with
  | StepPanic => True
  | StepReturn f' _ _ | StepNext f' _ => linked (heap f') /\ live f'
  end.
Proof.
  intros [Hl Hv]. unfold iteration.
  destruct (readLine ct f r) as [[[f1 line] err] r1] eqn:R.
  apply readLine_keeps in R as (Hh & Hd & Hg & _).
  assert (Hv1 : live f1) by (unfold live in *; now rewrite Hh, Hd, Hg).
  assert (Hl1 : linked (heap f1)) by now rewrite Hh.
  destruct (insertPrev f1) as [f2|] eqn:I; [|exact Logic.I].
  pose proof (insertPrev_linked f1 f2 I (proj1 Hv1) Hl1) as Hl2.
  pose proof (insertPrev_live f1 f2 I Hv1) as Hv2.
  destruct (length line =? 0)%nat; now split.
Qed.

(** X19.  Throughout a build the heap stays a forest and the stack
    stays within it: every directory stored in a directory was created
    after its parent, exists, and has no second parent (no dangling
    reference, no cycle, no sharing), and the current directory and all
    stack entries exist, whatever the depths and names the parser
    returns. *)
Theorem frames_sound (ct : CustomTree) :
  forall fuel f r,
    linked (heap f) -> live f ->
    Forall (fun f' => linked (heap f') /\ live f') (frames fuel ct f r).
Proof.
  induction fuel as [|fuel IH]; intros f r Hl Hv; cbn [frames].
  - constructor; [now split | constructor].
  - constructor; [now split|].
    pose proof (iteration_sound ct f r (conj Hl Hv)) as Step.
    destruct (iteration ct f r) as [|f2 err r1|f' r1].
    + constructor.
    + constructor; [exact Step | constructor].
    + destruct Step. now apply IH.
Qed.

Lemma frames_sound_witness :
  Forall (fun f' => linked (heap f') /\ live f')
    (frames 4 Tab (start [[]] 0%nat)
       (NewReader (lit "a" ++ [x0a] ++ [x09; x09] ++ lit "b" ++ [x0a]
                   ++ lit "c/" ++ [x0a]))).
Proof.
  apply frames_sound.
  - split.
    + intros [|d] k r G; [discriminate G|].
      destruct d; discriminate G.
    + intros [|d1] k1 d2 k2 r G; [discriminate G|].
      destruct d1; discriminate G.
  - split; [simpl; lia | repeat constructor].
Defined.
